(** * Catalog discovery and extraction engine: a shallow embedding

    The development follows [app/scrapers/base.py] (class [SiteScraper]) and
    [app/cache.py].  Python values are represented as follows.

    - A Python [str] is the list of the bytes of its UTF-8 encoding
      ([str := list ascii]); [encode("utf-8")] and [decode("utf-8")] are the
      identity on this representation.  Case mapping and character classes
      act on the ASCII range and leave the other bytes alone.
    - A Python [int] is a [Z]; [None] is [None]; a function that can raise
      returns an [option] or a three-valued outcome.
    - A [set] of strings is a [gset str]; a [list] is a [list]; a [dict]
      whose insertion order is observable is an association list.
    - The browser (Playwright) and the HTTP client are a passive environment:
      a page is the table of what each selector matches. *)

From Stdlib Require Import ZArith NArith Ascii String Bool Lia.
From stdpp Require Import base gmap sets list strings.

Abbreviation str := (list ascii).
Coercion list_ascii_of_string : string >-> list.

#[local] Open Scope Z_scope.

(** ** Python string primitives *)

Module PyStr.

Definition code (c : ascii) : N := N_of_ascii c.

Definition in_range (lo hi : N) (c : ascii) : bool :=
  ((lo <=? code c) && (code c <=? hi))%N.

Definition is_digit (c : ascii) : bool := in_range 48 57 c.
Definition is_upper (c : ascii) : bool := in_range 65 90 c.
Definition is_lower (c : ascii) : bool := in_range 97 122 c.
Definition is_alpha (c : ascii) : bool := is_upper c || is_lower c.

(** [\s] on the ASCII range, which is also what [str.strip()] removes:
    TAB, LF, VT, FF, CR, FS, GS, RS, US and SPACE. *)
Definition is_space (c : ascii) : bool :=
  in_range 9 13 c || in_range 28 32 c.

(** [\w] on the ASCII range. *)
Definition is_word (c : ascii) : bool :=
  is_alpha c || is_digit c || (code c =? 95)%N.

Definition lower_char (c : ascii) : ascii :=
  if is_upper c then ascii_of_N (code c + 32) else c.
Definition upper_char (c : ascii) : ascii :=
  if is_lower c then ascii_of_N (code c - 32) else c.

Definition lower (s : str) : str := map lower_char s.
Definition upper (s : str) : str := map upper_char s.

Definition eqb_char (a b : ascii) : bool := Ascii.eqb a b.

Fixpoint eqb (a b : str) : bool :=
  match a, b with
  | [], [] => true
  | x :: a', y :: b' => eqb_char x y && eqb a' b'
  | _, _ => false
  end.

(** [s.startswith(p)] *)
Fixpoint startswith (p s : str) : bool :=
  match p, s with
  | [], _ => true
  | x :: p', y :: s' => eqb_char x y && startswith p' s'
  | _ :: _, [] => false
  end.

(** [needle in hay] *)
Fixpoint contains (needle hay : str) : bool :=
  startswith needle hay ||
  match hay with
  | [] => false
  | _ :: hay' => contains needle hay'
  end.

(** [c in s] for a single character *)
Definition has_char (c : ascii) (s : str) : bool := existsb (eqb_char c) s.

(** [s.lstrip()], [s.rstrip()], [s.strip()] *)
Fixpoint drop_while (p : ascii -> bool) (s : str) : str :=
  match s with
  | c :: s' => if p c then drop_while p s' else s
  | [] => []
  end.

Definition lstrip (s : str) : str := drop_while is_space s.
Definition rstrip (s : str) : str := rev (drop_while is_space (rev s)).
Definition strip (s : str) : str := rstrip (lstrip s).

(** [s.split(sep, 1)] for a one-character separator: [None] when the
    separator does not occur (the result then has a single element). *)
Fixpoint split_once (sep : ascii) (s : str) : option (str * str) :=
  match s with
  | [] => None
  | c :: s' =>
      if eqb_char c sep then Some ([], s')
      else match split_once sep s' with
           | Some (a, b) => Some (c :: a, b)
           | None => None
           end
  end.

(** [s.replace(a, b)] for single characters *)
Definition replace_char (a b : ascii) (s : str) : str :=
  map (fun c => if eqb_char c a then b else c) s.

(** [str(n)] for an [int] *)
Definition digit_char (d : Z) : ascii := ascii_of_N (48 + Z.to_N d).

Fixpoint str_of_pos_fuel (fuel : nat) (n : Z) (acc : str) : str :=
  match fuel with
  | O => acc
  | S fuel' =>
      let acc' := digit_char (n mod 10) :: acc in
      if n <? 10 then acc' else str_of_pos_fuel fuel' (n / 10) acc'
  end.

Definition str_of_nonneg (n : Z) : str :=
  str_of_pos_fuel (S (Z.to_nat (Z.log2 n))) n [].

Definition str_of_int (n : Z) : str :=
  if n <? 0 then "-"%char :: str_of_nonneg (- n) else str_of_nonneg n.

(** [int(s)]: surrounding white space, an optional sign, decimal digits
    with single underscores between digits; anything else raises. *)
Definition digit_val (c : ascii) : Z := Z.of_N (code c) - 48.

Fixpoint int_digits (acc : Z) (s : str) : option Z :=
  match s with
  | [] => Some acc
  | c :: s' =>
      if is_digit c then int_digits (acc * 10 + digit_val c) s'
      else if eqb_char c "_" then
        match s' with
        | d :: _ => if is_digit d then int_digits acc s' else None
        | [] => None
        end
      else None
  end.

Definition int_unsigned (s : str) : option Z :=
  match s with
  | c :: _ => if is_digit c then int_digits 0 s else None
  | [] => None
  end.

Definition int_of_str (s : str) : option Z :=
  match strip s with
  | c :: s' =>
      if eqb_char c "-" then Z.opp <$> int_unsigned s'
      else if eqb_char c "+" then int_unsigned s'
      else int_unsigned (c :: s')
  | [] => None
  end.


(** Checking a property of one byte by enumeration. *)
Definition bytes256 : list N := map N.of_nat (seq 0 256).

Definition all256 (P : N -> bool) : bool := forallb P bytes256.

(** The number a string of decimal digits denotes, read after [a]. *)
Definition digits_value (ds : str) (a : Z) : Z :=
  fold_left (fun acc c => acc * 10 + digit_val c) ds a.

End PyStr.

(** ** [app/cache.py]: scan cursors *)

Module Cursor.
Import PyStr.

(** *** [base64.urlsafe_b64encode] and [base64.urlsafe_b64decode]

    The encoder is [binascii.b2a_base64] without the newline followed by the
    translation of [+/] to [-_]; the decoder translates back and runs
    [binascii.a2b_base64] in its default, non-strict mode: characters outside
    the alphabet are skipped, and a pad that completes a quad ends the
    input. *)

Definition b2a (v : N) : ascii :=
  (if v <? 26 then ascii_of_N (65 + v)
   else if v <? 52 then ascii_of_N (97 + (v - 26))
   else if v <? 62 then ascii_of_N (48 + (v - 52))
   else if v =? 62 then "-"%char
   else "_"%char)%N.

Definition a2b (c : ascii) : option N :=
  (if is_upper c then Some (code c - 65)
   else if is_lower c then Some (code c - 97 + 26)
   else if is_digit c then Some (code c - 48 + 52)
   else if eqb_char c "-" || eqb_char c "+" then Some 62
   else if eqb_char c "_" || eqb_char c "/" then Some 63
   else None)%N.

Definition pad : ascii := "="%char.

Fixpoint urlsafe_b64encode (bs : str) : str :=
  match bs with
  | [] => []
  | [x] =>
      let a := code x in
      [b2a (N.shiftr a 2); b2a (N.shiftl (N.land a 3) 4); pad; pad]
  | [x; y] =>
      let a := code x in
      let b := code y in
      [b2a (N.shiftr a 2);
       b2a (N.lor (N.shiftl (N.land a 3) 4) (N.shiftr b 4));
       b2a (N.shiftl (N.land b 15) 2); pad]
  | x :: y :: z :: rest =>
      let a := code x in
      let b := code y in
      let c := code z in
      b2a (N.shiftr a 2)
      :: b2a (N.lor (N.shiftl (N.land a 3) 4) (N.shiftr b 4))
      :: b2a (N.lor (N.shiftl (N.land b 15) 2) (N.shiftr c 6))
      :: b2a (N.land c 63)
      :: urlsafe_b64encode rest
  end.

(** Decoder state: position in the current quad, the bits left over from
    the previous character, and the number of consecutive pads seen. *)
Fixpoint a2b_loop (quad_pos : nat) (leftchar : N) (pads : nat) (s : str)
  : option str :=
  match s with
  | [] => if Nat.eqb quad_pos 0 then Some [] else None
  | ch :: s' =>
      if eqb_char ch pad then
        if Nat.leb 2 quad_pos && Nat.leb 4 (quad_pos + S pads)
        then Some []
        else a2b_loop quad_pos leftchar
               (if Nat.leb 2 quad_pos then S pads else pads) s'
      else
        match a2b ch with
        | None => a2b_loop quad_pos leftchar pads s'
        | Some v =>
            match quad_pos with
            | 0%nat => a2b_loop 1 v 0 s'
            | 1%nat =>
                cons (ascii_of_N (N.lor (N.shiftl leftchar 2) (N.shiftr v 4)))
                  <$> a2b_loop 2 (N.land v 15) 0 s'
            | 2%nat =>
                cons (ascii_of_N (N.lor (N.shiftl leftchar 4) (N.shiftr v 2)))
                  <$> a2b_loop 3 (N.land v 3) 0 s'
            | _ =>
                cons (ascii_of_N (N.lor (N.shiftl leftchar 6) v))
                  <$> a2b_loop 0 0 0 s'
            end
        end
  end.

Definition urlsafe_b64decode (s : str) : option str := a2b_loop 0 0 0 s.

(** *** [encode_cursor] and [decode_cursor] *)

Definition encode_cursor (scan_id : str) (offset : Z) : str :=
  let payload := scan_id ++ ":"%char :: str_of_int offset in
  urlsafe_b64encode payload.

(** [None] stands for any of the exceptions the function can raise: a bad
    base64 payload, a payload without [':'], an offset that [int] rejects. *)
Definition decode_cursor (cursor : str) : option (str * Z) :=
  raw ← urlsafe_b64decode cursor;
  '(scan_id, offset_text) ← split_once ":" raw;
  offset ← int_of_str offset_text;
  Some (scan_id, offset).

(** *** Checks used by the round-trip proof *)

Definition sextet_ok (v : N) : bool :=
  match a2b (b2a v) with
  | Some w => (w =? v)%N && negb (eqb_char (b2a v) pad)
  | None => false
  end.

(** The four sextets of a group of three bytes. *)
Definition s0 (a : N) : N := N.shiftr a 2.
Definition s1 (a b : N) : N := N.lor (N.shiftl (N.land a 3) 4) (N.shiftr b 4).
Definition s2 (b c : N) : N := N.lor (N.shiftl (N.land b 15) 2) (N.shiftr c 6).
Definition s3 (c : N) : N := N.land c 63.

Definition head_ok (a b : N) : bool :=
  ((s0 a <? 64) && (s1 a b <? 64)
   && (N.lor (N.shiftl (s0 a) 2) (N.shiftr (s1 a b) 4) =? a)
   && (N.land (s1 a b) 15 =? N.shiftr b 4))%N.

Definition tail_ok (b c : N) : bool :=
  ((s2 b c <? 64) && (s3 c <? 64)
   && (N.lor (N.shiftl (N.shiftr b 4) 4) (N.shiftr (s2 b c) 2) =? b)
   && (N.lor (N.shiftl (N.land (s2 b c) 3) 6) (s3 c) =? c))%N.

End Cursor.

(** ** The regular expressions of the scraper

    A small backtracking matcher with the priorities of Python's [re]:
    alternatives left to right, optional parts and repetitions greedy.
    [run r prev s] lists, in the order in which backtracking would try them,
    the ways [r] can match at the start of [s]; [prev] is the character just
    before [s], which word boundaries and look-behinds inspect.  The first
    element of the list is the match [re] reports. *)

Module Re.
Import PyStr.

Inductive re : Type :=
  | Eps                            (* the empty expression *)
  | Cls (p : ascii -> bool)        (* one character of a class *)
  | Lit (s : str)                  (* a literal, under IGNORECASE *)
  | Seq (a b : re)
  | Alt (a b : re)
  | Opt (a : re)                   (* greedy [?] *)
  | Many (p : ascii -> bool)       (* greedy [*] on a class *)
  | WordB                          (* [\b] *)
  | Behind (p : ascii -> bool).    (* [(?<=[...])] *)

(** A sequence of expressions, and an alternation [a|b|...]. *)
Definition cat (l : list re) : re := foldr Seq Eps l.
Definition alts (l : list re) : re := foldr Alt (Cls (fun _ => false)) l.

(** [\d+], [\s+] *)
Definition Some1 (p : ascii -> bool) : re := Seq (Cls p) (Many p).

(** [\d{1,2}] *)
Definition OneOrTwo (p : ascii -> bool) : re := Seq (Cls p) (Opt (Cls p)).

Fixpoint lit_prefix (l s : str) : option (str * str) :=
  match l, s with
  | [], _ => Some ([], s)
  | x :: l', c :: s' =>
      if eqb_char (lower_char x) (lower_char c) then
        match lit_prefix l' s' with
        | Some (m, r) => Some (c :: m, r)
        | None => None
        end
      else None
  | _ :: _, [] => None
  end.

Fixpoint many (p : ascii -> bool) (s : str) : list (str * str) :=
  match s with
  | c :: s' =>
      if p c then map (fun mr => (c :: fst mr, snd mr)) (many p s') ++ [([], s)]
      else [([], s)]
  | [] => [([], [])]
  end.

Definition is_word_opt (c : option ascii) : bool :=
  match c with Some c => is_word c | None => false end.

Definition at_boundary (prev : option ascii) (s : str) : bool :=
  xorb (is_word_opt prev) (is_word_opt (head s)).

Definition last_char (prev : option ascii) (m : str) : option ascii :=
  match last m with Some c => Some c | None => prev end.

Fixpoint run (r : re) (prev : option ascii) (s : str) : list (str * str) :=
  match r with
  | Eps => [([], s)]
  | Cls p =>
      match s with
      | c :: s' => if p c then [([c], s')] else []
      | [] => []
      end
  | Lit l =>
      match lit_prefix l s with
      | Some mr => [mr]
      | None => []
      end
  | Seq a b =>
      flat_map (fun m1 =>
                  map (fun m2 => (fst m1 ++ fst m2, snd m2))
                    (run b (last_char prev (fst m1)) (snd m1)))
        (run a prev s)
  | Alt a b => run a prev s ++ run b prev s
  | Opt a => run a prev s ++ [([], s)]
  | Many p => many p s
  | WordB => if at_boundary prev s then [([], s)] else []
  | Behind p =>
      match prev with
      | Some c => if p c then [([], s)] else []
      | None => []
      end
  end.

(** The scan shared by [re.sub], [re.findall] and [re.split]: the text is cut
    into the successive non-overlapping leftmost matches ([inl]) and the
    characters between them ([inr]).  None of the expressions below matches
    the empty string, so an empty first match is treated as no match. *)
Fixpoint scan (fuel : nat) (r : re) (prev : option ascii) (s : str)
  : list (str + ascii) :=
  match fuel with
  | O => []
  | S fuel' =>
      match head (run r prev s) with
      | Some (c :: m, rest) =>
          inl (c :: m) :: scan fuel' r (last_char prev (c :: m)) rest
      | _ =>
          match s with
          | [] => []
          | c :: s' => inr c :: scan fuel' r (Some c) s'
          end
      end
  end.

Definition pieces (r : re) (s : str) : list (str + ascii) :=
  scan (S (length s)) r None s.

(** [re.sub(r, repl, s)] *)
Definition sub (r : re) (repl : str) (s : str) : str :=
  flat_map (fun p => match p with inl _ => repl | inr c => [c] end) (pieces r s).

(** [r.findall(s)] for an expression without capturing groups *)
Definition findall (r : re) (s : str) : list str :=
  omap (fun p => match p with inl m => Some m | inr _ => None end) (pieces r s).

(** [re.split(r, s)] for an expression without capturing groups *)
Fixpoint split_pieces (cur : str) (ps : list (str + ascii)) : list str :=
  match ps with
  | [] => [rev cur]
  | inl _ :: ps' => rev cur :: split_pieces [] ps'
  | inr c :: ps' => split_pieces (c :: cur) ps'
  end.

Definition split (r : re) (s : str) : list str := split_pieces [] (pieces r s).

End Re.

(** ** [urllib.parse] (CPython 3.11) as far as the scraper uses it *)

Module Url.
Import PyStr.

(** The two places where [urlsplit] consults other libraries: the check of a
    bracketed host ([ipaddress.ip_address] and the IPvFuture pattern) and the
    NFKC check of a network location that is not ASCII.  Both only decide
    whether [urlsplit] raises [ValueError]. *)
Class HostChecks := {
  bracketed_host_ok : str -> bool;
  nfkc_netloc_ok : str -> bool;
}.

Record ParseResult := {
  scheme : str;
  netloc : str;
  path : str;
  params : str;
  query : str;
  fragment : str;
}.

Definition mem (s : str) (l : list str) : bool := existsb (eqb s) l.

Definition uses_netloc : list str :=
  map list_ascii_of_string
    [""; "ftp"; "http"; "gopher"; "nntp"; "telnet"; "imap"; "wais"; "file";
     "mms"; "https"; "shttp"; "snews"; "prospero"; "rtsp"; "rtspu"; "rsync";
     "svn"; "svn+ssh"; "sftp"; "nfs"; "git"; "git+ssh"; "ws"; "wss"]%string.

Definition uses_params : list str :=
  map list_ascii_of_string
    [""; "ftp"; "hdl"; "prospero"; "http"; "imap"; "https"; "shttp"; "rtsp";
     "rtspu"; "sip"; "sips"; "mms"; "sftp"; "tel"]%string.

Definition is_scheme_char (c : ascii) : bool :=
  is_alpha c || is_digit c || has_char c "+-.".

(** [_WHATWG_C0_CONTROL_OR_SPACE] *)
Definition is_c0_or_space (c : ascii) : bool := (code c <=? 32)%N.

(** [_UNSAFE_URL_BYTES_TO_REMOVE] *)
Definition is_unsafe (c : ascii) : bool := has_char c ["009"; "013"; "010"]%char.

Definition is_ascii (c : ascii) : bool := (code c <? 128)%N.

(** The text before the first character satisfying [p], and the text from
    that character on (empty when there is none). *)
Fixpoint break_at (p : ascii -> bool) (s : str) : str * str :=
  match s with
  | [] => ([], [])
  | c :: s' =>
      if p c then ([], s)
      else let '(a, b) := break_at p s' in (c :: a, b)
  end.

(** [a, sep, b = s.partition(c)] without the separator *)
Definition partition (c : ascii) (s : str) : str * bool * str :=
  match break_at (eqb_char c) s with
  | (a, _ :: b) => (a, true, b)
  | (a, []) => (a, false, [])
  end.

(** [s.rpartition(c)[2]] *)
Fixpoint after_last (c : ascii) (s : str) : str :=
  match s with
  | [] => []
  | x :: s' =>
      if has_char c s' then after_last c s'
      else if eqb_char x c then s' else s
  end.

(** [_splitnetloc(url, 2)] on the text after the two slashes *)
Definition _splitnetloc (rest : str) : str * str :=
  break_at (fun c => has_char c "/?#") rest.

Section with_checks.
Context `{HostChecks}.

Definition _check_bracketed_netloc (netloc : str) : bool :=
  let hostname_and_port := after_last "@" netloc in
  let '(before_bracket, have_open_br, bracketed) :=
    partition "[" hostname_and_port in
  if have_open_br then
    match before_bracket with
    | _ :: _ => false
    | [] =>
        let '(hostname, _, port) := partition "]" bracketed in
        match port with
        | c :: _ => eqb_char c ":" && bracketed_host_ok hostname
        | [] => bracketed_host_ok hostname
        end
    end
  else
    let '(hostname, _, _) := partition ":" hostname_and_port in
    bracketed_host_ok hostname.

Definition _checknetloc (netloc : str) : bool :=
  forallb is_ascii netloc || nfkc_netloc_ok netloc.

(** Whether [urlsplit] accepts the network location. *)
Definition netloc_ok (netloc : str) : bool :=
  let open := has_char "[" netloc in
  let close := has_char "]" netloc in
  negb (xorb open close)
  && (negb (open && close) || _check_bracketed_netloc netloc)
  && _checknetloc netloc.

(** The scheme of [url] and the text after its colon. *)
Definition split_scheme (url : str) : str * str :=
  match break_at (eqb_char ":") url with
  | (c0 :: pre, _ :: rest) =>
      if is_ascii c0 && is_alpha c0 && forallb is_scheme_char (c0 :: pre)
      then (lower (c0 :: pre), rest)
      else ([], url)
  | _ => ([], url)
  end.

(** [url.split(c, 1)] when [c] occurs, else the text and the empty string *)
Definition cut (c : ascii) (url : str) : str * str :=
  match break_at (eqb_char c) url with
  | (a, _ :: b) => (a, b)
  | (a, []) => (a, [])
  end.

(** [urlsplit]; [None] is [ValueError]. *)
Definition urlsplit (url : str) : option (str * str * str * str * str) :=
  let url := drop_while is_c0_or_space url in
  let url := List.filter (fun c => negb (is_unsafe c)) url in
  let '(scheme, url) := split_scheme url in
  let '(netloc, url) :=
    if startswith "//" url then _splitnetloc (drop 2 url) else ([], url) in
  let '(url, fragment) := cut "#" url in
  let '(url, query) := cut "?" url in
  if netloc_ok netloc then Some (scheme, netloc, url, query, fragment)
  else None.

(** The position from which [_splitparams] looks for the semicolon: the
    text up to the last slash, and the text from that slash on. *)
Fixpoint rsplit_slash (url : str) : str * str :=
  match url with
  | [] => ([], [])
  | c :: url' =>
      if has_char "/" url' then
        let '(a, b) := rsplit_slash url' in (c :: a, b)
      else ([], url)
  end.

Definition _splitparams (url : str) : str * str :=
  let '(front, seg) := rsplit_slash url in
  match break_at (eqb_char ";") seg with
  | (a, _ :: b) => (front ++ a, b)
  | (_, []) => (url, [])
  end.

Definition urlparse (url : str) : option ParseResult :=
  '(scheme, netloc, url, query, fragment) ← urlsplit url;
  let '(url, params) :=
    if mem scheme uses_params && has_char ";" url then _splitparams url
    else (url, []) in
  Some {| scheme := scheme; netloc := netloc; path := url; params := params;
          query := query; fragment := fragment |}.

End with_checks.

Definition nonempty (s : str) : bool :=
  match s with [] => false | _ => true end.

Definition urlunsplit (scheme netloc url query fragment : str) : str :=
  let url :=
    if nonempty netloc
       || (nonempty scheme && mem scheme uses_netloc
           && negb (startswith "//" url))
    then
      let url :=
        match url with
        | [] => url
        | c :: _ => if eqb_char c "/" then url else "/"%char :: url
        end in
      "//" ++ netloc ++ url
    else url in
  let url := if nonempty scheme then scheme ++ ":" ++ url else url in
  let url := if nonempty query then url ++ "?" ++ query else url in
  let url := if nonempty fragment then url ++ "#" ++ fragment else url in
  url.

Definition urlunparse (p : ParseResult) : str :=
  let url := if nonempty (params p) then path p ++ ";" ++ params p else path p in
  urlunsplit (scheme p) (netloc p) url (query p) (fragment p).

(** The pieces [urlunsplit] prints, in order: [scheme:], the network
    location and path, [?query], [#fragment]. *)
Definition scheme_part (scheme : str) : str :=
  if nonempty scheme then scheme ++ ":" else [].

Definition hier_part (scheme netloc url : str) : str :=
  if nonempty netloc
     || (nonempty scheme && mem scheme uses_netloc
         && negb (startswith "//" url))
  then
    "//" ++ netloc ++
    match url with
    | [] => url
    | c :: _ => if eqb_char c "/" then url else "/"%char :: url
    end
  else url.

Definition opt_part (sep : ascii) (text : str) : str :=
  if nonempty text then sep :: text else [].

(** *** Percent-encoding *)

Definition hex_upper (v : N) : ascii :=
  (if v <? 10 then ascii_of_N (48 + v) else ascii_of_N (55 + v))%N.

Definition hex_val (c : ascii) : option N :=
  (if is_digit c then Some (code c - 48)
   else if in_range 65 70 c then Some (code c - 55)
   else if in_range 97 102 c then Some (code c - 87)
   else None)%N.

(** [_ALWAYS_SAFE] *)
Definition always_safe (c : ascii) : bool :=
  is_alpha c || is_digit c || has_char c "_.-~".

(** [quote(string, safe)] *)
Definition quote (safe : ascii -> bool) (s : str) : str :=
  flat_map (fun c =>
              if always_safe c || safe c then [c]
              else ["%"%char; hex_upper (code c / 16); hex_upper (code c mod 16)])
    s.

(** [quote_plus(string)] *)
Definition quote_plus (s : str) : str :=
  if has_char " " s then replace_char " " "+" (quote (eqb_char " ") s)
  else quote (fun _ => false) s.

(** [unquote(string)]: an escape is a percent sign and two hexadecimal
    digits; any other percent sign stays.  (On escapes that are not UTF-8
    Python substitutes U+FFFD; here the byte is kept.) *)
Fixpoint unquote (s : str) : str :=
  match s with
  | [] => []
  | c :: s' =>
      if eqb_char c "%" then
        match s' with
        | h1 :: h2 :: rest =>
            match hex_val h1, hex_val h2 with
            | Some a, Some b => ascii_of_N (16 * a + b) :: unquote rest
            | _, _ => c :: unquote s'
            end
        | _ => c :: unquote s'
        end
      else c :: unquote s'
  end.

(** [s.split(sep)] for a one-character separator *)
Fixpoint split_all (sep : ascii) (s : str) : list str :=
  match s with
  | [] => [[]]
  | c :: s' =>
      match split_all sep s' with
      | cur :: parts =>
          if eqb_char c sep then [] :: cur :: parts else (c :: cur) :: parts
      | [] => [[c]]
      end
  end.

(** [parse_qsl(qs)] with its defaults: blank values are dropped. *)
Definition parse_qsl (qs : str) : list (str * str) :=
  let query_args := match qs with [] => [] | _ => split_all "&" qs end in
  omap (fun name_value =>
          match name_value with
          | [] => None
          | _ =>
              match split_once "=" name_value with
              | None => None
              | Some (n, v) =>
                  match v with
                  | [] => None
                  | _ =>
                      Some (unquote (replace_char "+" " " n),
                            unquote (replace_char "+" " " v))
                  end
              end
          end) query_args.

(** A [dict] from names to lists of values, in insertion order. *)
Abbreviation qdict := (list (str * list str)).

(** [parsed_result[name].append(value)] or [parsed_result[name] = [value]] *)
Fixpoint qdict_add (name value : str) (d : qdict) : qdict :=
  match d with
  | [] => [(name, [value])]
  | (k, vs) :: d' =>
      if eqb name k then (k, vs ++ [value]) :: d'
      else (k, vs) :: qdict_add name value d'
  end.

(** [parse_qs(qs)] *)
Definition parse_qs (qs : str) : qdict :=
  fold_left (fun d nv => qdict_add (fst nv) (snd nv) d) (parse_qsl qs) [].

(** [query[param] = values] *)
Fixpoint qdict_set (name : str) (values : list str) (d : qdict) : qdict :=
  match d with
  | [] => [(name, values)]
  | (k, vs) :: d' =>
      if eqb name k then (k, values) :: d'
      else (k, vs) :: qdict_set name values d'
  end.

Fixpoint join (sep : str) (parts : list str) : str :=
  match parts with
  | [] => []
  | [p] => p
  | p :: ps => p ++ sep ++ join sep ps
  end.

(** [urlencode(query, doseq=True)] *)
Definition urlencode (d : qdict) : str :=
  join "&"
    (flat_map (fun kv =>
                 let k := quote_plus (fst kv) in
                 map (fun elt => k ++ "=" ++ quote_plus elt) (snd kv)) d).

(** *** Auxiliary forms used in the proofs *)

(** What [quote_plus] prints for one character. *)
Definition plus_char (c : ascii) : str :=
  if always_safe c then [c]
  else if eqb_char c " " then ["+"%char]
  else ["%"%char; hex_upper (code c / 16); hex_upper (code c mod 16)].

(** The characters [quote_plus] can print. *)
Definition is_quoted_char (c : ascii) : bool :=
  always_safe c || eqb_char c "+" || eqb_char c "%".

(** The check, for one character, that [unquote] after the replacement of
    ["+"] undoes [plus_char]. *)
Definition plus_char_ok (c : ascii) : bool :=
  forallb is_quoted_char (plus_char c)
  && match plus_char c with
     | [x] =>
         (eqb_char x c && negb (eqb_char c "%") && negb (eqb_char c "+"))
         || (eqb_char c " " && eqb_char x "+")
     | [p; h1; h2] =>
         eqb_char p "%" && negb (eqb_char h1 "+") && negb (eqb_char h2 "+")
         && negb (eqb_char h1 "%") && negb (eqb_char h2 "%")
         && match hex_val h1, hex_val h2 with
            | Some a, Some b => eqb_char (ascii_of_N (16 * a + b)) c
            | _, _ => false
            end
     | _ => false
     end.

(** The name-value pairs of a [dict] of lists, in order. *)
Definition pairs_of (d : qdict) : list (str * str) :=
  flat_map (fun kv => map (fun v => (fst kv, v)) (snd kv)) d.

Definition encode_pair (nv : str * str) : str :=
  quote_plus (fst nv) ++ "=" ++ quote_plus (snd nv).

(** A scheme as [urlsplit] returns it when it finds one. *)
Definition scheme_ok (s : str) : bool :=
  match s with
  | c0 :: _ =>
      is_ascii c0 && is_alpha c0 && forallb is_scheme_char s && eqb (lower s) s
  | [] => false
  end.

(** Free of the characters [urlsplit] deletes. *)
Definition clean (s : str) : Prop := Forall (fun c => is_unsafe c = false) s.

(** [path;params] as [urlunparse] prints it. *)
Definition with_params (path params : str) : str :=
  if nonempty params then path ++ ";" ++ params else path.

(** The characters of an encoded query. *)
Definition is_query_char (c : ascii) : bool :=
  is_quoted_char c || eqb_char c "&" || eqb_char c "=".

(** A [dict] as [parse_qs] builds it: distinct names, each with at least
    one value, no value blank. *)
Definition qdict_wf (d : qdict) : Prop :=
  NoDup (map fst d)
  /\ Forall (fun kv => snd kv <> [] /\ Forall (fun v => v <> []) (snd kv)) d.

End Url.

(** ** [app/scrapers/base.py]: text classification *)

Module Text.
Import PyStr Re.

(** *** Module constants *)

Definition any_lit (l : list string) : re :=
  alts (map (fun w : string => Lit w) l).

(** [SIZE_TOKEN_REGEX] *)
Definition SIZE_TOKEN_REGEX : re :=
  cat [WordB;
       any_lit ["XXXS"; "XXS"; "XS"; "S"; "M"; "L"; "XL"; "XXL"; "XXXL";
                "ONE SIZE"; "OS"; "OSFA"; "PETITE"; "REGULAR"; "TALL"];
       WordB]%string.

Definition is_dot (c : ascii) : bool := eqb_char c ".".
Definition is_dash (c : ascii) : bool := eqb_char c "-".

(** [(?:\.\d)?] *)
Definition decimal_part : re := Opt (Seq (Cls is_dot) (Cls is_digit)).

(** [SIZE_NUMBER_REGEX] *)
Definition SIZE_NUMBER_REGEX : re :=
  cat [WordB;
       Opt (any_lit ["UK"; "US"; "EU"]%string);
       Opt (Cls is_space);
       OneOrTwo is_digit;
       decimal_part;
       Opt (cat [Cls is_dash; OneOrTwo is_digit; decimal_part]);
       WordB].

Definition DESCRIPTION_BLACKLIST : list str :=
  map list_ascii_of_string
    ["strictly necessary cookies"; "delivery time"; "shipping method";
     "free above"; "cookie"; "cookies"; "sort by"; "prev"; "next";
     "wishlist"; "shipping"]%string.

(** [\b\d+\s*reviews?\b] *)
Definition REVIEWS_REGEX : re :=
  cat [WordB; Some1 is_digit; Many is_space;
       Lit "review"; Opt (Lit "s"); WordB].

(** [\b(sort by|prev|next|choose size|find my size|join the waitlist|low stock)\b] *)
Definition NOISE_REGEX : re :=
  cat [WordB;
       any_lit ["sort by"; "prev"; "next"; "choose size"; "find my size";
                "join the waitlist"; "low stock"]%string;
       WordB].

(** [(?<=[.!?])\s+] *)
Definition SENTENCE_END_REGEX : re :=
  Seq (Behind (fun c => eqb_char c "." || eqb_char c "!" || eqb_char c "?"))
      (Some1 is_space).

(** Truthiness of an [Optional[str]]. *)
Definition truthy (s : option str) : bool :=
  match s with
  | Some (_ :: _) => true
  | _ => false
  end.

(** [x or None] for a string [x]. *)
Definition or_none (s : str) : option str :=
  match s with
  | [] => None
  | _ :: _ => Some s
  end.

(** *** [_clean_text] *)
Definition _clean_text (text : str) : option str :=
  let cleaned := strip (sub (Some1 is_space) " " text) in
  or_none cleaned.

(** [sep.join(parts)] *)
Fixpoint join (sep : str) (parts : list str) : str :=
  match parts with
  | [] => []
  | [p] => p
  | p :: ps => p ++ sep ++ join sep ps
  end.

(** *** [_clean_description] *)
Definition _clean_description (text : option str) : option str :=
  match text with
  | None | Some [] => None
  | Some text =>
      match _clean_text text with
      | None => None
      | Some cleaned =>
          let parts := split SENTENCE_END_REGEX cleaned in
          let filtered :=
            List.filter (fun part =>
                      negb (existsb (fun block => contains block (lower part))
                              DESCRIPTION_BLACKLIST)) parts in
          or_none (strip (join " " filtered))
      end
  end.

(** *** [_normalize_availability] *)
Definition OUT_OF_STOCK : str := "out_of_stock".
Definition IN_STOCK : str := "in_stock".

Definition _normalize_availability (text : str) : option str :=
  let lowered := lower text in
  if contains "outofstock" lowered
     || contains "out of stock" lowered
     || contains "sold out" lowered
  then Some OUT_OF_STOCK
  else if contains "instock" lowered
          || contains "in stock" lowered
          || contains "available" lowered
  then Some IN_STOCK
  else if contains "waitlist" lowered then Some OUT_OF_STOCK
  else None.

(** *** [_is_reasonable_size_number]

    [float(numeric)] accepts a string of digits and dots exactly when it has
    at least one digit and at most one dot.  The value is kept as an exact
    decimal [mantissa / 10 ^ scale]; for the tokens [SIZE_NUMBER_REGEX] can
    produce (at most six digits) the comparison with 30 is the same as on
    Python's floats. *)

Definition is_numeric_char (c : ascii) : bool := is_digit c || is_dot c.

(** Parses digits (and at most one dot) from the left: [mant] is the number
    read so far without its dot, [scale] the count of digits after the dot,
    [dot] whether the dot was seen and [any] whether a digit was seen. *)
Fixpoint float_digits (mant : Z) (scale : nat) (dot any : bool) (s : str)
  : option (Z * nat) :=
  match s with
  | [] => if any then Some (mant, scale) else None
  | c :: s' =>
      if is_digit c then
        float_digits (mant * 10 + digit_val c)
          (if dot then S scale else scale) dot true s'
      else if is_dot c then
        if dot then None else float_digits mant scale true any s'
      else None
  end.

Definition float_of_numeric (s : str) : option (Z * nat) :=
  float_digits 0 0 false false s.

Definition _is_reasonable_size_number (token : str) : bool :=
  let numeric := List.filter is_numeric_char token in
  match numeric with
  | [] => false
  | _ =>
      match float_of_numeric numeric with
      | None => false
      | Some (mant, scale) => mant <=? 30 * 10 ^ Z.of_nat scale
      end
  end.

(** *** [_extract_size_tokens] *)
Definition remove_spaces (s : str) : str :=
  List.filter (fun c => negb (eqb_char c " ")) s.

Definition size_number_tokens (cleaned : str) : list str :=
  map (fun token => remove_spaces (upper token))
    (findall SIZE_NUMBER_REGEX cleaned).

Definition denoise (text : str) : str :=
  let cleaned := sub REVIEWS_REGEX " " text in
  let cleaned := sub NOISE_REGEX " " cleaned in
  replace_char "/" " " cleaned.

Definition _extract_size_tokens (text : str) : list str :=
  let cleaned := denoise text in
  let matches := map upper (findall SIZE_TOKEN_REGEX cleaned) in
  matches ++
  List.filter _is_reasonable_size_number (size_number_tokens cleaned).

(** [list(dict.fromkeys(l))]: first occurrences, in order. *)
Fixpoint dedup_keep_first (seen : list str) (l : list str) : list str :=
  match l with
  | [] => []
  | x :: l' =>
      if bool_decide (x ∈ seen) then dedup_keep_first seen l'
      else x :: dedup_keep_first (x :: seen) l'
  end.

(** *** [_filter_sizes] *)
Definition _filter_sizes (sizes : list str) : list str :=
  let tokens := flat_map _extract_size_tokens sizes in
  let cleaned :=
    List.filter (fun t => match t with [] => false | _ => true end)
      (map strip tokens) in
  dedup_keep_first [] cleaned.

End Text.


(** ** Outcomes, JSON values and the browser *)

(** The result of a call that either returns or raises. *)
Inductive outcome (A : Type) : Type :=
  | Ret (a : A)
  | Raise.
Arguments Ret {A} a.
Arguments Raise {A}.

#[global] Instance outcome_ret : MRet outcome := fun _ a => Ret a.
#[global] Instance outcome_bind : MBind outcome := fun _ _ f m =>
  match m with
  | Ret a => f a
  | Raise => Raise
  end.

(** A library call that raises [ValueError] and the like. *)
Definition of_option {A} (o : option A) : outcome A :=
  match o with
  | Some a => Ret a
  | None => Raise
  end.

Module Json.
#[local] Set Warnings "-register-all".
Import PyStr.

(** A value as [json.loads] or [response.json()] builds it.  An object is
    the [dict] after loading, so its keys are distinct.  A float is carried
    by its [str()] rendering and by whether it is zero. *)
Inductive json : Type :=
  | JNull
  | JBool (b : bool)
  | JInt (n : Z)
  | JFloat (text : str) (zero : bool)
  | JStr (s : str)
  | JList (l : list json)
  | JDict (d : list (str * json)).

(** [d.get(k)] on the association list of a [dict] *)
Fixpoint assoc {V} (k : str) (d : list (str * V)) : option V :=
  match d with
  | [] => None
  | (k', v) :: d' => if eqb k k' then Some v else assoc k d'
  end.

(** [d.get(k)] on a [dict]: [None] when the key is absent *)
Definition lookup_key (d : list (str * json)) (k : str) : json :=
  match assoc k d with
  | Some v => v
  | None => JNull
  end.

(** [obj.get(k)]; raises [AttributeError] when [obj] has no [get]. *)
Definition get (obj : json) (k : str) : outcome json :=
  match obj with
  | JDict d => Ret (lookup_key d k)
  | _ => Raise
  end.

(** [bool(x)] *)
Definition truthy (j : json) : bool :=
  match j with
  | JNull => false
  | JBool b => b
  | JInt n => negb (n =? 0)
  | JFloat _ zero => negb zero
  | JStr s => match s with [] => false | _ => true end
  | JList l => match l with [] => false | _ => true end
  | JDict d => match d with [] => false | _ => true end
  end.

Fixpoint join (sep : str) (parts : list str) : str :=
  match parts with
  | [] => []
  | [p] => p
  | p :: ps => p ++ sep ++ join sep ps
  end.

(** [repr(x)]; a string is rendered between single quotes without
    escapes. *)
Fixpoint repr (j : json) : str :=
  match j with
  | JNull => "None"
  | JBool true => "True"
  | JBool false => "False"
  | JInt n => str_of_int n
  | JFloat text _ => text
  | JStr s => "'"%char :: s ++ ["'"%char]
  | JList l => "["%char :: join ", " (map repr l) ++ ["]"%char]
  | JDict d =>
      "{"%char ::
      join ", " (map (fun kv => let '(k, v) := kv in
                                ("'"%char :: k ++ "': ") ++ repr v) d)
      ++ ["}"%char]
  end.

(** [str(x)] *)
Definition to_str (j : json) : str :=
  match j with
  | JStr s => s
  | _ => repr j
  end.

End Json.

Module Browser.
Import Json.

(** An element matched by a locator: its inner text, its [href] attribute
    ([None] when absent) and, for a button, whether it is disabled ([None]
    when [is_disabled()] raises). *)
Record Element := {
  inner_text : str;
  href : option str;
  is_disabled : option bool;
}.

(** The document at one instant: what each selector matches, in document
    order, and the [application/ld+json] blocks, each given by what
    [json.loads] makes of its stripped text ([None] for a blank block and for
    a [JSONDecodeError]). *)
Record Dom := {
  locator : str -> list Element;
  ld_json : list (option json);
}.

(** A loaded page: [snapshot k] is the document after [k] calls of
    [window.scrollTo]. *)
Record Page := {
  snapshot : nat -> Dom;
}.

(** What [context.request.get] does: it raises, or answers with a status
    and a body that [response.json()] decodes or not. *)
Inductive http_result : Type :=
  | TransportError
  | Response (status : Z) (body : option json).

(** The world a scraper runs in.  [goto url] is [None] when navigation
    raises; [scroll_attempts url] is the draw of
    [random.randint] over [SCROLL_ATTEMPTS_RANGE] on that page. *)
Record World := {
  goto : str -> option Page;
  scroll_attempts : str -> nat;
  request_get : str -> http_result;
}.

End Browser.

(** ** [app/scrapers/config.py] *)

Module Config.

Record ScrapeConfig := {
  name : str;
  base_url : str;
  search_url : str;
  product_link_selectors : list str;
  name_selectors : list str;
  price_selectors : list str;
  size_selectors : list str;
  availability_selectors : list str;
  description_selectors : list str;
  catalog_url : option str;
  pagination_selector : option str;
  pagination_param : option str;
  max_products : Z;
}.

Definition DEFAULT_PRODUCT_LINK_SELECTORS : list str :=
  map list_ascii_of_string
    ["a[href*='/products/']"; "a[href*='/product/']"; "a[href*='/p/']";
     "a[data-testid*='product']"; "a[class*='product']"]%string.

Definition DEFAULT_NAME_SELECTORS : list str :=
  map list_ascii_of_string
    ["[data-testid='product-title']"; "[data-testid*='product-name']";
     "h1[itemprop='name']"; "h1[class*='product']"; "h1"]%string.

Definition DEFAULT_PRICE_SELECTORS : list str :=
  map list_ascii_of_string
    ["[data-testid*='price']"; "[itemprop='price']"; "[class*='price']";
     "[data-price]"]%string.

Definition DEFAULT_SIZE_SELECTORS : list str :=
  map list_ascii_of_string
    ["button[aria-label*='Size']"; "[data-testid*='size'] button";
     "[class*='size'] button"; "select[name*='size'] option"]%string.

Definition DEFAULT_AVAILABILITY_SELECTORS : list str :=
  map list_ascii_of_string
    ["[data-testid*='availability']"; "[class*='availability']";
     "[class*='stock']"]%string.

Definition DEFAULT_DESCRIPTION_SELECTORS : list str :=
  map list_ascii_of_string
    ["[data-testid='product-description']"; "[class*='description']";
     "[itemprop='description']"]%string.

(** The dataclass with its defaults. *)
Definition make (name base_url search_url : str) : ScrapeConfig := {|
  name := name;
  base_url := base_url;
  search_url := search_url;
  product_link_selectors := DEFAULT_PRODUCT_LINK_SELECTORS;
  name_selectors := DEFAULT_NAME_SELECTORS;
  price_selectors := DEFAULT_PRICE_SELECTORS;
  size_selectors := DEFAULT_SIZE_SELECTORS;
  availability_selectors := DEFAULT_AVAILABILITY_SELECTORS;
  description_selectors := DEFAULT_DESCRIPTION_SELECTORS;
  catalog_url := None;
  pagination_selector := None;
  pagination_param := None;
  max_products := 75;
|}.

End Config.

(** ** [app/scrapers/base.py]: URL helpers *)

Module UrlOps.
Import PyStr Url.

Definition TRACKING_QUERY_PARAMS : list str :=
  map list_ascii_of_string
    ["cid"; "session"; "utm_source"; "utm_medium"; "utm_campaign";
     "utm_term"; "utm_content"; "gclid"; "fbclid"]%string.

Definition DEFAULT_PAGINATION_PARAM : str := "page".

(** [key in TRACKING_QUERY_PARAMS or key.startswith("utm_")] *)
Definition is_tracking (key : str) : bool :=
  mem key TRACKING_QUERY_PARAMS || startswith "utm_" key.

Definition with_query (p : ParseResult) (q : str) : ParseResult :=
  {| scheme := scheme p; netloc := netloc p; path := path p;
     params := params p; query := q; fragment := fragment p |}.

Section with_checks.
Context `{HostChecks}.

(** [_normalize_product_url]; [None] when [urlparse] raises. *)
Definition _normalize_product_url (url : str) : option str :=
  parsed ← urlparse url;
  let query := parse_qs (query parsed) in
  let query := List.filter (fun kv => negb (is_tracking (fst kv))) query in
  let cleaned := with_query parsed (urlencode query) in
  Some (urlunparse cleaned).

(** [_with_pagination_param] *)
Definition _with_pagination_param (url param : str) (page : Z) : option str :=
  parsed ← urlparse url;
  let query := parse_qs (query parsed) in
  let query := qdict_set param [str_of_int page] query in
  Some (urlunparse (with_query parsed (urlencode query))).

End with_checks.

(** [_is_product_url] *)
Definition _is_product_url (url : str) : bool :=
  existsb (fun segment : str => contains segment url)
    ["/product/" : str; "/products/" : str; "/p/" : str].

End UrlOps.

(** ** [app/scrapers/base.py]: the product page extractor *)

Module Extract.
Import PyStr Text Json Browser Config.

Definition ADD_TO_CART_SELECTORS : list str :=
  map list_ascii_of_string
    ["button:has-text('Add to Cart')"; "button:has-text('Add to Bag')";
     "button:has-text('Add to Basket')"]%string.

(** The [dict] built by [_extract_product_fields]: a key can be present
    with the value [None]. *)
Abbreviation fields := (list (str * option str)).

(** [d.get(k)] *)
Definition field (d : fields) (k : str) : option str :=
  mjoin (assoc k d).

(** A record as [_scrape_product] returns it. *)
Record ProductRecord := {
  site : str;
  name : str;
  price : option str;
  url : str;
  sizes : list str;
  availability : option str;
  description : option str;
}.

(** *** [_first_text] *)
Fixpoint _first_text (dom : Dom) (selectors : list str) : option str :=
  match selectors with
  | [] => None
  | selector :: rest =>
      match locator dom selector with
      | [] => _first_text dom rest
      | first :: _ =>
          match _clean_text (inner_text first) with
          | Some text => Some text
          | None => _first_text dom rest
          end
      end
  end.

(** *** [_all_texts] *)
Fixpoint _all_texts (dom : Dom) (selectors : list str) : list str :=
  match selectors with
  | [] => []
  | selector :: rest =>
      match locator dom selector with
      | [] => _all_texts dom rest
      | matches =>
          let cleaned := omap (fun e => _clean_text (inner_text e)) matches in
          match cleaned with
          | [] => _all_texts dom rest
          | _ => dedup_keep_first [] cleaned
          end
      end
  end.

(** *** [_extract_product_fields] *)

(** [if isinstance(v, str): result[key] = clean(v)] *)
Definition set_if_str (key : str) (clean : str -> option str)
    (v : json) (result : fields) : fields :=
  match v with
  | JStr s => result ++ [(key, clean s)]
  | _ => result
  end.

(** [if isinstance(offers, list) and offers: offers = offers[0]] *)
Definition first_offer (offers : json) : json :=
  match offers with
  | JList (first :: _) => first
  | _ => offers
  end.

(** [offers.get("price") or offers.get("priceSpecification", {}).get("price")];
    the second [get] raises when the specification is not a [dict]. *)
Definition offer_price (offers : list (str * json)) : outcome json :=
  let direct := lookup_key offers "price" in
  if truthy direct then Ret direct
  else
    match assoc "priceSpecification" offers with
    | None => Ret JNull
    | Some spec => get spec "price"
    end.

Definition _extract_product_fields (product : list (str * json)) : outcome fields :=
  let result : fields := [] in
  let result := set_if_str "name" _clean_text (lookup_key product "name") result in
  let result :=
    set_if_str "description" (fun d => _clean_description (Some d))
      (lookup_key product "description") result in
  match first_offer (lookup_key product "offers") with
  | JDict offers =>
      price ← offer_price offers;
      let result :=
        match price with
        | JNull => result
        | _ => result ++ [("price" : str, Some (to_str price))]
        end in
      Ret (set_if_str "availability" _normalize_availability
             (lookup_key offers "availability") result)
  | _ => Ret result
  end.

Definition is_product_type (d : list (str * json)) : bool :=
  match assoc "@type" d with
  | Some (JStr t) => eqb t "Product"
  | _ => false
  end.

(** *** [_find_product_json_ld] *)
Fixpoint _find_product_json_ld (payload : json) : outcome fields :=
  match payload with
  | JList items =>
      (fix each (items : list json) : outcome fields :=
         match items with
         | [] => Ret []
         | item :: rest =>
             found ← _find_product_json_ld item;
             match found with
             | [] => each rest
             | _ => Ret found
             end
         end) items
  | JDict d =>
      if is_product_type d then _extract_product_fields d
      else
        (fix graph (d : list (str * json)) : outcome fields :=
           match d with
           | [] => Ret []
           | (k, v) :: d' =>
               if eqb "@graph" k then _find_product_json_ld v else graph d'
           end) d
  | _ => Ret []
  end.

(** *** [_extract_json_ld] *)
Fixpoint extract_blocks (blocks : list (option json)) : outcome fields :=
  match blocks with
  | [] => Ret []
  | None :: rest => extract_blocks rest
  | Some payload :: rest =>
      product ← _find_product_json_ld payload;
      match product with
      | [] => extract_blocks rest
      | _ => Ret product
      end
  end.

Definition _extract_json_ld (dom : Dom) : outcome fields :=
  extract_blocks (ld_json dom).

(** *** [_availability] *)
Fixpoint probe_buttons (dom : Dom) (selectors : list str) : option str :=
  match selectors with
  | [] => None
  | selector :: rest =>
      match locator dom selector with
      | [] => probe_buttons dom rest
      | button :: _ =>
          let disabled := default false (is_disabled button) in
          Some (if disabled then OUT_OF_STOCK else IN_STOCK)
      end
  end.

Definition dom_availability (config : ScrapeConfig) (dom : Dom) : option str :=
  match _first_text dom (availability_selectors config) with
  | Some (c :: t) =>
      let availability_text := c :: t in
      match _normalize_availability availability_text with
      | Some (n :: ns) => Some (n :: ns)
      | _ =>
          if contains "low stock" (lower availability_text)
          then Some IN_STOCK else None
      end
  | _ => None
  end.

Definition _availability (config : ScrapeConfig) (dom : Dom) : option str :=
  match dom_availability config dom with
  | Some a => Some a
  | None => probe_buttons dom ADD_TO_CART_SELECTORS
  end.

(** [a or b] on optional strings, as in [if not a: a = b]. *)
Definition or_else (a b : option str) : option str :=
  if Text.truthy a then a else b.

(** *** [_scrape_product] *)
Definition _scrape_product (config : ScrapeConfig) (world : World) (url : str)
  : outcome (option ProductRecord) :=
  match goto world url with
  | None => Ret None
  | Some page =>
      let dom := snapshot page 0 in
      json_ld ← _extract_json_ld dom;
      let name := or_else (_first_text dom (name_selectors config))
                          (field json_ld "name") in
      match name with
      | Some (c :: n) =>
          let price := or_else (_first_text dom (price_selectors config))
                               (field json_ld "price") in
          let sizes := _filter_sizes (_all_texts dom (size_selectors config)) in
          let availability := or_else (_availability config dom)
                                      (field json_ld "availability") in
          let description :=
            or_else (_first_text dom (description_selectors config))
                    (field json_ld "description") in
          let description := _clean_description description in
          Ret (Some {| site := Config.name config;
                       name := c :: n;
                       price := price;
                       url := url;
                       sizes := sizes;
                       availability := availability;
                       description := description |})
      | _ => Ret None
      end
  end.

(** [l[:n]] *)
Definition slice_to {A} (n : Z) (l : list A) : list A :=
  if n <? 0 then take (Z.to_nat (Z.of_nat (length l) + n)) l
  else take (Z.to_nat n) l.

(** The loop over the product URLs in [search] and [crawl_catalog]: a
    product that raises or gives no record is skipped.  The result is the
    list of records together with the [page.goto] calls made, in order. *)
Fixpoint scrape_each (config : ScrapeConfig) (world : World) (urls : list str)
  : list ProductRecord * list str :=
  match urls with
  | [] => ([], [])
  | url :: rest =>
      let '(results, gotos) := scrape_each config world rest in
      match _scrape_product config world url with
      | Ret (Some product) => (product :: results, url :: gotos)
      | _ => (results, url :: gotos)
      end
  end.

Definition scrape_products (config : ScrapeConfig) (world : World)
    (product_urls : list str) : list ProductRecord * list str :=
  scrape_each config world (slice_to (max_products config) product_urls).

(** *** The priority chain of section 4.7 as the specification words it,
    for comparison with [_scrape_product]: DOM text, then structured data,
    then the button probe. *)
Definition spec_availability (config : ScrapeConfig) (dom : Dom)
    (json_ld : fields) : option str :=
  match dom_availability config dom with
  | Some a => Some a
  | None =>
      match field json_ld "availability" with
      | Some (c :: a) => Some (c :: a)
      | _ => probe_buttons dom ADD_TO_CART_SELECTORS
      end
  end.

(** The availability the code computes: DOM text, then the button probe,
    then the structured data. *)
Definition code_availability (config : ScrapeConfig) (dom : Dom)
    (json_ld : fields) : option str :=
  match dom_availability config dom with
  | Some a => Some a
  | None =>
      match probe_buttons dom ADD_TO_CART_SELECTORS with
      | Some a => Some a
      | None => field json_ld "availability"
      end
  end.

(** *** Example pages *)

Definition element (text : str) : Element :=
  {| inner_text := text; href := None; is_disabled := Some false |}.

Definition one_page_world (dom : Dom) : World :=
  {| goto := fun _ => Some {| snapshot := fun _ => dom |};
     scroll_attempts := fun _ => 2%nat;
     request_get := fun _ => TransportError |}.

Definition shop : ScrapeConfig :=
  Config.make "shop" "https://shop.example" "https://shop.example/search?q={query}".

Definition product_ld (availability : str) : json :=
  JDict [("@type" : str, JStr "Product");
         ("offers" : str, JDict [("availability" : str, JStr availability)])].

(** No availability element, an enabled "Add to Cart" button, and
    structured data that says out of stock. *)
Definition button_page : Dom :=
  {| locator := fun sel =>
       if eqb sel "h1" then [element "Linen Shirt"]
       else if eqb sel "button:has-text('Add to Cart')" then [element "Add to Cart"]
       else [];
     ld_json := [Some (product_ld "https://schema.org/OutOfStock")] |}.

(** An availability element reading "Sold Out" and structured data that
    says in stock. *)
Definition sold_out_page : Dom :=
  {| locator := fun sel =>
       if eqb sel "h1" then [element "Linen Shirt"]
       else if eqb sel "[class*='stock']" then [element "Sold Out"]
       else [];
     ld_json := [Some (product_ld "https://schema.org/InStock")] |}.

(** A page with a title and nothing else. *)
Definition bare_page : Dom :=
  {| locator := fun sel => if eqb sel "h1" then [element "Linen Shirt"] else [];
     ld_json := [] |}.

(** A page with a title whose structured data gives the price in a list
    of price specifications, as schema.org allows. *)
Definition price_list_page : Dom :=
  {| locator := fun sel => if eqb sel "h1" then [element "Linen Shirt"] else [];
     ld_json :=
       [Some (JDict
                [("@type" : str, JStr "Product");
                 ("name" : str, JStr "Linen Shirt");
                 ("offers" : str,
                  JDict
                    [("@type" : str, JStr "Offer");
                     ("priceSpecification" : str,
                      JList
                        [JDict [("@type" : str, JStr "UnitPriceSpecification");
                                ("price" : str, JStr "49.00")]])])])] |}.

Definition product_url : str := "https://shop.example/products/linen-shirt".

Definition ld_fields (dom : Dom) : fields :=
  match _extract_json_ld dom with
  | Ret fs => fs
  | Raise => []
  end.

End Extract.

(** ** [app/scrapers/base.py]: the pagination strategies *)

Module Crawl.
Import PyStr Url UrlOps Text Json Browser Config.

Definition PAGINATION_SELECTORS : list str :=
  map list_ascii_of_string
    ["a[rel='next']"; "a[aria-label*='Next']"; "a:has-text('Next')";
     "button:has-text('Next')"]%string.

Definition SHOPIFY_PRODUCTS_LIMIT : Z := 250.

(** The state of the generic crawl at the head of its loop.  [nav_log]
    records the [page.goto] calls made so far, oldest first. *)
Record CrawlState := {
  collected : list str;
  seen_products : gset str;
  visited_pages : gset str;
  current_url : option str;
  pending_fallback : option str;
  page_index : Z;
  nav_log : list str;
}.

(** What one turn of the loop decides. *)
Inductive step_result : Type :=
  | Continue (s : CrawlState)
  | Done (s : CrawlState).

(** What [_crawl_catalog_urls] returns, with the pages it opened. *)
Record CrawlResult := {
  urls : list str;
  navigations : list str;
}.

Section crawl.
Context `{HostChecks}.

(** [urllib.parse.urljoin]; [None] when it raises. *)
Variable urljoin : str -> str -> option str.
Variable config : ScrapeConfig.
Variable world : World.

Definition budget_reached (collected : list str) : bool :=
  max_products config <=? Z.of_nat (length collected).

(** *** [_collect_product_urls] *)
Fixpoint add_hrefs (hrefs : list str) (urls : list str) : outcome (list str) :=
  match hrefs with
  | [] => Ret urls
  | href :: rest =>
      absolute ← of_option (urljoin (base_url config) href);
      if _is_product_url absolute && negb (bool_decide (absolute ∈ urls))
      then add_hrefs rest (urls ++ [absolute])
      else add_hrefs rest urls
  end.

(** [elements.map(el => el.getAttribute('href')).filter(Boolean)] *)
Definition hrefs_of (elements : list Element) : list str :=
  omap (fun e => match href e with
                 | Some (c :: h) => Some (c :: h)
                 | _ => None
                 end) elements.

Fixpoint collect_from (dom : Dom) (selectors : list str) (urls : list str)
  : outcome (list str) :=
  match selectors with
  | [] => Ret urls
  | selector :: rest =>
      match locator dom selector with
      | [] => collect_from dom rest urls
      | elements =>
          urls ← add_hrefs (hrefs_of elements) urls;
          collect_from dom rest urls
      end
  end.

Definition _collect_product_urls (dom : Dom) : outcome (list str) :=
  collect_from dom (product_link_selectors config) [].

(** *** [_maybe_scroll_for_more]: the best list found, and the number of
    scrolls made. *)
Fixpoint scroll_loop (page : Page) (scrolls attempts : nat) (best_urls : list str)
  : outcome (list str * nat) :=
  match attempts with
  | O => Ret (best_urls, scrolls)
  | S attempts' =>
      let scrolls := S scrolls in
      fresh_urls ← _collect_product_urls (snapshot page scrolls);
      let best_urls :=
        if (length best_urls <? length fresh_urls)%nat then fresh_urls
        else best_urls in
      if budget_reached best_urls then Ret (best_urls, scrolls)
      else scroll_loop page scrolls attempts' best_urls
  end.

Definition _maybe_scroll_for_more (page : Page) (attempts : nat)
    (product_urls : list str) : outcome (list str * nat) :=
  scroll_loop page 0 attempts product_urls.

(** *** The [for url in product_urls] loop of the generic crawl *)
Fixpoint absorb (product_urls : list str) (collected : list str)
    (seen_products : gset str) (new_count : Z)
  : outcome (list str * gset str * Z) :=
  match product_urls with
  | [] => Ret (collected, seen_products, new_count)
  | url :: rest =>
      normalized ← of_option (_normalize_product_url url);
      if bool_decide (normalized ∈ seen_products)
      then absorb rest collected seen_products new_count
      else
        let seen_products := {[normalized]} ∪ seen_products in
        let collected := collected ++ [url] in
        let new_count := new_count + 1 in
        if budget_reached collected then Ret (collected, seen_products, new_count)
        else absorb rest collected seen_products new_count
  end.

(** [config.pagination_param or DEFAULT_PAGINATION_PARAM] *)
Definition pagination_param_or_default : str :=
  match pagination_param config with
  | Some (c :: p) => c :: p
  | _ => DEFAULT_PAGINATION_PARAM
  end.

(** The selectors [_find_next_page_url] tries, in order. *)
Definition next_selectors : list str :=
  match pagination_selector config with
  | Some (c :: s) => [c :: s]
  | _ => []
  end ++ PAGINATION_SELECTORS.

(** The first selector with a match whose first element has an [href]. *)
Fixpoint structural_href (dom : Dom) (selectors : list str) : option str :=
  match selectors with
  | [] => None
  | selector :: rest =>
      match selector, locator dom selector with
      | [], _ => structural_href dom rest
      | _, [] => structural_href dom rest
      | _, first :: _ =>
          match href first with
          | Some (c :: h) => Some (c :: h)
          | _ => structural_href dom rest
          end
      end
  end.

(** *** [_find_next_page_url] *)
Definition _find_next_page_url (dom : Dom) (current_url : str) (next_page : Z)
  : outcome (option str * option str) :=
  match structural_href dom next_selectors with
  | Some href =>
      next_url ← of_option (urljoin (base_url config) href);
      fallback_url ← of_option
        (_with_pagination_param current_url pagination_param_or_default next_page);
      Ret (Some next_url, Some fallback_url)
  | None =>
      guess ← of_option
        (_with_pagination_param current_url pagination_param_or_default next_page);
      Ret (Some guess, None)
  end.

(** The end of a turn of the loop, after the page is closed: retry the
    pending fallback, advance to the next URL, or stop. *)
Definition advance (s : CrawlState) (productive : bool)
    (next_url fallback_url : option str) : step_result :=
  if negb productive then
    if Text.truthy (pending_fallback s)
       && negb (bool_decide (default [] (pending_fallback s) ∈ visited_pages s))
    then Continue {| collected := collected s;
                     seen_products := seen_products s;
                     visited_pages := visited_pages s;
                     current_url := pending_fallback s;
                     pending_fallback := None;
                     page_index := page_index s + 1;
                     nav_log := nav_log s |}
    else Done s
  else
    let pending :=
      if Text.truthy fallback_url && Text.truthy next_url
         && negb (bool_decide (fallback_url = next_url))
      then fallback_url else None in
    let s := {| collected := collected s;
                seen_products := seen_products s;
                visited_pages := visited_pages s;
                current_url := current_url s;
                pending_fallback := pending;
                page_index := page_index s;
                nav_log := nav_log s |} in
    if negb (Text.truthy next_url)
       || bool_decide (default [] next_url ∈ visited_pages s)
    then Done s
    else Continue {| collected := collected s;
                     seen_products := seen_products s;
                     visited_pages := visited_pages s;
                     current_url := next_url;
                     pending_fallback := pending_fallback s;
                     page_index := page_index s + 1;
                     nav_log := nav_log s |}.

(** One turn of the [while] loop for the page [current], once the loop
    test has passed. *)
Definition crawl_page (s : CrawlState) (current : str) : outcome step_result :=
  if bool_decide (current ∈ visited_pages s) then Ret (Done s)
  else
    let visited := {[current]} ∪ visited_pages s in
    let log := nav_log s ++ [current] in
    page ← of_option (goto world current);
    product_urls ← _collect_product_urls (snapshot page 0);
    '(product_urls, scrolls) ←
      _maybe_scroll_for_more page (scroll_attempts world current) product_urls;
    '(collected, seen, new_count) ←
      absorb product_urls (collected s) (seen_products s) 0;
    '(next_url, fallback_url) ←
      _find_next_page_url (snapshot page scrolls) current (page_index s + 1);
    let s := {| collected := collected;
                seen_products := seen;
                visited_pages := visited;
                current_url := current_url s;
                pending_fallback := pending_fallback s;
                page_index := page_index s;
                nav_log := log |} in
    let productive :=
      match product_urls with
      | [] => false
      | _ => negb (new_count =? 0)
      end in
    Ret (advance s productive next_url fallback_url).

(** The [while current_url and len(collected) < max_products] loop.
    [None] means that the fuel ran out. *)
Fixpoint crawl_loop (fuel : nat) (s : CrawlState) : option (outcome CrawlState) :=
  match fuel with
  | O => None
  | S fuel' =>
      match current_url s with
      | Some (c :: u) =>
          if budget_reached (collected s) then Some (Ret s)
          else
            match crawl_page s (c :: u) with
            | Raise => Some Raise
            | Ret (Done s') => Some (Ret s')
            | Ret (Continue s') => crawl_loop fuel' s'
            end
      | _ => Some (Ret s)
      end
  end.

Definition initial (start_url : str) : CrawlState :=
  {| collected := [];
     seen_products := ∅;
     visited_pages := ∅;
     current_url := Some start_url;
     pending_fallback := None;
     page_index := 1;
     nav_log := [] |}.

(** The state at the head of the loop after [n] turns that continued, when
    the loop gets that far. *)
Fixpoint after_turns (n : nat) (s : CrawlState) : option CrawlState :=
  match n with
  | O => Some s
  | S n' =>
      match current_url s with
      | Some (c :: u) =>
          if budget_reached (collected s) then None
          else
            match crawl_page s (c :: u) with
            | Ret (Continue s') => after_turns n' s'
            | _ => None
            end
      | _ => None
      end
  end.

(** The generic DOM crawl: the second half of [_crawl_catalog_urls]. *)
Definition crawl_generic (fuel : nat) (start_url : str)
  : option (outcome CrawlState) :=
  crawl_loop fuel (initial start_url).

(** *** [_crawl_shopify_catalog_urls] *)

(** [for product in products]: the items of a list, the keys of a [dict],
    the characters of a string; anything else is not iterable. *)
Definition items_of (products : json) : outcome (list json) :=
  match products with
  | JList l => Ret l
  | JDict d => Ret (map (fun kv => JStr (fst kv)) d)
  | JStr s => Ret (map (fun c => JStr [c]) s)
  | _ => Raise
  end.

(** [payload.get("products") if isinstance(payload, dict) else None] *)
Definition products_of (payload : json) : json :=
  match payload with
  | JDict d => lookup_key d "products"
  | _ => JNull
  end.

(** [product.get("handle") if isinstance(product, dict) else None] *)
Definition handle_of (product : json) : json :=
  match product with
  | JDict d => lookup_key d "handle"
  | _ => JNull
  end.

Fixpoint absorb_handles (products : list json) (collected : list str)
    (seen_products : gset str) : outcome (list str * gset str) :=
  match products with
  | [] => Ret (collected, seen_products)
  | product :: rest =>
      let handle := handle_of product in
      if negb (truthy handle) then absorb_handles rest collected seen_products
      else
        url ← of_option (urljoin (base_url config) ("/products/" ++ to_str handle));
        normalized ← of_option (_normalize_product_url url);
        let '(collected, seen_products) :=
          if bool_decide (normalized ∈ seen_products)
          then (collected, seen_products)
          else (collected ++ [normalized], {[normalized]} ∪ seen_products) in
        if budget_reached collected then Ret (collected, seen_products)
        else absorb_handles rest collected seen_products
  end.

Definition api_url (base : str) (page_index : Z) : str :=
  base ++ "/products.json?limit=" ++ str_of_int SHOPIFY_PRODUCTS_LIMIT
       ++ "&page=" ++ str_of_int page_index.

(** The [while len(collected) < max_products] loop. *)
Fixpoint shopify_loop (fuel : nat) (base : str) (collected : list str)
    (seen_products : gset str) (page_index : Z) : option (outcome (list str)) :=
  match fuel with
  | O => None
  | S fuel' =>
      if budget_reached collected then Some (Ret collected)
      else
        match request_get world (api_url base page_index) with
        | TransportError => Some (Ret [])
        | Response status body =>
            if 400 <=? status then Some (Ret [])
            else
              match body with
              | None => Some (Ret [])
              | Some payload =>
                  let products := products_of payload in
                  if negb (truthy products) then Some (Ret collected)
                  else
                    match items_of products
                          ≫= (fun items => absorb_handles items collected seen_products)
                    with
                    | Raise => Some Raise
                    | Ret (collected, seen_products) =>
                        shopify_loop fuel' base collected seen_products
                          (page_index + 1)
                    end
              end
        end
  end.

(** The state at the head of the fast-path loop after [n] pages that were
    fetched and absorbed, when the loop gets that far. *)
Fixpoint shopify_head (n : nat) (base : str) (collected : list str)
    (seen_products : gset str) (page_index : Z)
  : option (list str * gset str * Z) :=
  match n with
  | O => Some (collected, seen_products, page_index)
  | S n' =>
      if budget_reached collected then None
      else
        match request_get world (api_url base page_index) with
        | Response status (Some payload) =>
            if (400 <=? status) || negb (truthy (products_of payload)) then None
            else
              match items_of (products_of payload)
                    ≫= (fun items => absorb_handles items collected seen_products)
              with
              | Ret (collected, seen_products) =>
                  shopify_head n' base collected seen_products (page_index + 1)
              | Raise => None
              end
        | _ => None
        end
  end.


(** [path.rstrip("/")] *)
Definition rstrip_slash (path : str) : str :=
  rev (drop_while (fun c => eqb_char c "/") (rev path)).

Definition _crawl_shopify_catalog_urls (fuel : nat) (start_url : str)
  : option (outcome (list str)) :=
  if negb (contains "/collections/" start_url) then Some (Ret [])
  else
    match urlparse start_url with
    | None => Some Raise
    | Some parsed =>
        match rstrip_slash (path parsed) with
        | [] => Some (Ret [])
        | path =>
            let base := scheme parsed ++ "://" ++ netloc parsed ++ path in
            shopify_loop fuel base [] ∅ 1
        end
    end.

(** *** [_crawl_catalog_urls] *)
Definition _crawl_catalog_urls (fuel : nat) (start_url : str)
  : option (outcome CrawlResult) :=
  match _crawl_shopify_catalog_urls fuel start_url with
  | None => None
  | Some Raise => Some Raise
  | Some (Ret (u :: shopify_urls)) =>
      Some (Ret {| urls := u :: shopify_urls; navigations := [] |})
  | Some (Ret []) =>
      match crawl_generic fuel start_url with
      | None => None
      | Some Raise => Some Raise
      | Some (Ret s) =>
          Some (Ret {| urls := collected s; navigations := nav_log s |})
      end
  end.

End crawl.

(** *** The properties of a crawl *)

Section properties.
Context `{HostChecks}.

(** No two entries of the list normalize to the same value. *)
Definition unique_under_normalization (l : list str) : Prop :=
  forall i j u v n,
    l !! i = Some u -> l !! j = Some v ->
    _normalize_product_url u = Some n -> _normalize_product_url v = Some n ->
    i = j.

Definition within_budget (config : ScrapeConfig) (l : list str) : Prop :=
  Z.of_nat (length l) <= max_products config.

(** The invariant of the generic crawl: [seen_products] is the set of the
    normalized forms of [collected], which are pairwise distinct. *)
Definition dedup_inv (collected : list str) (seen : gset str) : Prop :=
  exists ns,
    Forall2 (fun u n => _normalize_product_url u = Some n) collected ns
    /\ NoDup ns
    /\ forall n, n ∈ seen <-> n ∈ ns.

(** The states of the generic crawl are related to its log: a page is in
    [visited_pages] exactly when it was opened, and no page was opened
    twice. *)
Definition log_inv (s : CrawlState) : Prop :=
  NoDup (nav_log s) /\ forall u, u ∈ visited_pages s <-> u ∈ nav_log s.

Definition state_of (r : step_result) : CrawlState :=
  match r with
  | Continue s => s
  | Done s => s
  end.

(** The quantity that decreases at every turn of the generic loop that
    continues: twice the room left in the budget, plus one when a fallback
    is pending. *)
Definition room (config : ScrapeConfig) (s : CrawlState) : nat :=
  2 * Z.to_nat (max_products config - Z.of_nat (length (collected s)))
  + (if Text.truthy (pending_fallback s) then 1 else 0).

(** The invariant of the fast path: [collected] holds the normalized forms
    of product URLs joined from handles, pairwise distinct, and
    [seen_products] is the set of them. *)
Definition shopify_inv (urljoin : str -> str -> option str)
    (config : ScrapeConfig) (collected : list str) (seen : gset str) : Prop :=
  NoDup collected
  /\ (forall n, n ∈ seen <-> n ∈ collected)
  /\ Forall (fun n => exists handle u,
                urljoin (base_url config) ("/products/" ++ handle) = Some u
                /\ _normalize_product_url u = Some n) collected.

(** The product URLs of the fast path have a network location, as they do
    when [base_url] is an [http] or [https] URL with a host. *)
Definition product_urls_have_netloc (urljoin : str -> str -> option str)
    (config : ScrapeConfig) : Prop :=
  forall handle u p,
    urljoin (base_url config) ("/products/" ++ handle) = Some u ->
    urlparse u = Some p ->
    netloc p <> [].

End properties.

End Crawl.

(** ** Example sites *)

Module Sites.
Import PyStr Url UrlOps Text Json Browser Config Extract Crawl.

(** Every bracketed host and every non-ASCII network location passes. *)
Definition permissive : HostChecks :=
  {| bracketed_host_ok := fun _ => true; nfkc_netloc_ok := fun _ => true |}.

(** [urljoin] where the base is a bare origin and the reference is an
    absolute URL or an absolute path. *)
Definition join_origin (base href : str) : option str :=
  match href with
  | "/"%char :: _ => Some (base ++ href)
  | _ => Some href
  end.

Definition link (target : str) : Element :=
  {| inner_text := "link"; href := Some target; is_disabled := None |}.

Definition static_page (dom : Dom) : Page := {| snapshot := fun _ => dom |}.

Definition empty_dom : Dom := {| locator := fun _ => []; ld_json := [] |}.

Definition shop_url : str := "https://shop.example/shop".
Definition shirt_url : str := "https://shop.example/products/linen-shirt".

(** A listing with one product link and no "next" element at all. *)
Definition plain_listing : Dom :=
  {| locator := fun sel =>
       if eqb sel "a[href*='/products/']" then [link shirt_url] else [];
     ld_json := [] |}.

(** The same listing with a "next" link that points back to the listing
    itself. *)
Definition looping_listing : Dom :=
  {| locator := fun sel =>
       if eqb sel "a[href*='/products/']" then [link shirt_url]
       else if eqb sel "a[rel='next']" then [link shop_url]
       else [];
     ld_json := [] |}.




(** The configuration [config] with a budget of [n] products. *)
Definition with_max_products (config : ScrapeConfig) (n : Z) : ScrapeConfig :=
  {| Config.name := Config.name config;
     base_url := base_url config;
     search_url := search_url config;
     product_link_selectors := product_link_selectors config;
     name_selectors := name_selectors config;
     price_selectors := price_selectors config;
     size_selectors := size_selectors config;
     availability_selectors := availability_selectors config;
     description_selectors := description_selectors config;
     catalog_url := catalog_url config;
     pagination_selector := pagination_selector config;
     pagination_param := pagination_param config;
     max_products := n |}.

(** A site whose listing is [listing] and whose other pages are empty. *)
Definition site_with (listing : Dom) : World :=
  {| goto := fun url =>
       if eqb url shop_url then Some (static_page listing)
       else Some (static_page empty_dom);
     scroll_attempts := fun _ => 2%nat;
     request_get := fun _ => TransportError |}.

(** A Shopify-style storefront: page 1 of the listing has three products,
    page 2 has none. *)
Definition collection_url : str := "https://shop.example/collections/all".

Definition handle (h : str) : json := JDict [("handle" : str, JStr h)].

Definition listing_page (products : list json) : http_result :=
  Response 200 (Some (JDict [("products" : str, JList products)])).

Definition storefront : World :=
  {| goto := fun _ => Some (static_page plain_listing);
     scroll_attempts := fun _ => 2%nat;
     request_get := fun url =>
       if eqb url "https://shop.example/collections/all/products.json?limit=250&page=1"
       then listing_page [handle "tee"; handle "cap"; handle "tee"; handle "scarf"]
       else listing_page [] |}.

(** The same storefront when the second page of the listing answers 500. *)
Definition failing_storefront : World :=
  {| goto := fun url =>
       if eqb url collection_url then Some (static_page plain_listing)
       else Some (static_page empty_dom);
     scroll_attempts := fun _ => 2%nat;
     request_get := fun url =>
       if eqb url "https://shop.example/collections/all/products.json?limit=250&page=1"
       then listing_page [handle "tee"; handle "cap"]
       else Response 500 None |}.


Definition shop : ScrapeConfig := Extract.shop.

Definition tee_url : str := "https://shop.example/products/tee".
Definition cap_url : str := "https://shop.example/products/cap".
Definition scarf_url : str := "https://shop.example/products/scarf".
Definition shop_page_2 : str := "https://shop.example/shop?page=2".
Definition collection_page_2 : str :=
  "https://shop.example/collections/all?page=2".
Definition collection_base : str := "https://shop.example/collections/all".

(** What a run returned, for display: the collected URLs and the pages
    opened. *)
Definition summary (r : option (outcome CrawlState)) : option (list str * list str) :=
  match r with
  | Some (Ret s) => Some (collected s, nav_log s)
  | _ => None
  end.

Definition result_summary (r : option (outcome CrawlResult))
  : option (list str * list str) :=
  match r with
  | Some (Ret r) => Some (urls r, navigations r)
  | _ => None
  end.

End Sites.

(** ** [app/cache.py]: scan sessions and the scan cache *)

Module Cache.
Import PyStr Extract.

(** *** Python slices

    [slice_index len i] is the position a slice bound [i] denotes in a list
    of length [len]: a negative bound counts from the end, and every bound
    is clamped to the list. *)
Definition slice_index (len : nat) (i : Z) : nat :=
  if i <? 0 then Z.to_nat (Z.of_nat len + i)
  else Nat.min (Z.to_nat i) len.

(** [l[i:]] *)
Definition slice_from {A} (i : Z) (l : list A) : list A :=
  drop (slice_index (length l) i) l.

(** [l[i:j]] *)
Definition slice {A} (i j : Z) (l : list A) : list A :=
  let a := slice_index (length l) i in
  let b := slice_index (length l) j in
  take (b - a) (drop a l).

(** The file system is the table of the files that exist; a CSV file is
    the list of the rows written to it.  The calls [os.makedirs] and [open]
    are taken to succeed. *)
Abbreviation Files := (gmap str (list (list str))).

(** *** [ScanSession]

    [Time] is the type of the readings of [time.time()]; the cache only
    stores them and compares them through [expired] below. *)
Section sessions.
Variable Time : Type.

Record ScanSession := {
  created_at : Time;
  query : str;
  results : list ProductRecord;
  sites_total : Z;
  sites_done : Z;
  status : str;
  logs : list str;
  export_path : option str;
  exported_count : Z;
  estimated_total : Z;
}.

(** [ScanSession(created_at, query, sites_total=sites_total)] *)
Definition new_session (now : Time) (query : str) (sites_total : Z) : ScanSession :=
  {| created_at := now; query := query; results := [];
     sites_total := sites_total; sites_done := 0; status := "running";
     logs := []; export_path := None; exported_count := 0;
     estimated_total := 0 |}.

Definition with_logs (e : ScanSession) (logs : list str) : ScanSession :=
  {| created_at := created_at e; query := query e; results := results e;
     sites_total := sites_total e; sites_done := sites_done e;
     status := status e; logs := logs; export_path := export_path e;
     exported_count := exported_count e;
     estimated_total := estimated_total e |}.

(** [ScanSession.add_log] *)
Definition session_add_log (e : ScanSession) (message : str) : ScanSession :=
  let logs := logs e ++ [message] in
  with_logs e (if (200 <? length logs)%nat then slice_from (-200) logs else logs).

(** *** [ScanCache] *)
Record ScanCache := {
  ttl_seconds : Z;
  _entries : gmap str ScanSession;
}.

Definition with_entries (c : ScanCache) (entries : gmap str ScanSession) : ScanCache :=
  {| ttl_seconds := ttl_seconds c; _entries := entries |}.

(** The body shared by the methods that start with
    [entry = self._entries.get(scan_id); if not entry: return]: the entry,
    when there is one, is updated in place. *)
Definition update (c : ScanCache) (scan_id : str)
    (f : ScanSession -> ScanSession) : ScanCache :=
  match _entries c !! scan_id with
  | None => c
  | Some entry => with_entries c (<[scan_id := f entry]> (_entries c))
  end.

(** [create]; [scan_id] is the draw of [uuid.uuid4().hex]. *)
Definition create (c : ScanCache) (scan_id : str) (now : Time)
    (query : str) (sites_total : Z) : ScanCache :=
  with_entries c (<[scan_id := new_session now query sites_total]> (_entries c)).

(** [time.time() - created_at > ttl_seconds], for the readings [now] and
    [created_at]. *)
Variable expired : Time -> Time -> Z -> bool.

(** [get]: the entry, when it is there and fresh, and the cache after the
    call. *)
Definition get (c : ScanCache) (now : Time) (scan_id : str)
  : option ScanSession * ScanCache :=
  match _entries c !! scan_id with
  | None => (None, c)
  | Some entry =>
      if expired now (created_at entry) (ttl_seconds c)
      then (None, with_entries c (delete scan_id (_entries c)))
      else (Some entry, c)
  end.

(** [add_results] *)
Definition add_results (c : ScanCache) (scan_id : str)
    (new_results : list ProductRecord) : ScanCache :=
  update c scan_id (fun e =>
    {| created_at := created_at e; query := query e;
       results := results e ++ new_results;
       sites_total := sites_total e; sites_done := sites_done e;
       status := status e; logs := logs e; export_path := export_path e;
       exported_count := exported_count e;
       estimated_total := estimated_total e |}).

(** [add_log] *)
Definition add_log (c : ScanCache) (scan_id : str) (message : str) : ScanCache :=
  update c scan_id (fun e => session_add_log e message).

(** [mark_site_done]; [error] is the name of the type of the exception,
    when there is one. *)
Definition mark_site_done (c : ScanCache) (scan_id site_name : str)
    (error : option str) (estimated_count : Z) : ScanCache :=
  update c scan_id (fun e =>
    let e :=
      {| created_at := created_at e; query := query e; results := results e;
         sites_total := sites_total e; sites_done := sites_done e + 1;
         status := status e; logs := logs e; export_path := export_path e;
         exported_count := exported_count e;
         estimated_total := estimated_total e + estimated_count |} in
    match error with
    | Some type_name =>
        session_add_log e (site_name ++ ": failed (" ++ type_name ++ ")")
    | None => session_add_log e (site_name ++ ": completed")
    end).

(** [mark_complete] *)
Definition mark_complete (c : ScanCache) (scan_id : str) : ScanCache :=
  update c scan_id (fun e =>
    session_add_log
      {| created_at := created_at e; query := query e; results := results e;
         sites_total := sites_total e; sites_done := sites_done e;
         status := "complete"; logs := logs e; export_path := export_path e;
         exported_count := exported_count e;
         estimated_total := estimated_total e |}
      "scan: complete").

(** *** [export_csv] *)

(** [os.path.join(a, b)] on POSIX *)
Definition path_join (a b : str) : str :=
  if startswith "/" b then b
  else match last a with
       | None => b
       | Some c => if eqb_char c "/" then a ++ b else a ++ "/" ++ b
       end.

Definition CSV_HEADER : list str :=
  ["site" : str; "name" : str; "price" : str; "url" : str; "sizes" : str;
   "availability" : str; "description" : str].

(** The row written for a result: [row.get(key) or ""], and the sizes
    joined by a comma and a space. *)
Definition csv_row (row : ProductRecord) : list str :=
  [site row; name row; default [] (price row); url row;
   Text.join ", " (sizes row); default [] (availability row);
   default [] (description row)].

Definition export_csv (c : ScanCache) (files : Files) (scan_id export_dir : str)
  : option str * ScanCache * Files :=
  match _entries c !! scan_id with
  | None => (None, c, files)
  | Some entry =>
      let path :=
        match export_path entry with
        | Some path => path
        | None => path_join export_dir ("scan_" ++ scan_id ++ ".csv")
        end in
      let store count :=
        with_entries c
          (<[scan_id :=
               {| created_at := created_at entry; query := query entry;
                  results := results entry;
                  sites_total := sites_total entry;
                  sites_done := sites_done entry; status := status entry;
                  logs := logs entry; export_path := Some path;
                  exported_count := count;
                  estimated_total := estimated_total entry |}]> (_entries c)) in
      let write_header := negb (bool_decide (is_Some (files !! path))) in
      let new_rows := slice_from (exported_count entry) (results entry) in
      match new_rows, files !! path with
      | [], Some _ => (Some path, store (exported_count entry), files)
      | _, _ =>
          let written :=
            (if write_header then [CSV_HEADER] else []) ++ map csv_row new_rows in
          (Some path, store (Z.of_nat (length (results entry))),
           <[path := default [] (files !! path) ++ written]> files)
      end
  end.

(** *** Sequences of calls

    A call of a method of the cache other than [create]. *)
Inductive call : Type :=
  | Get (now : Time) (scan_id : str)
  | AddResults (scan_id : str) (new_results : list ProductRecord)
  | AddLog (scan_id message : str)
  | MarkSiteDone (scan_id site_name : str) (error : option str)
      (estimated_count : Z)
  | MarkComplete (scan_id : str)
  | ExportCsv (scan_id export_dir : str).

Definition call_scan_id (c : call) : str :=
  match c with
  | Get _ scan_id | AddResults scan_id _ | AddLog scan_id _
  | MarkSiteDone scan_id _ _ _ | MarkComplete scan_id | ExportCsv scan_id _ =>
      scan_id
  end.

Definition run_call (state : ScanCache * Files) (c : call) : ScanCache * Files :=
  let '(cache, files) := state in
  match c with
  | Get now scan_id => (snd (get cache now scan_id), files)
  | AddResults scan_id new_results => (add_results cache scan_id new_results, files)
  | AddLog scan_id message => (add_log cache scan_id message, files)
  | MarkSiteDone scan_id site_name error estimated_count =>
      (mark_site_done cache scan_id site_name error estimated_count, files)
  | MarkComplete scan_id => (mark_complete cache scan_id, files)
  | ExportCsv scan_id export_dir =>
      let '(_, cache, files) := export_csv cache files scan_id export_dir in
      (cache, files)
  end.

Definition run_calls (state : ScanCache * Files) (calls : list call)
  : ScanCache * Files :=
  foldl run_call state calls.

(** The results that the calls add to the scan [scan_id], in order. *)
Definition added_results (scan_id : str) (calls : list call) : list ProductRecord :=
  flat_map (fun c =>
              match c with
              | AddResults id new_results =>
                  if eqb id scan_id then new_results else []
              | _ => []
              end) calls.

(** The calls among which the export of the scan [scan_id] to the
    directory [export_dir] is followed: no [get], which can drop the scan,
    and no export of another scan or to another directory. *)
Definition during_export (scan_id export_dir : str) (c : call) : Prop :=
  match c with
  | Get _ _ => False
  | ExportCsv id dir => id = scan_id /\ dir = export_dir
  | _ => True
  end.

(** What holds of the entry of the scan and of its file between the
    calls of an export that is followed: before the first export the file
    does not exist; afterwards it holds the header and the rows of the
    first [exported_count] results. *)
Definition export_inv (scan_id export_dir : str)
    (state : ScanCache * Files) (rs : list ProductRecord) : Prop :=
  let export_file := path_join export_dir ("scan_" ++ scan_id ++ ".csv") in
  exists e,
    _entries (fst state) !! scan_id = Some e
    /\ results e = rs
    /\ ((export_path e = None /\ exported_count e = 0
         /\ snd state !! export_file = None)
        \/ (export_path e = Some export_file
            /\ exists k : nat,
                 exported_count e = Z.of_nat k /\ (k <= length rs)%nat
                 /\ snd state !! export_file
                    = Some (CSV_HEADER :: map csv_row (take k rs)))).

End sessions.

Arguments created_at {Time} _.
Arguments query {Time} _.
Arguments results {Time} _.
Arguments sites_total {Time} _.
Arguments sites_done {Time} _.
Arguments status {Time} _.
Arguments logs {Time} _.
Arguments export_path {Time} _.
Arguments exported_count {Time} _.
Arguments estimated_total {Time} _.
Arguments ttl_seconds {Time} _.
Arguments _entries {Time} _.
Arguments session_add_log {Time} _ _.
Arguments new_session {Time} _ _ _.
Arguments update {Time} _ _ _.
Arguments create {Time} _ _ _ _ _.
Arguments get {Time} _ _ _ _.
Arguments add_results {Time} _ _ _.
Arguments add_log {Time} _ _ _.
Arguments mark_site_done {Time} _ _ _ _ _.
Arguments mark_complete {Time} _ _.
Arguments export_csv {Time} _ _ _ _.
Arguments Get {Time} _ _.
Arguments AddResults {Time} _ _.
Arguments AddLog {Time} _ _.
Arguments MarkSiteDone {Time} _ _ _ _.
Arguments MarkComplete {Time} _.
Arguments ExportCsv {Time} _ _.
Arguments run_call {Time} _ _ _.
Arguments call_scan_id {Time} _.
Arguments run_calls {Time} _ _ _.
Arguments added_results {Time} _ _.
Arguments during_export {Time} _ _ _.
Arguments export_inv {Time} _ _ _ _.

End Cache.

(** ** [app/main.py]: paging through the results of a scan *)

Module Api.
Import PyStr Cursor Extract Cache.

(** What an endpoint does: it answers, or raises [HTTPException] with a
    status code and a detail. *)
Inductive response (A : Type) : Type :=
  | Answer (a : A)
  | HttpError (status_code : Z) (detail : str).
Arguments Answer {A} a.
Arguments HttpError {A} status_code detail.

(** The characters of URL-safe base64: letters, digits, [-], [_] and the
    pad [=]. *)
Definition is_url_safe (c : ascii) : bool :=
  is_alpha c || is_digit c || has_char c "-_=".

(** [_decode_cursor] *)
Definition _decode_cursor (cursor : str) : response (str * Z) :=
  match decode_cursor cursor with
  | Some r => Answer r
  | None => HttpError 400 "Invalid cursor"
  end.

(** [_paginate] *)
Definition _paginate {A} (results : list A) (scan_id : str) (offset page_size : Z)
  : list A * option str :=
  let start := Z.max offset 0 in
  let end_ := start + page_size in
  let page_items := slice start end_ results in
  let next_cursor :=
    if end_ <? Z.of_nat (length results)
    then Some (encode_cursor scan_id end_) else None in
  (page_items, next_cursor).

(** The offset [scan_status] reads from its [cursor] argument. *)
Definition cursor_offset (scan_id : str) (cursor : option str) : response Z :=
  match cursor with
  | Some (c :: cursor) =>
      match _decode_cursor (c :: cursor) with
      | HttpError code detail => HttpError code detail
      | Answer (cursor_scan_id, offset) =>
          if eqb cursor_scan_id scan_id then Answer offset
          else HttpError 400 "Cursor does not match scan"
      end
  | _ => Answer 0
  end.

(** [ScanStatusResponse] *)
Record ScanStatusResponse := {
  items : list ProductRecord;
  next_cursor : option str;
  total : Z;
  status_sites_total : Z;
  status_sites_done : Z;
  status_text : str;
  status_logs : list str;
}.

Section endpoints.
Variable Time : Type.
Variable expired : Time -> Time -> Z -> bool.

(** [scan_status]: the response, and the cache after the call. *)
Definition scan_status (cache : ScanCache Time) (now : Time) (scan_id : str)
    (page_size : Z) (cursor : option str)
  : response ScanStatusResponse * ScanCache Time :=
  match get expired cache now scan_id with
  | (None, cache) => (HttpError 410 "Scan expired", cache)
  | (Some entry, cache) =>
      match cursor_offset scan_id cursor with
      | HttpError code detail => (HttpError code detail, cache)
      | Answer offset =>
          let '(items, next_cursor) :=
            _paginate (results entry) scan_id offset page_size in
          (Answer {| items := items;
                     next_cursor := next_cursor;
                     total := Z.of_nat (length (results entry));
                     status_sites_total := sites_total entry;
                     status_sites_done := sites_done entry;
                     status_text := status entry;
                     status_logs := slice_from (-50) (logs entry) |},
           cache)
      end
  end.

(** A client that reads a scan to its end: it asks for a page, appends the
    items and asks again with the cursor it was given, until there is no
    cursor.  [None] when the fuel runs out, that is when more than [fuel]
    pages are read. *)
Fixpoint read_all (fuel : nat) (cache : ScanCache Time) (now : Time)
    (scan_id : str) (page_size : Z) (cursor : option str)
  : option (response (list ProductRecord)) :=
  match fuel with
  | O => None
  | S fuel' =>
      match scan_status cache now scan_id page_size cursor with
      | (HttpError code detail, _) => Some (HttpError code detail)
      | (Answer page, cache) =>
          match next_cursor page with
          | None => Some (Answer (items page))
          | Some next =>
              match read_all fuel' cache now scan_id page_size (Some next) with
              | Some (Answer rest) => Some (Answer (items page ++ rest))
              | other => other
              end
          end
      end
  end.

End endpoints.

Arguments scan_status {Time} _ _ _ _ _ _.
Arguments read_all {Time} _ _ _ _ _ _ _.

End Api.

(** ** [app/scrapers/base.py]: [search], [crawl_catalog] and the discovery
    of the catalog *)

Module Catalog.
Import PyStr Url UrlOps Text Json Browser Config Extract Crawl.

Definition CATALOG_PATHS : list str :=
  map list_ascii_of_string
    ["/collections/all"; "/collections"; "/shop"; "/all"; "/products"]%string.

(** [self.config.catalog_url = candidate] *)
Definition with_catalog_url (config : ScrapeConfig) (candidate : str)
  : ScrapeConfig :=
  {| Config.name := Config.name config;
     base_url := base_url config;
     search_url := search_url config;
     product_link_selectors := product_link_selectors config;
     name_selectors := name_selectors config;
     price_selectors := price_selectors config;
     size_selectors := size_selectors config;
     availability_selectors := availability_selectors config;
     description_selectors := description_selectors config;
     catalog_url := Some candidate;
     pagination_selector := pagination_selector config;
     pagination_param := pagination_param config;
     max_products := max_products config |}.

Section catalog.
Context `{HostChecks}.

(** [urllib.parse.urljoin], and [template.format(query=value)]; [None]
    when they raise. *)
Variable urljoin : str -> str -> option str.
Variable format_query : str -> str -> option str.
Variable world : World.

(** [[urljoin(base_url, path) for path in CATALOG_PATHS]] *)
Fixpoint join_all (base : str) (paths : list str) : outcome (list str) :=
  match paths with
  | [] => Ret []
  | path :: rest =>
      candidate ← of_option (urljoin base path);
      candidates ← join_all base rest;
      Ret (candidate :: candidates)
  end.

(** The loop over the candidates: the candidate found, if any, and the
    [page.goto] calls made.  A candidate whose page does not load is
    skipped. *)
Fixpoint try_candidates (config : ScrapeConfig) (candidates : list str)
  : outcome (option str * list str) :=
  match candidates with
  | [] => Ret (None, [])
  | candidate :: rest =>
      match goto world candidate with
      | None =>
          '(found, gotos) ← try_candidates config rest;
          Ret (found, candidate :: gotos)
      | Some page =>
          product_urls ← _collect_product_urls urljoin config (snapshot page 0);
          match product_urls with
          | [] =>
              '(found, gotos) ← try_candidates config rest;
              Ret (found, candidate :: gotos)
          | _ => Ret (Some candidate, [candidate])
          end
      end
  end.

(** [_discover_catalog_url]: the catalog URL, the configuration after the
    call and the [page.goto] calls made. *)
Definition _discover_catalog_url (config : ScrapeConfig)
  : outcome (option str * ScrapeConfig * list str) :=
  match catalog_url config with
  | Some (c :: u) => Ret (Some (c :: u), config, [])
  | _ =>
      candidates ← join_all (base_url config) CATALOG_PATHS;
      '(found, gotos) ← try_candidates config candidates;
      match found with
      | Some candidate => Ret (found, with_catalog_url config candidate, gotos)
      | None => Ret (None, config, gotos)
      end
  end.

(** [search]: the records, and the [page.goto] calls made. *)
Definition search (config : ScrapeConfig) (query : str)
  : outcome (list ProductRecord * list str) :=
  search_url ← of_option (format_query (search_url config) (quote_plus query));
  page ← of_option (goto world search_url);
  product_urls ← _collect_product_urls urljoin config (snapshot page 0);
  let '(results, gotos) := scrape_products config world product_urls in
  Ret (results, search_url :: gotos).

(** [crawl_catalog]: the records, and the [page.goto] calls made; the
    outer [None] means that the fuel of the crawl ran out. *)
Definition crawl_catalog (fuel : nat) (config : ScrapeConfig)
  : option (outcome (list ProductRecord * list str)) :=
  match _discover_catalog_url config with
  | Raise => Some Raise
  | Ret (found, config, discovery) =>
      match found with
      | Some (c :: u) =>
          match _crawl_catalog_urls urljoin config world fuel (c :: u) with
          | None => None
          | Some Raise => Some Raise
          | Some (Ret crawl) =>
              let '(results, gotos) :=
                scrape_products config world (urls crawl) in
              Some (Ret (results, discovery ++ navigations crawl ++ gotos))
          end
      | _ => Some (Ret ([], discovery))
      end
  end.

(** A candidate whose page loads and shows at least one product link, and
    one that [_discover_catalog_url] passes over. *)
Definition has_product_links (config : ScrapeConfig) (candidate : str) : Prop :=
  exists page first others,
    goto world candidate = Some page
    /\ _collect_product_urls urljoin config (snapshot page 0)
       = Ret (first :: others).

Definition passed_over (config : ScrapeConfig) (candidate : str) : Prop :=
  goto world candidate = None
  \/ exists page,
       goto world candidate = Some page
       /\ _collect_product_urls urljoin config (snapshot page 0) = Ret [].

(** The links of a page that [_collect_product_urls] can return: the
    [href] of an element that a product-link selector matches, joined to
    [base_url], when the result is a product URL. *)
Definition product_link (config : ScrapeConfig) (dom : Dom) (url : str) : Prop :=
  _is_product_url url = true
  /\ exists selector element c h,
       selector ∈ product_link_selectors config
       /\ element ∈ locator dom selector
       /\ href element = Some (c :: h)
       /\ urljoin (base_url config) (c :: h) = Some url.

(** The products of a page of the listing bring nothing new: each has no
    handle, or a handle whose normalized product URL has been seen. *)
Definition nothing_new (config : ScrapeConfig) (seen : gset str)
    (products : list json) : Prop :=
  Forall (fun product =>
            Json.truthy (handle_of product) = false
            \/ exists url normalized,
                 urljoin (base_url config)
                   ("/products/" ++ to_str (handle_of product)) = Some url
                 /\ _normalize_product_url url = Some normalized
                 /\ normalized ∈ seen) products.

End catalog.

End Catalog.

(** ** Normal forms of cleaned text *)

Module TextForms.
Import PyStr.

(** The text with every run of white space replaced by one space;
    [after_space] says that the character before was white space. *)
Fixpoint squeeze (after_space : bool) (s : str) : str :=
  match s with
  | [] => []
  | c :: s' =>
      if is_space c then
        if after_space then squeeze true s' else " "%char :: squeeze true s'
      else c :: squeeze false s'
  end.

(** Whether the only white space in [s] is single spaces between other
    characters, when the character before [s] was white space
    ([after_space]) or not.  With [after_space = true] the text is not
    empty and neither starts nor ends with a space. *)
Fixpoint single_spaced (after_space : bool) (s : str) : bool :=
  match s with
  | [] => negb after_space
  | c :: s' =>
      if is_space c then
        eqb_char c " " && negb after_space && single_spaced true s'
      else single_spaced false s'
  end.

Definition is_nil {A} (l : list A) : bool :=
  match l with [] => true | _ => false end.

(** The characters of a text that are not white space. *)
Definition visible (s : str) : str := List.filter (fun c => negb (is_space c)) s.

(** The characters after which [SENTENCE_END_REGEX] splits. *)
Definition is_end (c : ascii) : bool :=
  eqb_char c "." || eqb_char c "!" || eqb_char c "?".

Definition is_end_opt (c : option ascii) : bool :=
  match c with Some c => is_end c | None => false end.

Definition ends_with_end (part : str) : bool := is_end_opt (last part).

(** [P] holds of every element of the list but the last. *)
Fixpoint all_but_last {A} (P : A -> Prop) (l : list A) : Prop :=
  match l with
  | [] => True
  | x :: l' =>
      match l' with
      | [] => True
      | _ => P x /\ all_but_last P l'
      end
  end.

(** A phrase that cannot lie across the end of a sentence: it is not
    empty, does not start with a space and has none of [.!?]. *)
Definition plain_phrase (w : str) : bool :=
  match w with
  | [] => false
  | c :: _ => negb (eqb_char c " ") && forallb (fun x => negb (is_end x)) w
  end.

End TextForms.

(** ** Example scans *)

Module Demo.
Import PyStr Json Browser Config Extract Crawl Sites Cache Api.

Definition record (product : str) : ProductRecord :=
  {| site := "shop";
     name := product;
     price := Some ("10.00" : str);
     url := "https://shop.example/products/" ++ product;
     sizes := ["S" : str; "M" : str];
     availability := Some ("in_stock" : str);
     description := None |}.

Definition three_results : list ProductRecord :=
  [record "tee"; record "cap"; record "scarf"].

(** A clock that is read as a number of seconds. *)
Definition older_than (now created : Z) (ttl : Z) : bool := ttl <? now - created.

Definition scan_id : str := "3f2a9c".

Definition empty_cache : ScanCache Z := {| ttl_seconds := 900; _entries := ∅ |}.

(** A scan created at time 0 that has received three results. *)
Definition cache_with_results : ScanCache Z :=
  add_results (create empty_cache scan_id 0 "tee" 1) scan_id three_results.

(** A scan that has just been created. *)
Definition new_cache : ScanCache Z := create empty_cache scan_id 0 "tee" 1.

(** Three results arrive, the scan is exported, a fourth result arrives. *)
Definition export_calls : list (call Z) :=
  [AddResults scan_id three_results;
   ExportCsv scan_id "exports";
   AddLog scan_id "shop: completed";
   AddResults scan_id [record "hat"]].

Definition export_file : str := "exports/scan_3f2a9c.csv".

(** *** Example sites *)

(** A shop whose every page is the listing with one product link, except
    the page of that product, which has a title. *)
Definition listing_site : World :=
  {| goto := fun url =>
       if eqb url shirt_url then Some (static_page bare_page)
       else Some (static_page plain_listing);
     scroll_attempts := fun _ => 2%nat;
     request_get := fun _ => TransportError |}.

(** [template.format(query=value)] for a template that ends with
    [{query}] and has no other braces. *)
Definition format_suffix (template value : str) : option str :=
  if startswith (rev "{query}") (rev template)
  then Some (rev (drop 7 (rev template)) ++ value)
  else None.

(** A storefront that answers every page of the listing with the same
    product. *)
Definition repeating_storefront : World :=
  {| goto := fun _ => Some (static_page plain_listing);
     scroll_attempts := fun _ => 2%nat;
     request_get := fun _ => listing_page [handle "tee"] |}.

(** An availability element reading "Currently unavailable" beside a
    disabled "Add to Cart" button. *)
Definition unavailable_page : Dom :=
  {| locator := fun sel =>
       if eqb sel "h1" then [element "Linen Shirt"]
       else if eqb sel "[class*='stock']" then [element "Currently unavailable"]
       else if eqb sel "button:has-text('Add to Cart')" then
         [{| inner_text := "Add to Cart"; href := None;
             is_disabled := Some true |}]
       else [];
     ld_json := [] |}.

End Demo.

(** ** Facts about the string primitives *)

Module PyStrFacts.
Import PyStr.

Lemma code_lt (c : ascii) : (code c < 256)%N.
Proof. apply N_ascii_bounded. Qed.

Lemma ascii_of_code (c : ascii) : ascii_of_N (code c) = c.
Proof. apply ascii_N_embedding. Qed.

Lemma code_of_ascii (n : N) : (n < 256)%N -> code (ascii_of_N n) = n.
Proof. apply N_ascii_embedding. Qed.

Lemma eqb_char_true (a b : ascii) : eqb_char a b = true <-> a = b.
Proof. apply Ascii.eqb_eq. Qed.

Lemma eqb_char_false (a b : ascii) : eqb_char a b = false <-> a <> b.
Proof. apply Ascii.eqb_neq. Qed.

Lemma eqb_char_refl (a : ascii) : eqb_char a a = true.
Proof. apply Ascii.eqb_refl. Qed.

Lemma all256_spec (P : N -> bool) :
  all256 P = true -> forall n, (n < 256)%N -> P n = true.
Proof.
  unfold all256, bytes256. rewrite forallb_forall. intros H n Hn.
  apply H. apply in_map_iff. exists (N.to_nat n). split.
  - apply N2Nat.id.
  - apply in_seq. lia.
Qed.

Lemma all_chars (P : ascii -> bool) :
  all256 (fun n => P (ascii_of_N n)) = true -> forall c, P c = true.
Proof.
  intros H c. rewrite <- (ascii_of_code c).
  apply (all256_spec _ H). apply code_lt.
Qed.

Lemma eqb_true (a b : str) : eqb a b = true <-> a = b.
Proof.
  revert b. induction a as [|x a IH]; intros [|y b]; cbn [eqb]; try done.
  rewrite andb_true_iff, eqb_char_true, IH. split; [by intros [-> ->] |].
  by intros [= -> ->].
Qed.

Lemma eqb_false (a b : str) : eqb a b = false <-> a <> b.
Proof.
  destruct (eqb a b) eqn:E.
  - apply eqb_true in E. split; [done | by intros []].
  - split; [| done]. intros _ Heq. apply eqb_true in Heq. congruence.
Qed.

Lemma eqb_refl (a : str) : eqb a a = true.
Proof. by apply eqb_true. Qed.

Lemma startswith_spec (p s : str) :
  startswith p s = true <-> exists t, s = p ++ t.
Proof.
  revert s. induction p as [|x p IH]; intros s; cbn [startswith].
  - split; [by eexists | done].
  - destruct s as [|y s]; [split; [done | by intros [t [=]]] |].
    rewrite andb_true_iff, eqb_char_true, IH. split.
    + intros [-> [t ->]]. by exists t.
    + intros [t [= -> ->]]. split; [done | by exists t].
Qed.

Lemma split_once_app (sep : ascii) (a b : str) :
  sep ∉ a -> split_once sep (a ++ sep :: b) = Some (a, b).
Proof.
  induction a as [|c a IH]; intros Hn; simpl.
  - by rewrite eqb_char_refl.
  - apply not_elem_of_cons in Hn as [Hc Ha].
    destruct (eqb_char c sep) eqn:E.
    + apply eqb_char_true in E. congruence.
    + by rewrite IH.
Qed.

Lemma drop_while_none (p : ascii -> bool) (s : str) :
  Forall (fun c => p c = false) s -> drop_while p s = s.
Proof. destruct 1 as [|c s Hc _]; simpl; [done | by rewrite Hc]. Qed.

Lemma strip_no_space (s : str) :
  Forall (fun c => is_space c = false) s -> strip s = s.
Proof.
  intros H. unfold strip, lstrip, rstrip.
  rewrite (drop_while_none _ s H).
  rewrite drop_while_none; [apply rev_involutive |].
  by apply Forall_rev.
Qed.

(** Decimal digits *)
Lemma digit_char_is_digit (d : Z) : 0 <= d < 10 -> is_digit (digit_char d) = true.
Proof.
  intros Hd. assert (Hc : In d [0;1;2;3;4;5;6;7;8;9]) by (simpl; lia).
  simpl in Hc. intuition subst; reflexivity.
Qed.

Lemma digit_val_char (d : Z) : 0 <= d < 10 -> digit_val (digit_char d) = d.
Proof.
  intros Hd. assert (Hc : In d [0;1;2;3;4;5;6;7;8;9]) by (simpl; lia).
  simpl in Hc. intuition subst; reflexivity.
Qed.

Lemma is_digit_not_space (c : ascii) : is_digit c = true -> is_space c = false.
Proof.
  intros Hd.
  assert (H : implb (is_digit c) (negb (is_space c)) = true).
  { revert c Hd. intros c _. revert c. apply all_chars. by vm_compute. }
  rewrite Hd in H. by apply negb_true_iff.
Qed.

Lemma int_digits_app (ds rest : str) (a : Z) :
  Forall (fun c => is_digit c = true) ds ->
  int_digits a (ds ++ rest) = int_digits (digits_value ds a) rest.
Proof.
  intros H. revert a. induction H as [|c ds Hc _ IH]; intros a; simpl; [done |].
  by rewrite Hc, IH.
Qed.

Lemma str_of_pos_fuel_S (fuel : nat) (n : Z) (acc : str) :
  str_of_pos_fuel (S fuel) n acc =
  if n <? 10 then digit_char (n mod 10) :: acc
  else str_of_pos_fuel fuel (n / 10) (digit_char (n mod 10) :: acc).
Proof. reflexivity. Qed.

Lemma str_of_pos_fuel_spec (fuel : nat) :
  forall (n : Z) (acc : str),
    0 <= n < 2 ^ Z.of_nat (S fuel) ->
    exists ds, str_of_pos_fuel (S fuel) n acc = ds ++ acc
      /\ Forall (fun c => is_digit c = true) ds
      /\ ds <> []
      /\ forall a, digits_value ds a = a * 10 ^ Z.of_nat (length ds) + n.
Proof.
  induction fuel as [|fuel IH]; intros n acc Hn.
  - assert (n < 10) by (change (2 ^ Z.of_nat 1) with 2 in Hn; lia).
    exists [digit_char (n mod 10)]. simpl.
    destruct (Z.ltb_spec n 10); [| lia].
    rewrite Z.mod_small by lia.
    repeat split; [| done |].
    + constructor; [| constructor]. apply digit_char_is_digit. lia.
    + intros a. unfold digits_value. simpl. rewrite digit_val_char by lia. lia.
  - rewrite str_of_pos_fuel_S. destruct (Z.ltb_spec n 10) as [Hlt | Hge].
    + exists [digit_char (n mod 10)]. rewrite Z.mod_small by lia.
      repeat split; [| done |].
      * constructor; [| constructor]. apply digit_char_is_digit. lia.
      * intros a. unfold digits_value. simpl. rewrite digit_val_char by lia. lia.
    + assert (Hdiv : 0 <= n / 10 < 2 ^ Z.of_nat (S fuel)).
      { split; [apply Z.div_pos; lia |].
        apply Z.div_lt_upper_bound; [lia |].
        replace (Z.of_nat (S (S fuel))) with (Z.succ (Z.of_nat (S fuel))) in Hn by lia.
        rewrite Z.pow_succ_r in Hn by lia. lia. }
      destruct (IH (n / 10) (digit_char (n mod 10) :: acc) Hdiv)
        as (ds & Heq & Hds & Hne & Hval).
      exists (ds ++ [digit_char (n mod 10)]).
      assert (Hm : 0 <= n mod 10 < 10) by (apply Z.mod_pos_bound; lia).
      repeat split.
      * rewrite Heq. by rewrite <- app_assoc.
      * apply Forall_app. split; [done |].
        constructor; [| constructor]. by apply digit_char_is_digit.
      * by destruct ds.
      * intros a. unfold digits_value in *. rewrite fold_left_app. simpl.
        rewrite Hval, digit_val_char by lia.
        rewrite length_app. simpl.
        replace (Z.of_nat (length ds + 1)) with (Z.succ (Z.of_nat (length ds))) by lia.
        rewrite Z.pow_succ_r by lia.
        pose proof (Z.div_mod n 10). lia.
Qed.

Lemma str_of_nonneg_spec (n : Z) :
  0 <= n ->
  exists ds, str_of_nonneg n = ds
    /\ Forall (fun c => is_digit c = true) ds
    /\ ds <> []
    /\ digits_value ds 0 = n.
Proof.
  intros Hn. unfold str_of_nonneg.
  assert (Hb : 0 <= n < 2 ^ Z.of_nat (S (Z.to_nat (Z.log2 n)))).
  { split; [done |]. destruct (Z.eq_dec n 0) as [-> | Hne]; [by vm_compute |].
    pose proof (Z.log2_nonneg n).
    replace (Z.of_nat (S (Z.to_nat (Z.log2 n)))) with (Z.succ (Z.log2 n)) by lia.
    apply Z.log2_spec. lia. }
  destruct (str_of_pos_fuel_spec _ n [] Hb) as (ds & Heq & Hds & Hne & Hval).
  exists ds. rewrite Heq, app_nil_r. repeat split; try done.
  all: rewrite Hval; lia.
Qed.

Lemma int_of_str_of_int (n : Z) : 0 <= n -> int_of_str (str_of_int n) = Some n.
Proof.
  intros Hn. unfold str_of_int. destruct (Z.ltb_spec n 0); [lia |].
  destruct (str_of_nonneg_spec n Hn) as (ds & -> & Hds & Hne & Hval).
  unfold int_of_str. rewrite strip_no_space.
  2:{ eapply Forall_impl; [exact Hds |]. intros c. apply is_digit_not_space. }
  destruct ds as [|c ds]; [done |].
  pose proof (Forall_inv Hds) as Hc.
  assert (Hm : eqb_char c "-" = false).
  { destruct (eqb_char c "-") eqn:E; [| done].
    apply eqb_char_true in E. subst c. done. }
  assert (Hp : eqb_char c "+" = false).
  { destruct (eqb_char c "+") eqn:E; [| done].
    apply eqb_char_true in E. subst c. done. }
  rewrite Hm, Hp. unfold int_unsigned. rewrite Hc.
  rewrite <- (app_nil_r (c :: ds)). rewrite int_digits_app by done.
  by rewrite Hval.
Qed.

End PyStrFacts.

(** ** Cursor round trip *)

Module CursorFacts.
Import PyStr PyStrFacts Cursor.

Lemma list_ind3 {A} (P : list A -> Prop) :
  P [] -> (forall x, P [x]) -> (forall x y, P [x; y]) ->
  (forall x y z r, P r -> P (x :: y :: z :: r)) ->
  forall l, P l.
Proof.
  intros H0 H1 H2 H3.
  fix IH 1. intros [|x [|y [|z r]]]; [done.. |]. apply H3, IH.
Qed.

Lemma a2b_b2a (v : N) :
  (v < 64)%N -> a2b (b2a v) = Some v /\ eqb_char (b2a v) pad = false.
Proof.
  intros Hv.
  assert (H : implb (v <? 64)%N (sextet_ok v) = true).
  { apply (all256_spec (fun v => implb (v <? 64)%N (sextet_ok v)));
      [by vm_compute | lia]. }
  apply N.ltb_lt in Hv. rewrite Hv in H. simpl in H. unfold sextet_ok in H.
  destruct (a2b (b2a v)) as [w|]; [| done].
  apply andb_true_iff in H as [Hw Hp]. apply N.eqb_eq in Hw.
  apply negb_true_iff in Hp. by subst.
Qed.

Lemma head_ok_all (x y : ascii) : head_ok (code x) (code y) = true.
Proof.
  assert (H : all256 (fun a => all256 (fun b => head_ok a b)) = true)
    by (by vm_compute).
  pose proof (all256_spec _ H _ (code_lt x)) as Hx. simpl in Hx.
  apply (all256_spec _ Hx _ (code_lt y)).
Qed.

Lemma tail_ok_all (y z : ascii) : tail_ok (code y) (code z) = true.
Proof.
  assert (H : all256 (fun a => all256 (fun b => tail_ok a b)) = true)
    by (by vm_compute).
  pose proof (all256_spec _ H _ (code_lt y)) as Hy. simpl in Hy.
  apply (all256_spec _ Hy _ (code_lt z)).
Qed.

Lemma head_facts (x y : ascii) :
  let a := code x in
  let b := code y in
  (s0 a < 64)%N /\ (s1 a b < 64)%N
  /\ ascii_of_N (N.lor (N.shiftl (s0 a) 2) (N.shiftr (s1 a b) 4)) = x
  /\ N.land (s1 a b) 15 = N.shiftr b 4.
Proof.
  intros a b. pose proof (head_ok_all x y) as H. unfold head_ok in H.
  fold a b in H.
  repeat (apply andb_true_iff in H as [H ?]).
  repeat match goal with
         | H : (_ <? _)%N = true |- _ => apply N.ltb_lt in H
         | H : (_ =? _)%N = true |- _ => apply N.eqb_eq in H
         end.
  repeat split; try done.
  match goal with H : _ = a |- _ => rewrite H end. apply ascii_of_code.
Qed.

Lemma tail_facts (y z : ascii) :
  let b := code y in
  let c := code z in
  (s2 b c < 64)%N /\ (s3 c < 64)%N
  /\ ascii_of_N (N.lor (N.shiftl (N.shiftr b 4) 4) (N.shiftr (s2 b c) 2)) = y
  /\ ascii_of_N (N.lor (N.shiftl (N.land (s2 b c) 3) 6) (s3 c)) = z.
Proof.
  intros b c. pose proof (tail_ok_all y z) as H. unfold tail_ok in H.
  fold b c in H.
  repeat (apply andb_true_iff in H as [H ?]).
  repeat match goal with
         | H : (_ <? _)%N = true |- _ => apply N.ltb_lt in H
         | H : (_ =? _)%N = true |- _ => apply N.eqb_eq in H
         end.
  repeat split; try done.
  - match goal with H : _ = b |- _ => rewrite H end. apply ascii_of_code.
  - match goal with H : _ = c |- _ => rewrite H end. apply ascii_of_code.
Qed.

(** One step of the decoder on an alphabet character. *)
Lemma a2b_loop_sextet (q : nat) (l : N) (p : nat) (v : N) (s : str) :
  (v < 64)%N ->
  a2b_loop q l p (b2a v :: s) =
  match q with
  | 0%nat => a2b_loop 1 v 0 s
  | 1%nat =>
      cons (ascii_of_N (N.lor (N.shiftl l 2) (N.shiftr v 4)))
        <$> a2b_loop 2 (N.land v 15) 0 s
  | 2%nat =>
      cons (ascii_of_N (N.lor (N.shiftl l 4) (N.shiftr v 2)))
        <$> a2b_loop 3 (N.land v 3) 0 s
  | _ => cons (ascii_of_N (N.lor (N.shiftl l 6) v)) <$> a2b_loop 0 0 0 s
  end.
Proof.
  intros Hv. destruct (a2b_b2a v Hv) as [Ha Hp].
  cbn [a2b_loop]. by rewrite Hp, Ha.
Qed.

Lemma b64_roundtrip (bs : str) :
  urlsafe_b64decode (urlsafe_b64encode bs) = Some bs.
Proof.
  unfold urlsafe_b64decode.
  induction bs as [| x | x y | x y z r IH] using list_ind3.
  - reflexivity.
  - destruct (head_facts x "000"%char) as (H0 & H1 & Hx & Hl).
    cbn [urlsafe_b64encode].
    replace (N.shiftl (N.land (code x) 3) 4) with (s1 (code x) 0)
      by (unfold s1; by rewrite N.lor_0_r).
    change (code "000") with 0%N in *.
    rewrite a2b_loop_sextet by exact H0.
    rewrite a2b_loop_sextet by exact H1.
    fold (s0 (code x)). rewrite Hx. reflexivity.
  - destruct (head_facts x y) as (H0 & H1 & Hx & Hl).
    destruct (tail_facts y "000"%char) as (H2 & _ & Hy & _).
    cbn [urlsafe_b64encode].
    replace (N.shiftl (N.land (code y) 15) 2) with (s2 (code y) 0)
      by (unfold s2; by rewrite N.lor_0_r).
    change (code "000") with 0%N in *.
    fold (s0 (code x)) (s1 (code x) (code y)).
    rewrite a2b_loop_sextet by exact H0.
    rewrite a2b_loop_sextet by exact H1.
    rewrite a2b_loop_sextet by exact H2.
    rewrite Hx, Hl, Hy. reflexivity.
  - destruct (head_facts x y) as (H0 & H1 & Hx & Hl).
    destruct (tail_facts y z) as (H2 & H3 & Hy & Hz).
    cbn [urlsafe_b64encode].
    fold (s0 (code x)) (s1 (code x) (code y)) (s2 (code y) (code z)) (s3 (code z)).
    rewrite a2b_loop_sextet by exact H0.
    rewrite a2b_loop_sextet by exact H1.
    rewrite a2b_loop_sextet by exact H2.
    rewrite a2b_loop_sextet by exact H3.
    rewrite Hx, Hl, Hy, Hz, IH. reflexivity.
Qed.

(** C10.  For every scan id without a colon and every non-negative offset,
    decoding the encoded cursor gives back the pair:
    [decode_cursor(encode_cursor(scan_id, offset)) == (scan_id, offset)]. *)
Theorem cursor_roundtrip (scan_id : str) (offset : Z) :
  ":"%char ∉ scan_id ->
  0 <= offset ->
  decode_cursor (encode_cursor scan_id offset) = Some (scan_id, offset).
Proof.
  intros Hcolon Hoff. unfold decode_cursor, encode_cursor.
  rewrite b64_roundtrip. cbn [mbind option_bind].
  rewrite split_once_app by exact Hcolon. cbn [mbind option_bind].
  by rewrite int_of_str_of_int.
Qed.

Lemma cursor_roundtrip_witness :
  (":"%char ∉ ("3f2a9c" : str)) /\ 0 <= 40 /\
  decode_cursor (encode_cursor "3f2a9c" 40) = Some ("3f2a9c" : str, 40).
Proof.
  assert (Hc : ":"%char ∉ ("3f2a9c" : str)).
  { vm_compute. intros H.
    by repeat (apply elem_of_cons in H as [H | H]; [done |]); inversion H. }
  split; [exact Hc |]. split; [lia |].
  apply cursor_roundtrip; [exact Hc | lia].
Defined.

Example encode_cursor_example :
  encode_cursor "ab" 7 = "YWI6Nw==".
Proof. reflexivity. Qed.

End CursorFacts.

(** ** The product page extractor: availability and the required name *)

Module ExtractFacts.
Import PyStr Text Json Browser Config Extract.

Lemma truthy_some (o : option str) :
  Text.truthy o = true -> exists c s, o = Some (c :: s).
Proof. destruct o as [[|c s]|]; [done | eauto | done]. Qed.

Lemma truthy_false (o : option str) :
  Text.truthy o = false -> o = None \/ o = Some [].
Proof. destruct o as [[|c s]|]; auto; done. Qed.

Lemma or_none_truthy (s : str) (t : str) : or_none s = Some t -> t <> [].
Proof. destruct s; simpl; [done |]. intros [= <-]. done. Qed.

Lemma clean_text_nonempty (text t : str) : _clean_text text = Some t -> t <> [].
Proof. unfold _clean_text. apply or_none_truthy. Qed.

Lemma first_text_nonempty (dom : Dom) (selectors : list str) (t : str) :
  _first_text dom selectors = Some t -> t <> [].
Proof.
  induction selectors as [|sel rest IH]; simpl; [done |].
  destruct (locator dom sel) as [|first ?]; [done |].
  destruct (_clean_text (inner_text first)) eqn:E; [| done].
  intros [= <-]. by eapply clean_text_nonempty.
Qed.

Lemma first_text_truthy (dom : Dom) (selectors : list str) :
  Text.truthy (_first_text dom selectors) = false ->
  _first_text dom selectors = None.
Proof.
  destruct (_first_text dom selectors) as [[|c t]|] eqn:E; try done.
  by apply first_text_nonempty in E.
Qed.

Lemma normalize_availability_values (text a : str) :
  _normalize_availability text = Some a -> a = OUT_OF_STOCK \/ a = IN_STOCK.
Proof.
  unfold _normalize_availability.
  repeat match goal with |- context [if ?b then _ else _] => destruct b end;
    intros [= <-]; auto.
Qed.

Lemma dom_availability_spec (config : ScrapeConfig) (dom : Dom) :
  dom_availability config dom =
  match _first_text dom (availability_selectors config) with
  | None => None
  | Some text =>
      match _normalize_availability text with
      | Some a => Some a
      | None =>
          if contains "low stock" (lower text) then Some IN_STOCK else None
      end
  end.
Proof.
  unfold dom_availability.
  destruct (_first_text dom (availability_selectors config)) as [[|c t]|] eqn:E;
    [by apply first_text_nonempty in E | | done].
  destruct (_normalize_availability (c :: t)) as [[|n ns]|] eqn:En; try done.
  apply normalize_availability_values in En as [En | En]; discriminate En.
Qed.

Lemma dom_availability_truthy (config : ScrapeConfig) (dom : Dom) (a : str) :
  dom_availability config dom = Some a -> Text.truthy (Some a) = true.
Proof.
  rewrite dom_availability_spec.
  destruct (_first_text dom (availability_selectors config)) as [text|]; [| done].
  destruct (_normalize_availability text) as [n|] eqn:En.
  - intros [= <-]. by apply normalize_availability_values in En as [-> | ->].
  - destruct (contains _ _); [| done]. by intros [= <-].
Qed.

Lemma probe_buttons_truthy (dom : Dom) (selectors : list str) (a : str) :
  probe_buttons dom selectors = Some a -> Text.truthy (Some a) = true.
Proof.
  induction selectors as [|sel rest IH]; simpl; [done |].
  destruct (locator dom sel) as [|b ?]; [done |].
  intros [= <-]. by destruct (default false (is_disabled b)).
Qed.

(** The button probe: the first selector that matches decides, by the state
    of its first button. *)
Lemma probe_buttons_spec (dom : Dom) (selectors : list str) :
  probe_buttons dom selectors =
  match List.find (fun sel => negb (bool_decide (locator dom sel = []))) selectors with
  | None => None
  | Some sel =>
      match locator dom sel with
      | button :: _ =>
          match is_disabled button with
          | Some true => Some OUT_OF_STOCK
          | _ => Some IN_STOCK
          end
      | [] => None
      end
  end.
Proof.
  induction selectors as [|sel rest IH]; simpl; [done |].
  destruct (locator dom sel) as [|b l] eqn:E; simpl.
  - exact IH.
  - rewrite E. by destruct (is_disabled b) as [[|]|].
Qed.

(** What [_scrape_product] does once the page is loaded and the structured
    data is read. *)
Lemma scrape_product_loaded (config : ScrapeConfig) (world : World)
    (url : str) (page : Page) (json_ld : fields) :
  goto world url = Some page ->
  _extract_json_ld (snapshot page 0) = Ret json_ld ->
  _scrape_product config world url =
  let dom := snapshot page 0 in
  match or_else (_first_text dom (name_selectors config)) (field json_ld "name") with
  | Some (c :: n) =>
      Ret (Some {|
        site := Config.name config;
        name := c :: n;
        price := or_else (_first_text dom (price_selectors config))
                   (field json_ld "price");
        url := url;
        sizes := _filter_sizes (_all_texts dom (size_selectors config));
        availability := or_else (_availability config dom)
                          (field json_ld "availability");
        description :=
          _clean_description
            (or_else (_first_text dom (description_selectors config))
               (field json_ld "description")) |})
  | _ => Ret None
  end.
Proof. intros Hg Hj. unfold _scrape_product. by rewrite Hg, Hj. Qed.

Lemma scrape_product_inv (config : ScrapeConfig) (world : World)
    (url : str) (r : ProductRecord) :
  _scrape_product config world url = Ret (Some r) ->
  exists page json_ld,
    goto world url = Some page
    /\ _extract_json_ld (snapshot page 0) = Ret json_ld.
Proof.
  unfold _scrape_product. destruct (goto world url) as [page|]; [| done].
  destruct (_extract_json_ld (snapshot page 0)) as [json_ld|] eqn:E;
    [| by cbn].
  intros _. by exists page, json_ld.
Qed.

Lemma availability_or_else (config : ScrapeConfig) (dom : Dom) (json_ld : fields) :
  or_else (_availability config dom) (field json_ld "availability")
  = code_availability config dom json_ld.
Proof.
  unfold or_else, _availability, code_availability.
  destruct (dom_availability config dom) as [a|] eqn:Ed.
  - by rewrite (dom_availability_truthy _ _ _ Ed).
  - destruct (probe_buttons dom ADD_TO_CART_SELECTORS) as [a|] eqn:Ep; [| done].
    by rewrite (probe_buttons_truthy _ _ _ Ep).
Qed.

(** The structured-data availability is the offer's text passed through
    [_normalize_availability]. *)
Lemma structured_availability_normalized (product offers : list (str * json))
    (text : str) (fs : fields) :
  lookup_key product "offers" = JDict offers ->
  lookup_key offers "availability" = JStr text ->
  _extract_product_fields product = Ret fs ->
  field fs "availability" = _normalize_availability text.
Proof.
  intros Ho Ha. unfold _extract_product_fields. rewrite Ho. cbn [first_offer].
  generalize (lookup_key product "name") (lookup_key product "description").
  intros vn vd.
  destruct (offer_price offers) as [price|]; [| done].
  cbn [mbind outcome_bind]. rewrite Ha. intros [= <-].
  unfold set_if_str. destruct vn, vd, price; reflexivity.
Qed.

Example sold_out_wins :
  exists r,
    _scrape_product shop (one_page_world sold_out_page) product_url = Ret (Some r)
    /\ field (ld_fields sold_out_page) "availability" = Some IN_STOCK
    /\ availability r = Some OUT_OF_STOCK.
Proof. eexists. split; [by vm_compute |]. split; by vm_compute. Qed.

(** C1, as stated, fails: on [button_page] the structured data says
    out of stock, which the chain of the specification would report, but
    the button probe is consulted first and the record says in stock. *)
Lemma structured_data_consulted_after_buttons :
  exists r json_ld,
    _scrape_product shop (one_page_world button_page) product_url = Ret (Some r)
    /\ _extract_json_ld button_page = Ret json_ld
    /\ spec_availability shop button_page json_ld = Some OUT_OF_STOCK
    /\ availability r = Some IN_STOCK.
Proof.
  eexists _, _. split; [by vm_compute |]. split; [by vm_compute |].
  split; by vm_compute.
Qed.

(** C1, amended.  For every record that [_scrape_product] emits, the
    availability is found in this order: the DOM availability text
    (keyword-normalized, an unmatched text containing "low stock" giving
    [in_stock]); if the DOM gives no signal, the add-to-cart buttons (the
    first selector that matches decides: [out_of_stock] when its first
    button is disabled, else [in_stock]); only if that is absent too, the
    normalized structured-data availability; otherwise the field is absent.
    In particular a DOM text containing "sold out" gives [out_of_stock]
    whatever the structured data says. *)
Theorem availability_priority_chain (config : ScrapeConfig) (world : World)
    (url : str) (r : ProductRecord) :
  _scrape_product config world url = Ret (Some r) ->
  exists page json_ld,
    goto world url = Some page
    /\ _extract_json_ld (snapshot page 0) = Ret json_ld
    /\ let dom := snapshot page 0 in
       let dom_signal :=
         match _first_text dom (availability_selectors config) with
         | None => None
         | Some text =>
             match _normalize_availability text with
             | Some a => Some a
             | None =>
                 if contains "low stock" (lower text) then Some IN_STOCK else None
             end
         end in
       let button_signal :=
         match List.find (fun sel => negb (bool_decide (locator dom sel = [])))
                 ADD_TO_CART_SELECTORS with
         | None => None
         | Some sel =>
             match locator dom sel with
             | button :: _ =>
                 match is_disabled button with
                 | Some true => Some OUT_OF_STOCK
                 | _ => Some IN_STOCK
                 end
             | [] => None
             end
         end in
       availability r =
         match dom_signal with
         | Some a => Some a
         | None =>
             match button_signal with
             | Some a => Some a
             | None => field json_ld "availability"
             end
         end
       /\ (forall text,
             _first_text dom (availability_selectors config) = Some text ->
             contains "sold out" (lower text) = true ->
             availability r = Some OUT_OF_STOCK).
Proof.
  intros Hr. destruct (scrape_product_inv _ _ _ _ Hr) as (page & json_ld & Hg & Hj).
  exists page, json_ld. split; [done |]. split; [done |].
  rewrite (scrape_product_loaded _ _ _ _ _ Hg Hj) in Hr. cbn zeta in Hr.
  destruct (or_else _ _) as [[|c n]|]; try done.
  injection Hr as <-. cbn [availability]. cbn zeta.
  rewrite availability_or_else. unfold code_availability.
  rewrite dom_availability_spec, probe_buttons_spec.
  split; [reflexivity |].
  intros text Ht Hc. rewrite Ht. unfold _normalize_availability.
  rewrite Hc. by rewrite !orb_true_r.
Qed.

Lemma availability_priority_chain_witness :
  exists r,
    _scrape_product shop (one_page_world button_page) product_url = Ret (Some r)
    /\ availability r = Some IN_STOCK.
Proof.
  assert (Hr : _scrape_product shop (one_page_world button_page) product_url
               = Ret (Some {| site := "shop"; name := "Linen Shirt"; price := None;
                              url := product_url; sizes := [];
                              availability := Some IN_STOCK;
                              description := None |})) by (by vm_compute).
  eexists. split; [exact Hr |].
  destruct (availability_priority_chain _ _ _ _ Hr)
    as (page & json_ld & Hg & Hj & Hchain & _).
  reflexivity.
Defined.

(** The name rule of [_scrape_product].  Every record emitted has a
    non-empty name.  When the page is loaded and its structured data is
    read without an exception, no record is returned exactly when neither
    the DOM name selectors nor the structured data give a non-empty name,
    and otherwise a record is returned whatever the other fields are.
    When reading the structured data raises, [_scrape_product] raises
    whatever the page holds.  The scraping loop opens each product URL
    once, dropped or not. *)
Lemma name_is_the_only_hard_fail (config : ScrapeConfig) (world : World) :
  (forall url r,
     _scrape_product config world url = Ret (Some r) -> name r <> [])
  /\ (forall url page json_ld,
        goto world url = Some page ->
        _extract_json_ld (snapshot page 0) = Ret json_ld ->
        let dom_name := _first_text (snapshot page 0) (name_selectors config) in
        let ld_name := field json_ld "name" in
        (Text.truthy dom_name = false /\ Text.truthy ld_name = false
         <-> _scrape_product config world url = Ret None)
        /\ (Text.truthy dom_name = true \/ Text.truthy ld_name = true ->
            exists r, _scrape_product config world url = Ret (Some r)
                      /\ Some (name r) = or_else dom_name ld_name))
  /\ (forall url page,
        goto world url = Some page ->
        _extract_json_ld (snapshot page 0) = Raise ->
        _scrape_product config world url = Raise)
  /\ (forall urls, snd (scrape_each config world urls) = urls).
Proof.
  split; [| split; [| split]].
  - intros url r Hr.
    destruct (scrape_product_inv _ _ _ _ Hr) as (page & json_ld & Hg & Hj).
    rewrite (scrape_product_loaded _ _ _ _ _ Hg Hj) in Hr. cbn zeta in Hr.
    destruct (or_else _ _) as [[|c n]|]; try done.
    by injection Hr as <-.
  - intros url page json_ld Hg Hj dom_name ld_name.
    rewrite (scrape_product_loaded _ _ _ _ _ Hg Hj). cbn zeta.
    fold dom_name ld_name. unfold or_else.
    destruct (Text.truthy dom_name) eqn:Ed.
    + destruct (truthy_some _ Ed) as (c & n & ->). split.
      * split; [by intros [? _] | done].
      * intros _. by eexists.
    + destruct (Text.truthy ld_name) eqn:El.
      * destruct (truthy_some _ El) as (c & n & ->). split.
        -- split; [by intros [_ ?] | done].
        -- intros _. by eexists.
      * split.
        -- split; [| done]. intros _.
           by destruct (truthy_false _ El) as [-> | ->].
        -- by intros [? | ?].
  - intros url page Hg Hj. unfold _scrape_product. by rewrite Hg, Hj.
  - induction urls as [|url rest IH]; [done |]. cbn [scrape_each].
    destruct (scrape_each config world rest) as [results gotos].
    simpl in IH. subst gotos.
    by destruct (_scrape_product config world url) as [[?|]|].
Qed.

Lemma name_is_the_only_hard_fail_witness :
  exists r,
    _scrape_product shop (one_page_world bare_page) product_url = Ret (Some r)
    /\ name r = "Linen Shirt"
    /\ name r <> [].
Proof.
  destruct (name_is_the_only_hard_fail shop (one_page_world bare_page))
    as (Hname & Hdrop & _).
  assert (Hg : goto (one_page_world bare_page) product_url
               = Some {| snapshot := fun _ => bare_page |}) by reflexivity.
  assert (Hj : _extract_json_ld bare_page = Ret []) by reflexivity.
  destruct (Hdrop product_url _ _ Hg Hj) as [_ Hemit].
  destruct Hemit as (r & Hr & Hn); [left; by vm_compute |].
  exists r. split; [exact Hr |]. split.
  - vm_compute in Hn. by injection Hn.
  - by apply (Hname product_url).
Defined.

(** A record with nothing but a name is emitted. *)
Example bare_page_emitted :
  _scrape_product shop (one_page_world bare_page) product_url
  = Ret (Some {| site := "shop"; name := "Linen Shirt"; price := None;
                 url := product_url; sizes := []; availability := None;
                 description := None |}).
Proof. by vm_compute. Qed.

(** A page without any name is dropped. *)
Example nameless_page_dropped :
  _scrape_product shop
    (one_page_world {| locator := fun _ => []; ld_json := [] |}) product_url
  = Ret None.
Proof. by vm_compute. Qed.

(** C9, at the failing input.  The page has a title, and its structured
    data is a product whose offer has no [price] and a list of price
    specifications.  [offers.get("priceSpecification", {}).get("price")]
    raises on the list, so reading the structured data raises and
    [_scrape_product] raises before it looks for the name; the scraping loop
    skips the product.  The same page without the offer gives a record. *)
Theorem price_specification_list_drops_named_product :
  _first_text price_list_page (name_selectors shop)
  = Some ("Linen Shirt" : str)
  /\ offer_price
       [("@type" : str, JStr "Offer");
        ("priceSpecification" : str,
         JList [JDict [("@type" : str, JStr "UnitPriceSpecification");
                       ("price" : str, JStr "49.00")]])]
     = Raise
  /\ _extract_json_ld price_list_page = Raise
  /\ _scrape_product shop (one_page_world price_list_page) product_url = Raise
  /\ scrape_each shop (one_page_world price_list_page) [product_url]
     = ([], [product_url])
  /\ (exists r,
        _scrape_product shop (one_page_world bare_page) product_url
        = Ret (Some r)
        /\ name r = "Linen Shirt").
Proof.
  repeat split; try by vm_compute.
  eexists. split; by vm_compute.
Qed.

End ExtractFacts.

(** ** The size token classifier *)

Module SizeFacts.
Import PyStr PyStrFacts Re Text.

Lemma is_digit_numeric (c : ascii) : is_digit c = true -> is_numeric_char c = true.
Proof. unfold is_numeric_char. by intros ->. Qed.

Lemma filter_numeric_digits (ds : str) :
  Forall (fun c => is_digit c = true) ds ->
  List.filter is_numeric_char ds = ds.
Proof.
  induction 1 as [|c ds Hc _ IH]; [done |].
  cbn [List.filter]. by rewrite (is_digit_numeric _ Hc), IH.
Qed.

Lemma filter_numeric_none (p : str) :
  Forall (fun c => is_numeric_char c = false) p ->
  List.filter is_numeric_char p = [].
Proof.
  induction 1 as [|c p Hc _ IH]; [done |].
  cbn [List.filter]. by rewrite Hc.
Qed.

Lemma is_digit_not_dot (c : ascii) : is_digit c = true -> is_dot c = false.
Proof.
  intros Hd. destruct (is_dot c) eqn:E; [| done].
  apply eqb_char_true in E. by subst c.
Qed.

Lemma float_digits_app (ds rest : str) (mant : Z) (scale : nat) (dot any : bool) :
  Forall (fun c => is_digit c = true) ds -> ds <> [] ->
  float_digits mant scale dot any (ds ++ rest) =
  float_digits (digits_value ds mant)
    (if dot then (scale + length ds)%nat else scale) dot true rest.
Proof.
  intros Hds. revert mant scale any.
  induction Hds as [|c ds Hc Hds IH]; intros mant scale any Hne; [done |].
  cbn [app float_digits]. rewrite Hc.
  destruct ds as [|d ds'].
  - cbn [app digits_value fold_left length]. destruct dot; [| done].
    by replace (scale + 1)%nat with (S scale) by lia.
  - rewrite IH by done. cbn [digits_value fold_left length].
    destruct dot; [| done]. f_equal. lia.
Qed.

(** A number printed by [str] parses back as itself with scale zero. *)
Lemma float_of_int_text (n : Z) :
  0 <= n -> float_of_numeric (str_of_int n) = Some (n, 0%nat).
Proof.
  intros Hn. unfold str_of_int. destruct (Z.ltb_spec n 0); [lia |].
  destruct (str_of_nonneg_spec n Hn) as (ds & -> & Hds & Hne & Hval).
  unfold float_of_numeric. rewrite <- (app_nil_r ds).
  rewrite float_digits_app by done. cbn [float_digits]. by rewrite Hval.
Qed.

Lemma float_of_decimal_text (n d : Z) :
  0 <= n -> 0 <= d < 10 ->
  float_of_numeric (str_of_int n ++ "."%char :: [digit_char d])
  = Some (n * 10 + d, 1%nat).
Proof.
  intros Hn Hd. unfold str_of_int. destruct (Z.ltb_spec n 0); [lia |].
  destruct (str_of_nonneg_spec n Hn) as (ds & -> & Hds & Hne & Hval).
  unfold float_of_numeric. rewrite float_digits_app by done.
  cbn [float_digits]. rewrite Hval.
  change (is_digit ".") with false. change (is_dot ".") with true. cbn match.
  rewrite digit_char_is_digit by done. by rewrite digit_val_char.
Qed.

(** The boundary for a token without a range part: a region prefix (any
    text without digits or dots) and a whole number is kept exactly when the
    number is at most 30. *)
Lemma whole_number_boundary (prefix : str) (n : Z) :
  Forall (fun c => is_numeric_char c = false) prefix ->
  0 <= n ->
  _is_reasonable_size_number (prefix ++ str_of_int n) = (n <=? 30).
Proof.
  intros Hp Hn. unfold _is_reasonable_size_number.
  rewrite List.filter_app, (filter_numeric_none _ Hp). cbn [app].
  pose proof (float_of_int_text n Hn) as Hf.
  unfold str_of_int in *. destruct (Z.ltb_spec n 0); [lia |].
  destruct (str_of_nonneg_spec n Hn) as (ds & Heq & Hds & Hne & Hval).
  rewrite Heq in *. rewrite (filter_numeric_digits _ Hds), Hf.
  destruct ds; [done | reflexivity].
Qed.

(** The same with one decimal digit: [n.d] is kept exactly when it is at
    most 30, so 30.0 is kept and 30.1 is not. *)
Lemma decimal_number_boundary (prefix : str) (n d : Z) :
  Forall (fun c => is_numeric_char c = false) prefix ->
  0 <= n -> 0 <= d < 10 ->
  _is_reasonable_size_number (prefix ++ str_of_int n ++ "."%char :: [digit_char d])
  = (n * 10 + d <=? 300).
Proof.
  intros Hp Hn Hd. unfold _is_reasonable_size_number.
  rewrite List.filter_app, (filter_numeric_none _ Hp). cbn [app].
  pose proof (float_of_decimal_text n d Hn Hd) as Hf.
  unfold str_of_int in *. destruct (Z.ltb_spec n 0); [lia |].
  destruct (str_of_nonneg_spec n Hn) as (ds & Heq & Hds & Hne & Hval).
  rewrite Heq in *.
  rewrite List.filter_app, (filter_numeric_digits _ Hds).
  cbn [List.filter]. change (is_numeric_char ".") with true. cbn match.
  rewrite (is_digit_numeric _ (digit_char_is_digit d Hd)), Hf. by destruct ds.
Qed.

(** Every numeric token found in the text is kept exactly when
    [_is_reasonable_size_number] accepts it. *)
Lemma numeric_token_kept (text token : str) :
  In token (List.filter _is_reasonable_size_number
              (size_number_tokens (denoise text)))
  <-> In token (size_number_tokens (denoise text))
      /\ _is_reasonable_size_number token = true.
Proof. apply filter_In. Qed.

Example us_7_5_kept : _extract_size_tokens "US 7.5" = ["US7.5" : str].
Proof. by vm_compute. Qed.

Example eu_40_rejected : _extract_size_tokens "EU 40" = [].
Proof. by vm_compute. Qed.

Example thirty_kept : _extract_size_tokens "30" = ["30" : str].
Proof. by vm_compute. Qed.

Example thirty_one_rejected : _extract_size_tokens "31" = [].
Proof. by vm_compute. Qed.

(** C7, at the failing input.  [SIZE_NUMBER_REGEX] matches the range
    "8-10" as one token; [_is_reasonable_size_number] deletes the hyphen,
    reads 810 and rejects the token, although both ends are below 30.  The
    range "1-2" is read as 12 and kept. *)
Theorem range_token_judged_by_concatenated_digits :
  findall SIZE_NUMBER_REGEX (denoise "8-10") = ["8-10" : str]
  /\ float_of_numeric (List.filter is_numeric_char "8-10")
     = Some (810, 0%nat)
  /\ _is_reasonable_size_number "8-10" = false
  /\ _extract_size_tokens "8-10" = []
  /\ _extract_size_tokens "1-2" = ["1-2" : str].
Proof. repeat split; by vm_compute. Qed.

End SizeFacts.

(** ** URL normalization *)

Module UrlFacts.
Import PyStr PyStrFacts Url UrlOps.

(** *** Percent-encoding round trip *)

Lemma plus_char_ok_all (c : ascii) : plus_char_ok c = true.
Proof. revert c. apply all_chars. by vm_compute. Qed.

Lemma quote_plus_chars (s : str) : quote_plus s = flat_map plus_char s.
Proof.
  unfold quote_plus. destruct (has_char " " s) eqn:Hsp.
  - clear Hsp. unfold quote, replace_char. induction s as [|c s IH]; [done |].
    cbn [flat_map]. rewrite map_app, IH. f_equal.
    unfold plus_char. replace (eqb_char " " c) with (eqb_char c " ")
      by apply Ascii.eqb_sym.
    destruct (always_safe c) eqn:Hs; cbn [orb map].
    + destruct (eqb_char c " ") eqn:E; [| done].
      apply eqb_char_true in E. by subst c.
    + destruct (eqb_char c " ") eqn:E; cbn [map]; [by rewrite E |].
      pose proof (plus_char_ok_all c) as Hok. unfold plus_char_ok, plus_char in Hok.
      rewrite Hs, E in Hok. cbn [forallb] in Hok.
      set (h1 := hex_upper (code c / 16)) in *.
      set (h2 := hex_upper (code c mod 16)) in *.
      assert (H1 : eqb_char h1 " " = false).
      { destruct (eqb_char h1 " ") eqn:E1; [| done].
        apply eqb_char_true in E1. rewrite E1 in Hok. by vm_compute in Hok. }
      assert (H2 : eqb_char h2 " " = false).
      { destruct (eqb_char h2 " ") eqn:E2; [| done].
        apply eqb_char_true in E2. rewrite E2 in Hok.
        rewrite !andb_true_iff in Hok. by destruct Hok as [[_ [_ [? _]]] _]. }
      by rewrite H1, H2.
  - unfold quote. induction s as [|c s IH]; [done |].
    cbn [has_char existsb] in Hsp. apply orb_false_iff in Hsp as [Hc Hs].
    cbn [flat_map]. rewrite (IH Hs). f_equal.
    unfold plus_char. rewrite orb_false_r.
    destruct (always_safe c); [done |].
    destruct (eqb_char c " ") eqn:E; [| done].
    apply eqb_char_true in E. subst c. done.
Qed.

Lemma quote_plus_quoted (s : str) :
  Forall (fun c => is_quoted_char c = true) (quote_plus s).
Proof.
  rewrite quote_plus_chars. induction s as [|c s IH]; [constructor |].
  cbn [flat_map]. apply Forall_app. split; [| done].
  pose proof (plus_char_ok_all c) as Hok. unfold plus_char_ok in Hok.
  apply andb_true_iff in Hok as [Hall _].
  apply Forall_forall. intros x Hx. rewrite forallb_forall in Hall.
  apply Hall. by apply list_elem_of_In.
Qed.

Lemma unquote_plus_char (c : ascii) (rest : str) :
  unquote (replace_char "+" " " (plus_char c ++ rest))
  = c :: unquote (replace_char "+" " " rest).
Proof.
  pose proof (plus_char_ok_all c) as Hok. unfold plus_char_ok in Hok.
  apply andb_true_iff in Hok as [_ Hok].
  destruct (plus_char c) as [|x [|h1 [|h2 [|? ?]]]]; try done.
  - apply orb_true_iff in Hok as [Hok | Hok].
    + rewrite !andb_true_iff, !negb_true_iff in Hok.
      destruct Hok as [[Hx Hp] Hplus]. apply eqb_char_true in Hx. subst x.
      cbn [app replace_char map unquote]. by rewrite Hplus, Hp.
    + apply andb_true_iff in Hok as [Hc Hx].
      apply eqb_char_true in Hc, Hx. subst. reflexivity.
  - rewrite !andb_true_iff, !negb_true_iff in Hok.
    destruct Hok as [[[[[Hp H1] H2] H1p] H2p] Hhex].
    apply eqb_char_true in Hp. subst x.
    unfold replace_char. cbn [app map]. rewrite H1, H2.
    change (eqb_char "%" "+") with false. cbn match. cbn [unquote].
    change (eqb_char "%" "%") with true. cbn match.
    destruct (hex_val h1) as [a|]; [| done].
    destruct (hex_val h2) as [b|]; [| done].
    apply eqb_char_true in Hhex. by rewrite Hhex.
Qed.

Lemma unquote_quote_plus (s : str) :
  unquote (replace_char "+" " " (quote_plus s)) = s.
Proof.
  rewrite quote_plus_chars. induction s as [|c s IH]; [done |].
  cbn [flat_map]. by rewrite unquote_plus_char, IH.
Qed.

Lemma quote_plus_nonempty (s : str) : s <> [] -> quote_plus s <> [].
Proof.
  intros Hs Hq. apply Hs. rewrite <- (unquote_quote_plus s). by rewrite Hq.
Qed.

(** *** Query strings *)

Lemma join_nonempty_parts (sep : str) (parts : list str) :
  parts <> [] -> Forall (fun p => p <> []) parts -> Url.join sep parts <> [].
Proof.
  intros Hne Hall. destruct Hall as [|p ps Hp _]; [done |].
  cbn [Url.join]. destruct ps; [done |]. by destruct p.
Qed.

Lemma split_all_one (sep : ascii) (p : str) :
  sep ∉ p -> split_all sep p = [p].
Proof.
  induction p as [|c p IH]; intros Hn; [done |].
  apply not_elem_of_cons in Hn as [Hc Hp]. cbn [split_all].
  rewrite (IH Hp). destruct (eqb_char c sep) eqn:E; [| done].
  apply eqb_char_true in E. congruence.
Qed.

Lemma split_all_nonempty (sep : ascii) (s : str) : split_all sep s <> [].
Proof.
  induction s as [|c s IH]; [done |]. cbn [split_all].
  destruct (split_all sep s); [done |]. by destruct (eqb_char c sep).
Qed.

Lemma split_all_app (sep : ascii) (p rest : str) :
  sep ∉ p -> split_all sep (p ++ sep :: rest) = p :: split_all sep rest.
Proof.
  induction p as [|c p IH]; intros Hn.
  - cbn [app split_all]. rewrite eqb_char_refl.
    destruct (split_all sep rest) eqn:E; [| done].
    by apply split_all_nonempty in E.
  - apply not_elem_of_cons in Hn as [Hc Hp]. cbn [app split_all].
    rewrite (IH Hp). destruct (eqb_char c sep) eqn:E; [| done].
    apply eqb_char_true in E. congruence.
Qed.

Lemma split_all_join (parts : list str) :
  parts <> [] -> Forall (fun p => "&"%char ∉ p) parts ->
  split_all "&" (Url.join "&" parts) = parts.
Proof.
  intros Hne Hall. induction Hall as [|p ps Hp Hps IH]; [done |].
  cbn [Url.join]. destruct ps as [|p' ps'].
  - by apply split_all_one.
  - change (p ++ "&" ++ Url.join "&" (p' :: ps'))
      with (p ++ "&"%char :: Url.join "&" (p' :: ps')).
    rewrite split_all_app by done. by rewrite IH.
Qed.

Lemma quoted_not (c x : ascii) :
  is_quoted_char c = true -> is_quoted_char x = false -> c <> x.
Proof. intros Hc Hx ->. congruence. Qed.

Lemma quote_plus_without (x : ascii) (s : str) :
  is_quoted_char x = false -> x ∉ quote_plus s.
Proof.
  intros Hx Hin. pose proof (quote_plus_quoted s) as Hq.
  rewrite Forall_forall in Hq. specialize (Hq _ Hin). congruence.
Qed.

Lemma encode_pair_no_amp (nv : str * str) : "&"%char ∉ encode_pair nv.
Proof.
  unfold encode_pair. intros Hin.
  apply elem_of_app in Hin as [Hin | Hin];
    [by apply quote_plus_without in Hin |].
  apply elem_of_app in Hin as [Hin | Hin];
    [| by apply quote_plus_without in Hin].
  apply list_elem_of_singleton in Hin. discriminate Hin.
Qed.

Lemma parse_pair (nv : str * str) :
  snd nv <> [] ->
  match encode_pair nv with
  | [] => None
  | _ =>
      match split_once "=" (encode_pair nv) with
      | None => None
      | Some (n, v) =>
          match v with
          | [] => None
          | _ => Some (unquote (replace_char "+" " " n),
                       unquote (replace_char "+" " " v))
          end
      end
  end = Some nv.
Proof.
  intros Hv. destruct nv as [n v]. cbn [fst snd] in *. unfold encode_pair.
  cbn [fst snd].
  change (quote_plus n ++ "=" ++ quote_plus v)
    with (quote_plus n ++ "="%char :: quote_plus v).
  destruct (quote_plus n ++ "="%char :: quote_plus v) eqn:E.
  { by destruct (quote_plus n). }
  rewrite <- E. rewrite split_once_app by (by apply quote_plus_without).
  pose proof (quote_plus_nonempty v Hv).
  destruct (quote_plus v) eqn:Ev; [done |]. rewrite <- Ev.
  by rewrite !unquote_quote_plus.
Qed.

Lemma parse_qsl_join (ps : list (str * str)) :
  Forall (fun nv => snd nv <> []) ps ->
  parse_qsl (Url.join "&" (map encode_pair ps)) = ps.
Proof.
  intros Hall. unfold parse_qsl. destruct ps as [|nv ps]; [done |].
  assert (Hne : Url.join "&" (map encode_pair (nv :: ps)) <> []).
  { apply join_nonempty_parts; [done |].
    apply Forall_forall. intros x Hx. apply list_elem_of_fmap in Hx as (y & -> & _).
    unfold encode_pair. intros Hnil. apply app_eq_nil in Hnil as [_ Hnil]. done. }
  destruct (Url.join "&" (map encode_pair (nv :: ps))) eqn:E; [done |].
  rewrite <- E. rewrite split_all_join.
  2: done.
  2:{ apply Forall_forall. intros x Hx.
      apply list_elem_of_fmap in Hx as (y & -> & _). apply encode_pair_no_amp. }
  clear E Hne. induction Hall as [|x xs Hx _ IH]; [done |].
  cbn [map omap list_omap]. rewrite (parse_pair x Hx). by rewrite IH.
Qed.

Lemma urlencode_pairs (d : qdict) :
  urlencode d = Url.join "&" (map encode_pair (pairs_of d)).
Proof.
  unfold urlencode, pairs_of. f_equal.
  induction d as [|[k vs] d IH]; [done |].
  cbn [flat_map fst snd]. rewrite map_app, IH. f_equal.
  by rewrite map_map.
Qed.

Lemma unquote_nonempty (s : str) : s <> [] -> unquote s <> [].
Proof.
  destruct s as [|c s]; [done |]. intros _. cbn [unquote].
  destruct (eqb_char c "%"); [| done].
  destruct s as [|h1 [|h2 rest]]; try done.
  by destruct (hex_val h1), (hex_val h2).
Qed.

Lemma parse_qsl_values (qs : str) :
  Forall (fun nv => snd nv <> []) (parse_qsl qs).
Proof.
  unfold parse_qsl. generalize (match qs with [] => [] | _ => split_all "&" qs end).
  intros args. induction args as [|arg args IH]; [constructor |].
  cbn [omap list_omap]. destruct arg as [|c arg]; [done |].
  destruct (split_once "=" (c :: arg)) as [[n v]|]; [| done].
  destruct v as [|cv v]; [done |]. constructor; [| done].
  cbn [snd]. apply unquote_nonempty. done.
Qed.

Lemma qdict_add_keys (name value : str) (d : qdict) :
  map fst (qdict_add name value d)
  = if bool_decide (name ∈ map fst d) then map fst d else map fst d ++ [name].
Proof.
  induction d as [|[k vs] d IH]; [done |]. cbn [qdict_add map fst].
  destruct (eqb name k) eqn:E.
  - apply eqb_true in E. subst k. rewrite bool_decide_true; [done |].
    apply elem_of_cons. by left.
  - apply eqb_false in E. cbn [map fst]. rewrite IH.
    case_bool_decide as Hin.
    + rewrite bool_decide_true; [done |]. apply elem_of_cons. by right.
    + rewrite bool_decide_false; [done |].
      intros [? | ?]%elem_of_cons; [congruence | done].
Qed.

Lemma qdict_add_wf (name value : str) (d : qdict) :
  value <> [] -> qdict_wf d -> qdict_wf (qdict_add name value d).
Proof.
  intros Hv [Hnd Hall]. split.
  - rewrite qdict_add_keys. case_bool_decide as Hin; [done |].
    apply NoDup_app. split; [done |]. split; [| apply NoDup_singleton].
    intros x Hx Hx'. apply list_elem_of_singleton in Hx' as ->. done.
  - clear Hnd. induction Hall as [|[k vs] d [Hk1 Hk2] Hd IH].
    + cbn [qdict_add]. constructor; [| constructor]. cbn [snd].
      split; [done |]. by constructor.
    + cbn [qdict_add]. destruct (eqb name k).
      * constructor; [| done]. cbn [snd] in *. split; [by destruct vs |].
        apply Forall_app. split; [done |]. by constructor.
      * constructor; [| done]. by split.
Qed.

Lemma parse_qs_wf (qs : str) : qdict_wf (parse_qs qs).
Proof.
  unfold parse_qs. pose proof (parse_qsl_values qs) as Hv.
  assert (Hwf : qdict_wf []) by (split; constructor).
  revert Hwf. generalize (@nil (str * list str)).
  induction Hv as [|[n v] ps Hnv _ IH]; intros acc Hacc; [done |].
  cbn [fold_left fst snd]. apply IH. by apply qdict_add_wf.
Qed.

Lemma filter_wf (f : str * list str -> bool) (d : qdict) :
  qdict_wf d -> qdict_wf (List.filter f d).
Proof.
  intros [Hnd Hall]. split.
  - clear Hall. induction d as [|kv d IH]; [done |].
    cbn [map] in Hnd. apply NoDup_cons in Hnd as [Hk Hd].
    cbn [List.filter]. destruct (f kv); [| by apply IH].
    cbn [map]. apply NoDup_cons. split; [| by apply IH].
    intros Hin. apply Hk. apply list_elem_of_fmap in Hin as (y & -> & Hy).
    apply list_elem_of_fmap. exists y. split; [done |].
    apply list_elem_of_In in Hy. apply filter_In in Hy as [Hy _].
    by apply list_elem_of_In.
  - clear Hnd. induction Hall as [|kv d Hkv _ IH]; [constructor |].
    cbn [List.filter]. destruct (f kv); [by constructor | done].
Qed.

Lemma fold_add_values (k : str) (vs : list str) :
  forall (acc : qdict) (ws : list str),
    k ∉ map fst acc ->
    fold_left (fun d nv => qdict_add (fst nv) (snd nv) d)
      (map (fun v => (k, v)) vs) (acc ++ [(k, ws)])
    = acc ++ [(k, ws ++ vs)].
Proof.
  induction vs as [|v vs IH]; intros acc ws Hk.
  - by rewrite app_nil_r.
  - cbn [map fold_left fst snd].
    assert (Hadd : qdict_add k v (acc ++ [(k, ws)]) = acc ++ [(k, ws ++ [v])]).
    { clear IH. induction acc as [|[k' vs'] acc IHa].
      - cbn [app qdict_add]. by rewrite eqb_refl.
      - cbn [map fst] in Hk. apply not_elem_of_cons in Hk as [Hne Hk].
        cbn [app qdict_add]. apply eqb_false in Hne. rewrite Hne.
        by rewrite IHa. }
    rewrite Hadd, IH by done. by rewrite <- app_assoc.
Qed.

Lemma fold_add_pairs (d : qdict) :
  forall acc : qdict,
    NoDup (map fst (acc ++ d)) ->
    Forall (fun kv => snd kv <> []) d ->
    fold_left (fun d nv => qdict_add (fst nv) (snd nv) d) (pairs_of d) acc
    = acc ++ d.
Proof.
  induction d as [|[k vs] d IH]; intros acc Hnd Hall.
  - by rewrite app_nil_r.
  - apply Forall_cons in Hall as [Hvs Hall]. cbn [snd] in Hvs.
    destruct vs as [|v vs]; [done |].
    assert (Hk : k ∉ map fst acc).
    { rewrite map_app in Hnd. apply NoDup_app in Hnd as (_ & Hdisj & _).
      intros Hin. apply (Hdisj k Hin). cbn [map fst]. apply elem_of_cons. by left. }
    unfold pairs_of. cbn [flat_map fst snd map]. fold (pairs_of d).
    rewrite <- app_comm_cons. cbn [fold_left fst snd].
    assert (Hadd : qdict_add k v acc = acc ++ [(k, [v])]).
    { clear -Hk. induction acc as [|[k' vs'] acc IHa]; [done |].
      cbn [map fst] in Hk. apply not_elem_of_cons in Hk as [Hne Hk].
      cbn [app qdict_add]. apply eqb_false in Hne. rewrite Hne. by rewrite IHa. }
    rewrite Hadd, fold_left_app, fold_add_values by done.
    cbn [app]. rewrite IH; [by rewrite <- app_assoc | | done].
    by rewrite <- app_assoc.
Qed.

Lemma pairs_of_values (d : qdict) :
  qdict_wf d -> Forall (fun nv => snd nv <> []) (pairs_of d).
Proof.
  intros [_ Hall]. unfold pairs_of.
  induction Hall as [|[k vs] d [_ Hvs] _ IH]; [constructor |].
  cbn [flat_map fst snd]. apply Forall_app. split; [| done].
  cbn [snd] in Hvs. clear -Hvs. induction Hvs; constructor; done.
Qed.

(** Reading back an encoded [dict] gives the [dict]. *)
Lemma parse_qs_urlencode (d : qdict) :
  qdict_wf d -> parse_qs (urlencode d) = d.
Proof.
  intros Hwf. unfold parse_qs. rewrite urlencode_pairs.
  rewrite parse_qsl_join by (by apply pairs_of_values).
  destruct Hwf as [Hnd Hall]. rewrite fold_add_pairs; [done | done |].
  eapply Forall_impl; [exact Hall |]. by intros kv [? _].
Qed.

Lemma urlencode_set_nonempty (name value : str) (d : qdict) :
  urlencode (qdict_set name [value] d) <> [].
Proof.
  unfold urlencode. apply join_nonempty_parts.
  - induction d as [|[k vs] d IH]; cbn [qdict_set]; [done |].
    destruct (eqb name k); cbn [flat_map fst snd map]; [done |].
    intros Hnil. apply app_eq_nil in Hnil as [_ Hnil]. by apply IH.
  - apply Forall_forall. intros x Hx. apply list_elem_of_In in Hx.
    apply in_flat_map in Hx as (kv & _ & Hx).
    apply in_map_iff in Hx as (elt & <- & _).
    intros Hnil. apply app_eq_nil in Hnil as [_ Hnil]. done.
Qed.

Lemma urlunsplit_shape (scheme netloc url query fragment : str) :
  urlunsplit scheme netloc url query fragment =
  scheme_part scheme ++ hier_part scheme netloc url
  ++ opt_part "?" query ++ opt_part "#" fragment.
Proof.
  unfold urlunsplit, scheme_part, hier_part, opt_part.
  destruct (nonempty netloc || _), (nonempty scheme), (nonempty query),
    (nonempty fragment);
    cbn [app]; rewrite ?app_nil_r, <- ?app_assoc; reflexivity.
Qed.

Lemma urlunsplit_query_nonempty (scheme netloc url query fragment : str) :
  query <> [] -> urlunsplit scheme netloc url query fragment <> [].
Proof.
  intros Hq. rewrite urlunsplit_shape. destruct query as [|c q]; [done |].
  cbn [opt_part nonempty]. intros Hnil.
  apply app_eq_nil in Hnil as [_ Hnil].
  apply app_eq_nil in Hnil as [_ Hnil]. done.
Qed.

(** *** Cutting strings *)

Lemma break_at_stop (p : ascii -> bool) (a b : str) (c : ascii) :
  Forall (fun x => p x = false) a -> p c = true ->
  break_at p (a ++ c :: b) = (a, c :: b).
Proof.
  intros Ha Hc. induction Ha as [|x a Hx _ IH]; cbn [app break_at].
  - by rewrite Hc.
  - by rewrite Hx, IH.
Qed.

Lemma break_at_none (p : ascii -> bool) (a : str) :
  Forall (fun x => p x = false) a -> break_at p a = (a, []).
Proof.
  intros Ha. induction Ha as [|x a Hx _ IH]; cbn [break_at]; [done |].
  by rewrite Hx, IH.
Qed.

Lemma break_at_spec (p : ascii -> bool) (s a b : str) :
  break_at p s = (a, b) ->
  s = a ++ b /\ Forall (fun x => p x = false) a
  /\ match b with [] => True | c :: _ => p c = true end.
Proof.
  revert a b. induction s as [|x s IH]; intros a b.
  - intros [= <- <-]. by repeat split.
  - cbn [break_at]. destruct (p x) eqn:Hx.
    + intros [= <- <-]. by repeat split.
    + destruct (break_at p s) as [a' b'] eqn:E. intros [= <- <-].
      destruct (IH _ _ eq_refl) as (-> & Ha & Hb).
      split; [done |]. split; [by constructor | done].
Qed.

Lemma not_char (c : ascii) (a : str) :
  c ∉ a <-> Forall (fun x => eqb_char c x = false) a.
Proof.
  rewrite Forall_forall. split.
  - intros Hn x Hx. apply eqb_char_false. by intros <-.
  - intros Hall Hin. specialize (Hall _ Hin). by rewrite eqb_char_refl in Hall.
Qed.

Lemma cut_app (c : ascii) (a b : str) : c ∉ a -> cut c (a ++ c :: b) = (a, b).
Proof.
  intros Hn. unfold cut. rewrite break_at_stop; [done | | apply eqb_char_refl].
  by apply not_char.
Qed.

Lemma cut_none (c : ascii) (a : str) : c ∉ a -> cut c a = (a, []).
Proof.
  intros Hn. unfold cut. rewrite break_at_none; [done |]. by apply not_char.
Qed.

Lemma cut_spec (c : ascii) (s a b : str) :
  cut c s = (a, b) -> (c ∉ a) /\ (s = a /\ b = [] \/ s = a ++ c :: b).
Proof.
  unfold cut. destruct (break_at (eqb_char c) s) as [x y] eqn:E.
  destruct (break_at_spec _ _ _ _ E) as (-> & Hx & Hy).
  apply not_char in Hx. destruct y as [|c' y]; intros [= <- <-].
  - split; [done |]. left. by rewrite app_nil_r.
  - apply eqb_char_true in Hy. subst c'. split; [done | by right].
Qed.

Lemma cut_opt_part (c : ascii) (a b : str) :
  c ∉ a -> cut c (a ++ opt_part c b) = (a, b).
Proof.
  intros Hn. unfold opt_part. destruct b as [|x b]; cbn [nonempty].
  - rewrite app_nil_r. by apply cut_none.
  - by apply cut_app.
Qed.

Lemma clean_app (a b : str) : clean (a ++ b) <-> clean a /\ clean b.
Proof. apply Forall_app. Qed.

Lemma filter_clean (s : str) :
  clean s -> List.filter (fun c => negb (is_unsafe c)) s = s.
Proof.
  induction 1 as [|c s Hc _ IH]; [done |]. cbn [List.filter].
  by rewrite Hc, IH.
Qed.

Lemma clean_filter (s : str) :
  clean (List.filter (fun c => negb (is_unsafe c)) s).
Proof.
  induction s as [|c s IH]; [constructor |]. cbn [List.filter].
  destruct (is_unsafe c) eqn:E; [done |]. by constructor.
Qed.

(** *** Character facts, by enumeration *)

Lemma char_implies (P Q : ascii -> bool) :
  all256 (fun n => implb (P (ascii_of_N n)) (Q (ascii_of_N n))) = true ->
  forall c, P c = true -> Q c = true.
Proof.
  intros Hall c Hp.
  pose proof (all_chars (fun c => implb (P c) (Q c)) Hall c) as Hc.
  cbv beta in Hc. by rewrite Hp in Hc.
Qed.

Lemma scheme_char_lower (c : ascii) :
  is_scheme_char c = true ->
  is_scheme_char (lower_char c) = true
  /\ lower_char (lower_char c) = lower_char c
  /\ is_unsafe (lower_char c) = false
  /\ eqb_char ":" (lower_char c) = false
  /\ is_c0_or_space (lower_char c) = false.
Proof.
  intros Hc.
  pose proof (char_implies is_scheme_char
    (fun c => is_scheme_char (lower_char c)
              && eqb_char (lower_char (lower_char c)) (lower_char c)
              && negb (is_unsafe (lower_char c))
              && negb (eqb_char ":" (lower_char c))
              && negb (is_c0_or_space (lower_char c)))
    ltac:(by vm_compute) c Hc) as Hq.
  cbv beta in Hq. rewrite !andb_true_iff, !negb_true_iff in Hq.
  destruct Hq as [[[[? Hl] ?] ?] ?]. apply eqb_char_true in Hl. done.
Qed.

Lemma alpha_lower (c : ascii) :
  is_ascii c && is_alpha c = true ->
  is_ascii (lower_char c) && is_alpha (lower_char c) = true.
Proof.
  apply (char_implies (fun c => is_ascii c && is_alpha c)
           (fun c => is_ascii (lower_char c) && is_alpha (lower_char c))).
  by vm_compute.
Qed.

Lemma alpha_not_c0 (c : ascii) :
  is_alpha c = true -> is_c0_or_space c = false.
Proof.
  intros Hc. apply negb_true_iff. revert c Hc.
  apply (char_implies is_alpha (fun c => negb (is_c0_or_space c))).
  by vm_compute.
Qed.

Lemma query_char_facts (c : ascii) :
  is_query_char c = true ->
  is_unsafe c = false /\ eqb_char "#" c = false.
Proof.
  intros Hc.
  pose proof (char_implies is_query_char
    (fun c => negb (is_unsafe c) && negb (eqb_char "#" c))
    ltac:(by vm_compute) c Hc) as Hq.
  cbv beta in Hq. by rewrite !andb_true_iff, !negb_true_iff in Hq.
Qed.

Lemma urlencode_chars (d : qdict) :
  Forall (fun c => is_query_char c = true) (urlencode d).
Proof.
  rewrite urlencode_pairs. generalize (pairs_of d). intros ps.
  assert (Hq : forall s, Forall (fun c => is_query_char c = true) (quote_plus s)).
  { intros s. eapply Forall_impl; [apply quote_plus_quoted |].
    intros c Hc. unfold is_query_char. by rewrite Hc. }
  assert (Hp : forall nv, Forall (fun c => is_query_char c = true) (encode_pair nv)).
  { intros nv. unfold encode_pair. apply Forall_app. split; [apply Hq |].
    apply Forall_app. split; [| apply Hq]. by constructor. }
  induction ps as [|nv ps IH]; [constructor |].
  cbn [map Url.join]. destruct (map encode_pair ps) eqn:E; [apply Hp |].
  apply Forall_app. split; [apply Hp |].
  apply Forall_app. split; [by constructor | exact IH].
Qed.

Lemma urlencode_clean (d : qdict) : clean (urlencode d) /\ "#"%char ∉ urlencode d.
Proof.
  pose proof (urlencode_chars d) as Hq. split.
  - eapply Forall_impl; [exact Hq |]. intros c Hc. by apply query_char_facts.
  - apply not_char. eapply Forall_impl; [exact Hq |].
    intros c Hc. by apply query_char_facts.
Qed.

(** *** Schemes *)

Lemma lower_idem (s : str) :
  forallb is_scheme_char s = true -> lower (lower s) = lower s.
Proof.
  induction s as [|c s IH]; [done |]. cbn [forallb lower map].
  intros [Hc Hs]%andb_true_iff. f_equal; [by apply scheme_char_lower |].
  by apply IH.
Qed.

Lemma lower_scheme_chars (s : str) :
  forallb is_scheme_char s = true -> forallb is_scheme_char (lower s) = true.
Proof.
  induction s as [|c s IH]; [done |]. cbn [forallb lower map].
  intros [Hc Hs]%andb_true_iff. apply andb_true_iff.
  split; [by apply scheme_char_lower | by apply IH].
Qed.

Lemma lower_scheme_ok (s : str) :
  match s with
  | c0 :: _ => is_ascii c0 && is_alpha c0 && forallb is_scheme_char s = true
  | [] => False
  end ->
  scheme_ok (lower s) = true.
Proof.
  destruct s as [|c0 pre]; [done |]. intros Hs.
  apply andb_true_iff in Hs as [Ha Hall].
  pose proof (lower_idem _ Hall) as Hl.
  pose proof (lower_scheme_chars _ Hall) as Hc.
  unfold scheme_ok. cbn [lower map] in *.
  rewrite (alpha_lower _ Ha), Hc. cbn [andb]. by apply eqb_true.
Qed.

Lemma scheme_ok_facts (s : str) :
  scheme_ok s = true ->
  s <> [] /\ clean s /\ Forall (fun c => eqb_char ":" c = false) s
  /\ lower s = s
  /\ match s with c0 :: _ => is_ascii c0 && is_alpha c0 = true | [] => False end
  /\ forallb is_scheme_char s = true.
Proof.
  destruct s as [|c0 pre]; [done |]. unfold scheme_ok.
  rewrite !andb_true_iff. intros [[Ha Hall] Hl]. apply eqb_true in Hl.
  split; [done |].
  assert (Hf : Forall (fun c => is_unsafe c = false /\ eqb_char ":" c = false)
                 (c0 :: pre)).
  { rewrite <- Hl. unfold lower. apply Forall_forall. intros x Hx.
    apply list_elem_of_fmap in Hx as (y & -> & Hy).
    rewrite forallb_forall in Hall. apply list_elem_of_In in Hy.
    by destruct (scheme_char_lower _ (Hall _ Hy)) as (_ & _ & ? & ? & _). }
  split; [eapply Forall_impl; [exact Hf | by intros ? []] |].
  split; [eapply Forall_impl; [exact Hf | by intros ? []] |].
  done.
Qed.

Lemma split_scheme_found (s rest : str) :
  scheme_ok s = true -> split_scheme (s ++ ":" ++ rest) = (s, rest).
Proof.
  intros Hs. destruct (scheme_ok_facts _ Hs) as (Hne & _ & Hcolon & Hl & Ha & Hall).
  unfold split_scheme.
  change (s ++ ":" ++ rest) with (s ++ ":"%char :: rest).
  rewrite break_at_stop; [| done | done].
  destruct s as [|c0 pre]; [done |]. by rewrite Ha, Hall, Hl.
Qed.

Lemma split_scheme_slash (rest : str) :
  split_scheme ("/"%char :: rest) = ([], "/"%char :: rest).
Proof.
  unfold split_scheme. cbn [break_at]. change (eqb_char ":" "/") with false.
  cbn match. destruct (break_at (eqb_char ":") rest) as [a [|c b]]; done.
Qed.

Lemma split_scheme_spec (url s rest : str) :
  split_scheme url = (s, rest) ->
  (s = [] /\ rest = url) \/ (scheme_ok s = true /\ exists s0, url = s0 ++ ":"%char :: rest).
Proof.
  unfold split_scheme.
  destruct (break_at (eqb_char ":") url) as [pre after] eqn:E.
  destruct (break_at_spec _ _ _ _ E) as (-> & _ & _).
  destruct pre as [|c0 pre]; [intros [= <- <-]; by left |].
  destruct after as [|c after]; [intros [= <- <-]; by left |].
  pose proof (break_at_spec _ _ _ _ E) as (_ & _ & Hc).
  apply eqb_char_true in Hc. subst c.
  destruct (is_ascii c0 && is_alpha c0 && forallb is_scheme_char (c0 :: pre))
    eqn:Hok; [| intros [= <- <-]; by left].
  intros [= <- <-]. right. split; [| by eexists].
  apply (lower_scheme_ok (c0 :: pre)). exact Hok.
Qed.

(** *** Parameters of the last path segment *)

Lemma has_char_false (c : ascii) (s : str) : has_char c s = false <-> c ∉ s.
Proof.
  unfold has_char. rewrite not_char. induction s as [|x s IH]; cbn [existsb].
  - split; [constructor | done].
  - by rewrite orb_false_iff, Forall_cons, IH.
Qed.

Lemma has_char_true (c : ascii) (s : str) : has_char c s = true <-> c ∈ s.
Proof.
  destruct (has_char c s) eqn:E.
  - split; [| done]. intros _. destruct (decide (c ∈ s)) as [| Hn]; [done |].
    apply has_char_false in Hn. congruence.
  - apply has_char_false in E. split; [done | by intros ?].
Qed.

Lemma break_at_app (p : ascii -> bool) (a r : str) :
  Forall (fun x => p x = false) a ->
  match r with [] => True | c :: _ => p c = true end ->
  break_at p (a ++ r) = (a, r).
Proof.
  intros Ha Hr. destruct r as [|c r].
  - rewrite app_nil_r. by apply break_at_none.
  - by apply break_at_stop.
Qed.

Lemma rsplit_slash_spec (url front seg : str) :
  rsplit_slash url = (front, seg) ->
  url = front ++ seg
  /\ match seg with
     | [] => url = []
     | c :: seg' => ("/"%char ∉ seg') /\ (front = [] \/ c = "/"%char)
     end.
Proof.
  revert front seg. induction url as [|c url IH]; intros front seg.
  - by intros [= <- <-].
  - cbn [rsplit_slash]. destruct (has_char "/" url) eqn:Hs.
    + destruct (rsplit_slash url) as [a b] eqn:E. intros [= <- <-].
      destruct (IH _ _ eq_refl) as (Heq & Hb).
      split; [by rewrite Heq |]. destruct b as [|x b'].
      * by rewrite Hb in Hs.
      * destruct Hb as [Hb1 Hb2]. split; [done |]. right.
        destruct Hb2 as [-> | ->]; [| done].
        rewrite Heq in Hs. cbn [app has_char existsb] in Hs.
        apply orb_true_iff in Hs as [Hs | Hs]; [by apply eqb_char_true in Hs |].
        by apply has_char_true in Hs.
    + intros [= <- <-]. split; [done |]. apply has_char_false in Hs.
      split; [done | by left].
Qed.

Lemma rsplit_slash_build (front seg' : str) (c : ascii) :
  "/"%char ∉ seg' -> front = [] \/ c = "/"%char ->
  rsplit_slash (front ++ c :: seg') = (front, c :: seg').
Proof.
  intros Hs Hc. induction front as [|x fr IH]; cbn [app rsplit_slash].
  - apply has_char_false in Hs. by rewrite Hs.
  - destruct Hc as [? | ->]; [done |].
    assert (Hh : has_char "/" (fr ++ "/"%char :: seg') = true).
    { apply has_char_true, elem_of_app. right. by left. }
    rewrite Hh, IH; [done | by right].
Qed.

(** Printing the two results of [_splitparams] with a semicolon gives the
    text back, except that a semicolon at the very end is lost; and the
    printed text splits into the same two results. *)
Lemma splitparams_shape (url p par : str) :
  _splitparams url = (p, par) ->
  (with_params p par = url \/ (par = [] /\ url = p ++ ";"))
  /\ (has_char ";" (with_params p par) = true ->
      _splitparams (with_params p par) = (p, par)).
Proof.
  unfold _splitparams. destruct (rsplit_slash url) as [front seg] eqn:E.
  destruct (rsplit_slash_spec _ _ _ E) as (Hurl & Hseg).
  destruct (break_at (eqb_char ";") seg) as [a b] eqn:Eb.
  destruct (break_at_spec _ _ _ _ Eb) as (Hsegeq & Ha & Hb).
  destruct b as [|x b].
  - intros [= <- <-]. cbn [with_params nonempty]. split; [by left |].
    intros _. by rewrite E, Eb.
  - apply eqb_char_true in Hb. subst x. intros [= <- <-].
    destruct b as [|y b]; cbn [with_params nonempty].
    + split.
      { right. split; [done |]. rewrite Hurl, Hsegeq. by rewrite <- app_assoc. }
      intros Hh. destruct a as [|c a'].
      * rewrite Hsegeq in Hseg. cbn [app] in Hseg.
        destruct Hseg as [_ [-> | ?]]; done.
      * rewrite Hsegeq in Hseg. cbn [app] in Hseg. destruct Hseg as [Hs Hc].
        rewrite rsplit_slash_build; [| | done].
        -- by rewrite break_at_none.
        -- intros Hin. apply Hs, elem_of_app. by left.
    + split.
      { left. rewrite Hurl, Hsegeq. by rewrite <- app_assoc. }
      intros _.
      replace ((front ++ a) ++ ";" ++ y :: b) with url
        by (rewrite Hurl, Hsegeq; by rewrite <- app_assoc).
      by rewrite E, Eb.
Qed.

Lemma params_resplit (uses : bool) (url p par : str) :
  (if uses && has_char ";" url then _splitparams url else (url, [])) = (p, par) ->
  (with_params p par = url \/ (par = [] /\ url = p ++ ";"))
  /\ (if uses && has_char ";" (with_params p par)
      then _splitparams (with_params p par)
      else (with_params p par, [])) = (p, par).
Proof.
  destruct uses; cbn [andb].
  2:{ intros [= <- <-]. by split; [left |]. }
  destruct (has_char ";" url) eqn:Hh.
  2:{ intros [= <- <-]. cbn [with_params nonempty]. rewrite Hh. by split; [left |]. }
  intros Hsp. destruct (splitparams_shape _ _ _ Hsp) as [Hshape Hre].
  split; [done |].
  destruct (has_char ";" (with_params p par)) eqn:Hh2; [by apply Hre |].
  destruct Hshape as [Heq | [-> _]]; [| done].
  rewrite Heq in Hh2. congruence.
Qed.

(** *** Parsing what [urlunsplit] prints *)

Lemma drop_while_head (p : ascii -> bool) (s : str) :
  match s with [] => True | c :: _ => p c = false end -> drop_while p s = s.
Proof. destruct s as [|c s]; [done |]. cbn [drop_while]. by intros ->. Qed.

Lemma clean_opt_part (c : ascii) (s : str) :
  is_unsafe c = false -> clean s -> clean (opt_part c s).
Proof.
  intros Hc Hs. unfold opt_part. destruct s; [constructor |]. by constructor.
Qed.

Lemma not_in_opt_part (x c : ascii) (s : str) :
  x <> c -> x ∉ s -> x ∉ opt_part c s.
Proof.
  intros Hx Hs. unfold opt_part. destruct s as [|y s]; cbn [nonempty].
  - apply not_elem_of_nil.
  - intros [-> | Hin]%elem_of_cons; done.
Qed.

Section with_checks.
Context `{HostChecks}.

(** What [urlsplit] returns. *)
Lemma urlsplit_inv (u s n p0 q f : str) :
  urlsplit u = Some (s, n, p0, q, f) ->
  netloc_ok n = true
  /\ (s = [] \/ scheme_ok s = true)
  /\ Forall (fun c => has_char c "/?#" = false) n
  /\ ("#"%char ∉ p0) /\ ("?"%char ∉ p0) /\ ("#"%char ∉ q)
  /\ clean s /\ clean n /\ clean p0 /\ clean q /\ clean f
  /\ (n <> [] -> p0 = [] \/ exists t, p0 = "/"%char :: t).
Proof.
  unfold urlsplit.
  set (u2 := List.filter (fun c => negb (is_unsafe c)) (drop_while is_c0_or_space u)).
  assert (Hu2 : clean u2) by apply clean_filter.
  destruct (split_scheme u2) as [s' r1] eqn:E1.
  destruct (if startswith "//" r1 then _splitnetloc (drop 2 r1) else ([], r1))
    as [n' r2] eqn:E2.
  destruct (cut "#" r2) as [r3 f'] eqn:E3.
  destruct (cut "?" r3) as [p0' q'] eqn:E4.
  destruct (netloc_ok n') eqn:Hok; [| done].
  intros [= <- <- <- <- <-].
  (* the scheme *)
  assert (Hs : (s' = [] \/ scheme_ok s' = true) /\ clean s' /\ clean r1).
  { destruct (split_scheme_spec _ _ _ E1) as [[-> ->] | [Hs (s0 & Heq)]].
    - split; [by left |]. split; [constructor | done].
    - split; [by right |]. split; [by apply scheme_ok_facts |].
      rewrite Heq in Hu2. apply clean_app in Hu2 as [_ Hu2].
      by apply Forall_cons in Hu2 as [_ Hu2]. }
  destruct Hs as (Hs & Hcs & Hr1).
  (* the network location *)
  assert (Hn : Forall (fun c => has_char c "/?#" = false) n'
               /\ clean n' /\ clean r2
               /\ (n' <> [] ->
                   match r2 with
                   | [] => True
                   | c :: _ => has_char c "/?#" = true
                   end)).
  { destruct (startswith "//" r1) eqn:Hsl.
    2:{ injection E2 as <- <-.
        split; [constructor |]. split; [constructor |]. split; [done |].
        by intros []. }
    apply startswith_spec in Hsl as [rest ->].
    change ("//" ++ rest) with ("/"%char :: "/"%char :: rest) in *.
    change (drop 2 ("/"%char :: "/"%char :: rest)) with rest in E2.
    unfold _splitnetloc in E2.
    destruct (break_at_spec _ _ _ _ E2) as (Heq & Hn & Hr2).
    apply Forall_cons in Hr1 as [_ Hr1]. apply Forall_cons in Hr1 as [_ Hr1].
    rewrite Heq in Hr1. apply clean_app in Hr1 as [? ?].
    by repeat split. }
  destruct Hn as (Hn & Hcn & Hr2 & Hhead).
  (* fragment and query *)
  destruct (cut_spec _ _ _ _ E3) as [Hf3 Hr3].
  destruct (cut_spec _ _ _ _ E4) as [Hq4 Hp0].
  assert (Hc3 : clean r3 /\ clean f').
  { destruct Hr3 as [[-> ->] | ->]; [split; [done | constructor] |].
    apply clean_app in Hr2 as [? Hr2]. by apply Forall_cons in Hr2 as [_ ?]. }
  destruct Hc3 as [Hc3 Hcf].
  assert (Hc4 : clean p0' /\ clean q' /\ ("#"%char ∉ p0') /\ ("#"%char ∉ q')).
  { destruct Hp0 as [[-> ->] | ->].
    - split; [done |]. split; [constructor |]. split; [done |]. apply not_elem_of_nil.
    - apply clean_app in Hc3 as [? Hc3]. apply Forall_cons in Hc3 as [_ ?].
      split; [done |]. split; [done |].
      rewrite elem_of_app, elem_of_cons in Hf3. split; intros ?; apply Hf3; auto. }
  destruct Hc4 as (Hcp & Hcq & Hp0h & Hqh).
  repeat (split; [done |]).
  (* the path after a network location *)
  intros Hne. specialize (Hhead Hne).
  destruct p0' as [|c t]; [by left |]. right. exists t.
  assert (Hr2eq : exists tail, r2 = (c :: t) ++ tail).
  { destruct Hr3 as [[-> _] | ->]; destruct Hp0 as [[-> _] | ->].
    - exists []. by rewrite app_nil_r.
    - by eexists.
    - by eexists.
    - rewrite <- app_assoc. by eexists. }
  destruct Hr2eq as [tail ->]. cbn [app] in Hhead.
  assert (Hc : c <> "?"%char /\ c <> "#"%char).
  { split; intros ->; [apply Hq4 | apply Hp0h]; apply elem_of_cons; by left. }
  destruct Hc as [Hc1 Hc2]. f_equal.
  cbn [has_char existsb list_ascii_of_string] in Hhead.
  rewrite !orb_true_iff in Hhead.
  destruct Hhead as [Hh | [Hh | [Hh | Hh]]]; try done;
    apply eqb_char_true in Hh; congruence.
Qed.

Lemma with_pagination_param_nonempty (url param : str) (page : Z) (guess : str) :
  _with_pagination_param url param page = Some guess -> guess <> [].
Proof.
  unfold _with_pagination_param. destruct (urlparse url) as [p|]; [| done].
  cbn [mbind option_bind]. intros [= <-]. unfold urlunparse.
  apply urlunsplit_query_nonempty. cbn [query with_query].
  apply urlencode_set_nonempty.
Qed.

(** [urlsplit] takes apart what [urlunsplit] prints after two slashes. *)
Lemma urlsplit_printed (s n P q f : str) :
  s = [] \/ scheme_ok s = true ->
  netloc_ok n = true ->
  Forall (fun c => has_char c "/?#" = false) n ->
  P = [] \/ (exists t, P = "/"%char :: t) ->
  "#"%char ∉ P -> "?"%char ∉ P -> "#"%char ∉ q ->
  clean s -> clean n -> clean P -> clean q -> clean f ->
  urlsplit (scheme_part s ++ "//" ++ n ++ P ++ opt_part "?" q ++ opt_part "#" f)
  = Some (s, n, P, q, f).
Proof.
  intros Hs Hok Hn HP HPh HPq Hqh Hcs Hcn HcP Hcq Hcf.
  set (tail := P ++ opt_part "?" q ++ opt_part "#" f).
  set (rest := n ++ tail).
  assert (Hclean : clean (scheme_part s ++ "//" ++ rest)).
  { apply clean_app. split.
    - unfold scheme_part. destruct (nonempty s); [| constructor].
      apply clean_app. split; [done | by constructor].
    - do 2 (constructor; [done |]). apply clean_app. split; [done |].
      apply clean_app. split; [done |].
      apply clean_app. split; by apply clean_opt_part. }
  assert (Hdrop : drop_while is_c0_or_space (scheme_part s ++ "//" ++ rest)
                  = scheme_part s ++ "//" ++ rest).
  { apply drop_while_head. destruct Hs as [-> | Hs]; [done |].
    destruct (scheme_ok_facts _ Hs) as (_ & _ & _ & _ & Ha & _).
    destruct s as [|c0 pre]; [done |]. cbn [scheme_part nonempty app].
    apply andb_true_iff in Ha as [_ Ha]. by apply alpha_not_c0. }
  assert (Hscheme : split_scheme (scheme_part s ++ "//" ++ rest) = (s, "//" ++ rest)).
  { destruct Hs as [-> | Hs]; [apply split_scheme_slash |].
    unfold scheme_part. destruct s as [|c0 pre]; [done |]. cbn [nonempty].
    rewrite <- app_assoc. by apply split_scheme_found. }
  assert (Htail : match tail with
                  | [] => True
                  | c :: _ => has_char c "/?#" = true
                  end).
  { unfold tail. destruct HP as [-> | [t ->]]; [| done].
    cbn [app]. unfold opt_part. destruct q; [| done]. by destruct f. }
  assert (Hnet : _splitnetloc rest = (n, tail)) by (by apply break_at_app).
  assert (Hfrag : cut "#" tail = (P ++ opt_part "?" q, f)).
  { unfold tail. rewrite app_assoc. apply cut_opt_part.
    intros [Hin | Hin]%elem_of_app; [done |]. by apply not_in_opt_part in Hin. }
  assert (Hquery : cut "?" (P ++ opt_part "?" q) = (P, q)) by (by apply cut_opt_part).
  unfold urlsplit. rewrite Hdrop, (filter_clean _ Hclean), Hscheme.
  change (startswith "//" ("//" ++ rest)) with true.
  change (drop 2 ("//" ++ rest)) with rest.
  by rewrite Hnet, Hfrag, Hquery, Hok.
Qed.

Lemma urlparse_inv (u : str) (pr : ParseResult) :
  urlparse u = Some pr ->
  exists p0,
    urlsplit u = Some (scheme pr, netloc pr, p0, query pr, fragment pr)
    /\ (if mem (scheme pr) uses_params && has_char ";" p0
        then _splitparams p0 else (p0, [])) = (path pr, params pr).
Proof.
  unfold urlparse. destruct (urlsplit u) as [[[[[s n] p0] q] f]|]; [| done].
  cbn [mbind option_bind].
  destruct (if mem s uses_params && has_char ";" p0 then _ else _)
    as [p par] eqn:E.
  intros [= <-]. by exists p0.
Qed.

(** A URL with a network location, printed with another query, parses into
    the same components and that query. *)
Lemma urlparse_urlunparse (u q' : str) (pr : ParseResult) :
  urlparse u = Some pr -> netloc pr <> [] ->
  clean q' -> "#"%char ∉ q' ->
  urlparse (urlunparse (with_query pr q')) = Some (with_query pr q').
Proof.
  intros Hp Hne Hcq Hhq.
  destruct (urlparse_inv _ _ Hp) as (p0 & Hsplit & Hpar).
  destruct pr as [s n p par q f].
  cbn [scheme netloc path params query fragment] in *.
  destruct (urlsplit_inv _ _ _ _ _ _ Hsplit)
    as (Hok & Hs & Hn & Hp0h & Hp0q & _ & Hcs & Hcn & Hcp0 & _ & Hcf & Hhead).
  specialize (Hhead Hne).
  destruct (params_resplit _ _ _ _ Hpar) as [Hshape Hre].
  assert (HP : clean (with_params p par)
               /\ ("#"%char ∉ with_params p par)
               /\ ("?"%char ∉ with_params p par)
               /\ (with_params p par = []
                   \/ exists t, with_params p par = "/"%char :: t)).
  { destruct Hshape as [-> | [-> ->]]; [done |].
    cbn [with_params nonempty].
    apply clean_app in Hcp0 as [? _]. rewrite elem_of_app in Hp0h, Hp0q.
    split; [done |]. split; [tauto |]. split; [tauto |].
    destruct p as [|c p']; [by left |]. right.
    destruct Hhead as [Hnil | [t Ht]]; [done |].
    injection Ht as -> _. by eexists. }
  destruct HP as (HcP & HPh & HPq & HPhead).
  assert (Hout : urlunparse (with_query
                   {| scheme := s; netloc := n; path := p; params := par;
                      query := q; fragment := f |} q')
                 = scheme_part s ++ "//" ++ n ++ with_params p par
                   ++ opt_part "?" q' ++ opt_part "#" f).
  { unfold urlunparse, with_query.
    cbn [scheme netloc path params query fragment].
    fold (with_params p par). rewrite urlunsplit_shape. unfold hier_part.
    destruct n as [|c0 n']; [done |]. cbn [nonempty orb].
    destruct HPhead as [-> | [t ->]]; [| rewrite eqb_char_refl];
      by rewrite <- !app_assoc. }
  rewrite Hout. unfold urlparse.
  rewrite urlsplit_printed by done.
  cbn [mbind option_bind]. by rewrite Hre.
Qed.

(** The network location of [scheme://netloc/...]. *)
Lemma urlparse_origin (s n t : str) (p : ParseResult) :
  scheme_ok s = true -> clean n ->
  Forall (fun c => has_char c "/?#" = false) n ->
  urlparse (s ++ ":" ++ "//" ++ n ++ "/"%char :: t) = Some p ->
  netloc p = n.
Proof.
  intros Hs Hcn Hn Hp. apply urlparse_inv in Hp as (p0 & Hsplit & _).
  revert Hsplit. unfold urlsplit.
  destruct (scheme_ok_facts _ Hs) as (_ & Hcs & _ & _ & Ha & _).
  rewrite drop_while_head.
  2:{ destruct s as [|c0 pre]; [done |]. cbn [app].
      apply andb_true_iff in Ha as [_ Ha]. by apply alpha_not_c0. }
  rewrite !List.filter_app, (filter_clean s), (filter_clean ":"),
    (filter_clean "//"), (filter_clean n) by (done || by repeat constructor).
  cbn [List.filter]. change (negb (is_unsafe "/")) with true. cbn match.
  rewrite split_scheme_found by done.
  set (t' := List.filter _ t).
  change (startswith "//" ("//" ++ n ++ "/"%char :: t')) with true.
  change (drop 2 ("//" ++ n ++ "/"%char :: t')) with (n ++ "/"%char :: t').
  unfold _splitnetloc. rewrite break_at_stop by done.
  destruct (cut "#" _) as [r3 f']. destruct (cut "?" r3) as [p0' q'].
  destruct (netloc_ok n); [| done]. by intros [= _ -> _ _ _].
Qed.

(** The query that [_normalize_product_url] prints. *)
Lemma kept_query (q : str) :
  let kept := List.filter (fun kv => negb (is_tracking (fst kv))) (parse_qs q) in
  parse_qs (urlencode kept) = kept
  /\ List.filter (fun kv => negb (is_tracking (fst kv))) kept = kept
  /\ clean (urlencode kept) /\ ("#"%char ∉ urlencode kept).
Proof.
  intros kept. split; [| split].
  - apply parse_qs_urlencode, filter_wf, parse_qs_wf.
  - unfold kept. generalize (parse_qs q). intros d.
    induction d as [|kv d IH]; [done |]. cbn [List.filter].
    destruct (negb (is_tracking (fst kv))) eqn:E; [| done].
    cbn [List.filter]. by rewrite E, IH.
  - apply urlencode_clean.
Qed.

(** For a URL with a network location, normalizing changes the query only,
    and normalizing the result changes nothing. *)
Lemma normalize_with_netloc (u : str) (pr : ParseResult) :
  urlparse u = Some pr -> netloc pr <> [] ->
  let kept :=
    List.filter (fun kv => negb (is_tracking (fst kv))) (parse_qs (query pr)) in
  let a := urlunparse (with_query pr (urlencode kept)) in
  _normalize_product_url u = Some a
  /\ urlparse a = Some (with_query pr (urlencode kept))
  /\ _normalize_product_url a = Some a.
Proof.
  intros Hp Hne kept a.
  destruct (kept_query (query pr)) as (Hround & Hfilter & Hclean & Hhash).
  fold kept in Hround, Hfilter, Hclean, Hhash.
  assert (Hpa : urlparse a = Some (with_query pr (urlencode kept)))
    by (by apply urlparse_urlunparse with (u := u)).
  split; [| split; [done |]].
  - unfold _normalize_product_url. rewrite Hp. done.
  - unfold _normalize_product_url. rewrite Hpa.
    cbn [mbind option_bind query with_query].
    by rewrite Hround, Hfilter.
Qed.

(** C6, amended.  For a URL that has a network location,
    [_normalize_product_url] returns a URL with the same scheme, network
    location, path, path parameters and fragment, whose query holds the
    parameters of the input that have a value that is not blank and a name
    outside the tracking set, and no others; no tracking parameter is in
    it, and normalizing it again returns it unchanged. *)
Theorem normalize_strips_tracking_parameters (u : str) (p : ParseResult) :
  urlparse u = Some p ->
  netloc p <> [] ->
  exists a p',
    _normalize_product_url u = Some a
    /\ urlparse a = Some p'
    /\ scheme p' = scheme p /\ netloc p' = netloc p /\ path p' = path p
    /\ params p' = params p /\ fragment p' = fragment p
    /\ parse_qs (query p')
       = List.filter (fun kv => negb (is_tracking (fst kv))) (parse_qs (query p))
    /\ Forall (fun kv => is_tracking (fst kv) = false) (parse_qs (query p'))
    /\ _normalize_product_url a = Some a.
Proof.
  intros Hp Hne.
  destruct (normalize_with_netloc u p Hp Hne) as (Hn & Hpa & Hidem).
  destruct (kept_query (query p)) as (Hround & _).
  eexists _, _. split; [exact Hn |]. split; [exact Hpa |].
  cbn [scheme netloc path params query fragment with_query].
  do 5 (split; [reflexivity |]). split; [exact Hround |]. split; [| exact Hidem].
  rewrite Hround. apply Forall_forall. intros kv Hkv.
  apply list_elem_of_In, filter_In in Hkv as [_ Hkv]. by apply negb_true_iff.
Qed.

End with_checks.

(** *** Examples *)

Section examples.

#[local] Existing Instance Sites.permissive.

(** C6, as stated, fails.  A parameter outside the tracking set is removed
    when its value is blank; a path that is not absolute is changed; and
    normalizing is not idempotent on a URL of four slashes. *)
Lemma normalize_drops_blank_values_and_is_not_idempotent :
  is_tracking "size" = false
  /\ _normalize_product_url "https://shop.example/products/tee?size=&color=red"
     = Some ("https://shop.example/products/tee?color=red" : str)
  /\ _normalize_product_url "http:foo" = Some ("http:///foo" : str)
  /\ _normalize_product_url "////" = Some ("//" : str)
  /\ _normalize_product_url "//" = Some [].
Proof. repeat split; by vm_compute. Qed.

Lemma normalize_strips_tracking_parameters_witness :
  _normalize_product_url
    "https://shop.example/products/tee?utm_source=mail&size=m&gclid=7#top"
  = Some ("https://shop.example/products/tee?size=m#top" : str)
  /\ _normalize_product_url "https://shop.example/products/tee?size=m#top"
     = Some ("https://shop.example/products/tee?size=m#top" : str).
Proof.
  destruct (urlparse
              "https://shop.example/products/tee?utm_source=mail&size=m&gclid=7#top")
    as [p|] eqn:Hp.
  2:{ vm_compute in Hp. discriminate Hp. }
  assert (Hne : netloc p <> []).
  { vm_compute in Hp. injection Hp as <-. discriminate. }
  destruct (normalize_strips_tracking_parameters _ p Hp Hne)
    as (a & p' & Hn & _ & _ & _ & _ & _ & _ & _ & _ & Hidem).
  assert (Ha : a = ("https://shop.example/products/tee?size=m#top" : str)).
  { vm_compute in Hn. by injection Hn as <-. }
  rewrite Ha in Hn, Hidem. by split.
Defined.

End examples.

End UrlFacts.

(** ** The pagination strategies: dedup, budget, termination, fallback *)

Module CrawlFacts.
Import PyStr Url UrlOps UrlFacts Text Json Browser Config Crawl.

Section crawl.
Context `{HostChecks}.
Variable urljoin : str -> str -> option str.
Variable config : ScrapeConfig.
Variable world : World.

Abbreviation absorb := (absorb config).
Abbreviation budget_reached := (budget_reached config).
Abbreviation crawl_page := (crawl_page urljoin config world).
Abbreviation crawl_loop := (crawl_loop urljoin config world).
Abbreviation crawl_generic := (crawl_generic urljoin config world).
Abbreviation absorb_handles := (absorb_handles urljoin config).
Abbreviation shopify_loop := (shopify_loop urljoin config world).
Abbreviation after_turns := (after_turns urljoin config world).
Abbreviation shopify_head := (shopify_head urljoin config world).
Abbreviation _crawl_shopify_catalog_urls :=
  (_crawl_shopify_catalog_urls urljoin config world).
Abbreviation _crawl_catalog_urls := (_crawl_catalog_urls urljoin config world).

Abbreviation within_budget := (within_budget config).
Abbreviation shopify_inv := (shopify_inv urljoin config).
Abbreviation product_urls_have_netloc := (product_urls_have_netloc urljoin config).

Lemma dedup_inv_unique (collected : list str) (seen : gset str) :
  dedup_inv collected seen -> unique_under_normalization collected.
Proof.
  intros (ns & Hf & Hnd & _) i j u v n Hi Hj Hu Hv.
  destruct (Forall2_lookup_l _ _ _ _ _ Hf Hi) as (n1 & Hn1 & Hu1).
  destruct (Forall2_lookup_l _ _ _ _ _ Hf Hj) as (n2 & Hn2 & Hv2).
  rewrite Hu in Hu1. rewrite Hv in Hv2.
  injection Hu1 as <-. injection Hv2 as <-.
  by eapply NoDup_lookup.
Qed.

Lemma dedup_inv_empty : dedup_inv [] ∅.
Proof. exists []. split; [constructor |]. split; [constructor |]. set_solver. Qed.

Lemma dedup_inv_add (collected : list str) (seen : gset str) (url n : str) :
  dedup_inv collected seen ->
  _normalize_product_url url = Some n ->
  n ∉ seen ->
  dedup_inv (collected ++ [url]) ({[n]} ∪ seen).
Proof.
  intros (ns & Hf & Hnd & Hs) Hn Hnot. exists (ns ++ [n]).
  split; [| split].
  - apply Forall2_app; [done |]. by constructor.
  - apply NoDup_app. split; [done |]. split.
    + intros x Hx Hx'. apply list_elem_of_singleton in Hx' as ->.
      by apply Hnot, Hs.
    + apply NoDup_singleton.
  - intros x. rewrite elem_of_union, elem_of_singleton, elem_of_app,
      list_elem_of_singleton, Hs. tauto.
Qed.

Lemma budget_reached_false (l : list str) :
  budget_reached l = false <-> Z.of_nat (length l) < max_products config.
Proof. unfold Crawl.budget_reached. rewrite Z.leb_gt. tauto. Qed.

Lemma budget_reached_true (l : list str) :
  budget_reached l = true <-> max_products config <= Z.of_nat (length l).
Proof. unfold Crawl.budget_reached. rewrite Z.leb_le. tauto. Qed.

(** The [for] loop of the generic crawl only appends, and [new_count]
    counts what it appends. *)
Lemma absorb_shape (product_urls : list str) :
  forall (collected : list str) (seen : gset str) (new_count : Z)
         (collected' : list str) (seen' : gset str) (new_count' : Z),
    absorb product_urls collected seen new_count
      = Ret (collected', seen', new_count') ->
    exists added, collected' = collected ++ added
                  /\ new_count' = new_count + Z.of_nat (length added)
                  /\ (product_urls = [] -> added = []).
Proof.
  induction product_urls as [|url rest IH];
    intros collected seen k collected' seen' k' Hrun.
  - injection Hrun as <- <- <-. exists [].
    rewrite app_nil_r. split; [done |]. split; [simpl; lia | done].
  - cbn [Crawl.absorb] in Hrun.
    destruct (_normalize_product_url url) as [n|] eqn:Hn; [| done].
    cbn [of_option mbind outcome_bind] in Hrun.
    case_bool_decide as Hseen.
    + destruct (IH _ _ _ _ _ _ Hrun) as (added & -> & -> & _).
      exists added. by repeat split.
    + destruct (budget_reached (collected ++ [url])) eqn:Hb.
      * injection Hrun as <- <- <-. exists [url].
        split; [done |]. split; [simpl; lia | done].
      * destruct (IH _ _ _ _ _ _ Hrun) as (added & -> & -> & _).
        exists (url :: added). rewrite <- app_assoc.
        split; [done |]. split; [simpl length; lia | done].
Qed.

(** It stops at the budget. *)
Lemma absorb_budget (product_urls : list str) :
  forall (collected : list str) (seen : gset str) (new_count : Z)
         (collected' : list str) (seen' : gset str) (new_count' : Z),
    Z.of_nat (length collected) < max_products config ->
    absorb product_urls collected seen new_count
      = Ret (collected', seen', new_count') ->
    within_budget collected'.
Proof.
  induction product_urls as [|url rest IH];
    intros collected seen k collected' seen' k' Hlt Hrun.
  - injection Hrun as <- <- <-. unfold Crawl.within_budget. lia.
  - cbn [Crawl.absorb] in Hrun.
    destruct (_normalize_product_url url) as [n|] eqn:Hn; [| done].
    cbn [of_option mbind outcome_bind] in Hrun.
    case_bool_decide as Hseen; [by eapply IH |].
    destruct (budget_reached (collected ++ [url])) eqn:Hb.
    + injection Hrun as <- <- <-. unfold Crawl.within_budget.
      rewrite length_app. simpl. lia.
    + apply budget_reached_false in Hb. by eapply IH.
Qed.

(** It keeps the dedup invariant. *)
Lemma absorb_dedup (product_urls : list str) :
  forall (collected : list str) (seen : gset str) (new_count : Z)
         (collected' : list str) (seen' : gset str) (new_count' : Z),
    dedup_inv collected seen ->
    absorb product_urls collected seen new_count
      = Ret (collected', seen', new_count') ->
    dedup_inv collected' seen'.
Proof.
  induction product_urls as [|url rest IH];
    intros collected seen k collected' seen' k' Hinv Hrun.
  - by injection Hrun as <- <- <-.
  - cbn [Crawl.absorb] in Hrun.
    destruct (_normalize_product_url url) as [n|] eqn:Hn; [| done].
    cbn [of_option mbind outcome_bind] in Hrun.
    case_bool_decide as Hseen; [by eapply IH |].
    pose proof (dedup_inv_add _ _ _ _ Hinv Hn Hseen) as Hinv'.
    destruct (budget_reached (collected ++ [url])) eqn:Hb.
    + by injection Hrun as <- <- <-.
    + by eapply IH.
Qed.

(** *** One turn of the generic loop *)

Lemma advance_keeps (s : CrawlState) (productive : bool)
    (next_url fallback_url : option str) :
  let s' := state_of (advance s productive next_url fallback_url) in
  collected s' = collected s /\ seen_products s' = seen_products s
  /\ visited_pages s' = visited_pages s /\ nav_log s' = nav_log s.
Proof.
  unfold advance. repeat case_match; by cbn.
Qed.

(** What a turn that returns has done. *)
Lemma crawl_page_inv (s : CrawlState) (current : str) (r : step_result) :
  crawl_page s current = Ret r ->
  (current ∈ visited_pages s /\ r = Done s)
  \/ ((current ∉ visited_pages s)
      /\ exists page urls0 product_urls scrolls collected' seen' new_count
                next_url fallback_url,
          goto world current = Some page
          /\ _collect_product_urls urljoin config (snapshot page 0) = Ret urls0
          /\ _maybe_scroll_for_more urljoin config page
               (scroll_attempts world current) urls0 = Ret (product_urls, scrolls)
          /\ absorb product_urls (collected s) (seen_products s) 0
             = Ret (collected', seen', new_count)
          /\ _find_next_page_url urljoin config (snapshot page scrolls) current
               (page_index s + 1) = Ret (next_url, fallback_url)
          /\ r = advance
                   {| collected := collected';
                      seen_products := seen';
                      visited_pages := {[current]} ∪ visited_pages s;
                      current_url := current_url s;
                      pending_fallback := pending_fallback s;
                      page_index := page_index s;
                      nav_log := nav_log s ++ [current] |}
                   (match product_urls with
                    | [] => false
                    | _ => negb (new_count =? 0)
                    end)
                   next_url fallback_url).
Proof.
  unfold Crawl.crawl_page. case_bool_decide as Hv.
  - intros [= <-]. by left.
  - intros Hrun. right. split; [done |].
    destruct (goto world current) as [page|]; [| done].
    cbn [of_option mbind outcome_bind] in Hrun.
    destruct (_collect_product_urls urljoin config (snapshot page 0))
      as [urls0|] eqn:E1; [| done].
    cbn [mbind outcome_bind] in Hrun.
    destruct (_maybe_scroll_for_more _ _ _ _ urls0)
      as [[product_urls scrolls]|] eqn:E2; [| done].
    cbn [mbind outcome_bind] in Hrun.
    destruct (absorb product_urls (collected s) (seen_products s) 0)
      as [[[collected' seen'] new_count]|] eqn:E3; [| done].
    cbn [mbind outcome_bind] in Hrun.
    destruct (_find_next_page_url _ _ _ _ _)
      as [[next_url fallback_url]|] eqn:E4; [| done].
    cbn [mbind outcome_bind] in Hrun. injection Hrun as <-.
    by exists page, urls0, product_urls, scrolls, collected', seen', new_count,
      next_url, fallback_url.
Qed.

Lemma crawl_page_dedup (s : CrawlState) (current : str) (r : step_result) :
  dedup_inv (collected s) (seen_products s) ->
  crawl_page s current = Ret r ->
  dedup_inv (collected (state_of r)) (seen_products (state_of r)).
Proof.
  intros Hinv Hrun.
  destruct (crawl_page_inv _ _ _ Hrun) as [[_ ->] | [_ Hr]]; [done |].
  destruct Hr as (page & urls0 & product_urls & scrolls & collected' & seen'
                  & new_count & next_url & fallback_url
                  & _ & _ & _ & Habsorb & _ & ->).
  destruct (advance_keeps
              {| collected := collected'; seen_products := seen';
                 visited_pages := {[current]} ∪ visited_pages s;
                 current_url := current_url s;
                 pending_fallback := pending_fallback s;
                 page_index := page_index s;
                 nav_log := nav_log s ++ [current] |}
              (match product_urls with [] => false | _ => negb (new_count =? 0) end)
              next_url fallback_url) as (-> & -> & _).
  by eapply absorb_dedup.
Qed.

Lemma crawl_page_budget (s : CrawlState) (current : str) (r : step_result) :
  Z.of_nat (length (collected s)) < max_products config ->
  crawl_page s current = Ret r ->
  within_budget (collected (state_of r)).
Proof.
  intros Hlt Hrun.
  destruct (crawl_page_inv _ _ _ Hrun) as [[_ ->] | [_ Hr]].
  { unfold Crawl.within_budget. simpl. lia. }
  destruct Hr as (page & urls0 & product_urls & scrolls & collected' & seen'
                  & new_count & next_url & fallback_url
                  & _ & _ & _ & Habsorb & _ & ->).
  destruct (advance_keeps
              {| collected := collected'; seen_products := seen';
                 visited_pages := {[current]} ∪ visited_pages s;
                 current_url := current_url s;
                 pending_fallback := pending_fallback s;
                 page_index := page_index s;
                 nav_log := nav_log s ++ [current] |}
              (match product_urls with [] => false | _ => negb (new_count =? 0) end)
              next_url fallback_url) as (-> & _).
  by eapply absorb_budget.
Qed.

Lemma crawl_page_log (s : CrawlState) (current : str) (r : step_result) :
  log_inv s ->
  crawl_page s current = Ret r ->
  log_inv (state_of r)
  /\ (nav_log (state_of r) = nav_log s
      \/ nav_log (state_of r) = nav_log s ++ [current]).
Proof.
  intros [Hnd Hv] Hrun.
  destruct (crawl_page_inv _ _ _ Hrun) as [[_ ->] | [Hnew Hr]].
  { split; [done | by left]. }
  destruct Hr as (page & urls0 & product_urls & scrolls & collected' & seen'
                  & new_count & next_url & fallback_url
                  & _ & _ & _ & _ & _ & ->).
  destruct (advance_keeps
              {| collected := collected'; seen_products := seen';
                 visited_pages := {[current]} ∪ visited_pages s;
                 current_url := current_url s;
                 pending_fallback := pending_fallback s;
                 page_index := page_index s;
                 nav_log := nav_log s ++ [current] |}
              (match product_urls with [] => false | _ => negb (new_count =? 0) end)
              next_url fallback_url) as (_ & _ & Hvis & Hlog).
  split; [| by right]. unfold log_inv. rewrite Hvis, Hlog. cbn. split.
  - apply NoDup_app. split; [done |]. split; [| apply NoDup_singleton].
    intros x Hx Hx'. apply list_elem_of_singleton in Hx' as ->.
    by apply Hnew, Hv.
  - intros u. rewrite elem_of_union, elem_of_singleton, elem_of_app,
      list_elem_of_singleton, Hv. tauto.
Qed.

(** A turn that continues leaves less room. *)
Lemma crawl_page_room (s s' : CrawlState) (current : str) :
  Z.of_nat (length (collected s)) < max_products config ->
  crawl_page s current = Ret (Continue s') ->
  (room config s' < room config s)%nat.
Proof.
  intros Hlt Hrun.
  destruct (crawl_page_inv _ _ _ Hrun) as [[_ [=]] | [_ Hr]].
  destruct Hr as (page & urls0 & product_urls & scrolls & collected' & seen'
                  & new_count & next_url & fallback_url
                  & _ & _ & _ & Habsorb & _ & Hadv).
  destruct (absorb_shape _ _ _ _ _ _ _ Habsorb) as (added & -> & Hcount & Hnil).
  unfold advance in Hadv. cbn in Hadv.
  destruct (match product_urls with [] => false | _ => negb (new_count =? 0) end)
    eqn:Hprod; cbn in Hadv.
  - (* productive: something was appended *)
    assert (Hadded : (1 <= length added)%nat).
    { destruct product_urls; [done |].
      apply negb_true_iff, Z.eqb_neq in Hprod. lia. }
    destruct (negb (Text.truthy next_url) || _); [done |].
    injection Hadv as ->. unfold room. cbn. rewrite length_app.
    repeat match goal with
           | |- context [if ?c then 1%nat else 0%nat] => destruct c
           end; lia.
  - (* not productive: nothing was appended, the fallback is used up *)
    assert (Hadded : added = []).
    { destruct product_urls; [by apply Hnil |].
      apply negb_false_iff, Z.eqb_eq in Hprod.
      destruct added; [done | simpl in Hcount; lia]. }
    subst added. rewrite app_nil_r in Hadv.
    destruct (Text.truthy (pending_fallback s) && negb _) eqn:Hcond; [| done].
    injection Hadv as ->.
    apply andb_true_iff in Hcond as [Hp _].
    unfold room. cbn. rewrite Hp. lia.
Qed.

(** *** The generic loop as a whole *)

(** A property that every turn keeps holds when the loop returns. *)
Lemma crawl_loop_keeps (P : CrawlState -> Prop) :
  (forall s current r,
     P s -> Z.of_nat (length (collected s)) < max_products config ->
     crawl_page s current = Ret r -> P (state_of r)) ->
  forall fuel s s', P s -> crawl_loop fuel s = Some (Ret s') -> P s'.
Proof.
  intros Hstep. induction fuel as [|fuel IH]; intros s s' HP Hrun; [done |].
  cbn [Crawl.crawl_loop] in Hrun.
  destruct (current_url s) as [[|c u]|]; [by injection Hrun as <- | |
                                          by injection Hrun as <-].
  destruct (budget_reached (collected s)) eqn:Hb; [by injection Hrun as <- |].
  apply budget_reached_false in Hb.
  destruct (crawl_page s (c :: u)) as [[s1|s1]|] eqn:Hpage; [| | done].
  - apply (IH s1); [| done]. by apply (Hstep _ _ _ HP Hb Hpage).
  - injection Hrun as <-. by apply (Hstep _ _ _ HP Hb Hpage).
Qed.

(** ... and at the head of the loop after any number of turns. *)
Lemma after_turns_keeps (P : CrawlState -> Prop) :
  (forall s current r,
     P s -> Z.of_nat (length (collected s)) < max_products config ->
     crawl_page s current = Ret r -> P (state_of r)) ->
  forall n s s', P s -> after_turns n s = Some s' -> P s'.
Proof.
  intros Hstep. induction n as [|n IH]; intros s s' HP Hrun.
  - by injection Hrun as <-.
  - cbn [Crawl.after_turns] in Hrun.
    destruct (current_url s) as [[|c u]|]; try done.
    destruct (budget_reached (collected s)) eqn:Hb; [done |].
    apply budget_reached_false in Hb.
    destruct (crawl_page s (c :: u)) as [[s1|s1]|] eqn:Hpage; try done.
    apply (IH s1); [| done]. by apply (Hstep _ _ _ HP Hb Hpage).
Qed.



Lemma log_inv_initial (start_url : str) : log_inv (initial start_url).
Proof. split; [constructor | set_solver]. Qed.


(** *** The fast path *)

Lemma shopify_inv_empty : shopify_inv [] ∅.
Proof. split; [constructor |]. split; [set_solver | constructor]. Qed.

Lemma shopify_inv_add (collected : list str) (seen : gset str)
    (handle u n : str) :
  shopify_inv collected seen ->
  urljoin (base_url config) ("/products/" ++ handle) = Some u ->
  _normalize_product_url u = Some n ->
  n ∉ seen ->
  shopify_inv (collected ++ [n]) ({[n]} ∪ seen).
Proof.
  intros (Hnd & Hs & Hall) Hu Hn Hnot. split; [| split].
  - apply NoDup_app. split; [done |]. split; [| apply NoDup_singleton].
    intros x Hx Hx'. apply list_elem_of_singleton in Hx' as ->.
    by apply Hnot, Hs.
  - intros x. rewrite elem_of_union, elem_of_singleton, elem_of_app,
      list_elem_of_singleton, Hs. tauto.
  - apply Forall_app. split; [done |].
    constructor; [by exists handle, u | constructor].
Qed.

(** Normalized URLs that are distinct stay distinct under normalization,
    because normalization does not change the normalized form of a URL
    that has a network location. *)
Lemma shopify_inv_unique (collected : list str) (seen : gset str) :
  product_urls_have_netloc ->
  shopify_inv collected seen -> unique_under_normalization collected.
Proof.
  intros Hjoin (Hnd & _ & Hall) i j u v n Hi Hj Hu Hv.
  rewrite Forall_lookup in Hall.
  assert (Hfix : forall k w, collected !! k = Some w ->
                             _normalize_product_url w = Some w).
  { intros k w Hk. destruct (Hall _ _ Hk) as (h & x & Hx & Hn).
    destruct (urlparse x) as [p|] eqn:Hp.
    2:{ unfold _normalize_product_url in Hn. by rewrite Hp in Hn. }
    destruct (normalize_with_netloc x p Hp (Hjoin _ _ _ Hx Hp))
      as (Hn' & _ & Hidem).
    rewrite Hn in Hn'. injection Hn' as ->. exact Hidem. }
  rewrite (Hfix _ _ Hi) in Hu. rewrite (Hfix _ _ Hj) in Hv.
  injection Hu as ->. injection Hv as ->.
  by eapply NoDup_lookup.
Qed.

Lemma absorb_handles_spec (products : list json) :
  forall (collected : list str) (seen : gset str)
         (collected' : list str) (seen' : gset str),
    shopify_inv collected seen ->
    Z.of_nat (length collected) < max_products config ->
    absorb_handles products collected seen = Ret (collected', seen') ->
    shopify_inv collected' seen' /\ within_budget collected'.
Proof.
  induction products as [|product rest IH];
    intros collected seen collected' seen' Hinv Hlt Hrun.
  - injection Hrun as <- <-. split; [done |]. unfold Crawl.within_budget. lia.
  - cbn [Crawl.absorb_handles] in Hrun.
    destruct (negb (truthy (handle_of product))); [by eapply IH |].
    destruct (urljoin _ _) as [url|] eqn:Hurl; [| done].
    cbn [of_option mbind outcome_bind] in Hrun.
    destruct (_normalize_product_url url) as [n|] eqn:Hn; [| done].
    cbn [of_option mbind outcome_bind] in Hrun.
    case_bool_decide as Hseen.
    + destruct (budget_reached collected) eqn:Hb.
      * apply budget_reached_true in Hb. lia.
      * by eapply IH.
    + pose proof (shopify_inv_add _ _ _ _ _ Hinv Hurl Hn Hseen) as Hinv'.
      destruct (budget_reached (collected ++ [n])) eqn:Hb.
      * injection Hrun as <- <-. split; [done |].
        unfold Crawl.within_budget. rewrite length_app. simpl. lia.
      * apply budget_reached_false in Hb. by eapply IH.
Qed.

Lemma shopify_loop_spec (fuel : nat) :
  forall (base : str) (collected : list str) (seen : gset str) (page_index : Z)
         (result : list str),
    0 <= max_products config ->
    shopify_inv collected seen ->
    within_budget collected ->
    shopify_loop fuel base collected seen page_index = Some (Ret result) ->
    (exists seen', shopify_inv result seen') /\ within_budget result.
Proof.
  induction fuel as [|fuel IH];
    intros base collected seen page_index result Hmax Hinv Hbud Hrun; [done |].
  assert (Hnil : (exists seen', shopify_inv [] seen') /\ within_budget []).
  { split; [exists ∅; apply shopify_inv_empty |].
    unfold Crawl.within_budget. simpl. lia. }
  cbn [Crawl.shopify_loop] in Hrun.
  destruct (budget_reached collected) eqn:Hb.
  { injection Hrun as <-. split; [by exists seen | done]. }
  apply budget_reached_false in Hb.
  destruct (request_get world _) as [|status [payload|]];
    [by injection Hrun as <- | | ].
  2:{ destruct (400 <=? status); by injection Hrun as <-. }
  destruct (400 <=? status); [by injection Hrun as <- |].
  destruct (negb (truthy (products_of payload))).
  { injection Hrun as <-. split; [by exists seen | done]. }
  destruct (items_of (products_of payload)) as [items|]; [| done].
  cbn [mbind outcome_bind] in Hrun.
  destruct (absorb_handles items collected seen) as [[c1 s1]|] eqn:Ha; [| done].
  destruct (absorb_handles_spec _ _ _ _ _ Hinv Hb Ha) as [Hinv1 Hbud1].
  by eapply IH.
Qed.

Lemma shopify_result (fuel : nat) (start_url : str) (result : list str) :
  0 <= max_products config ->
  _crawl_shopify_catalog_urls fuel start_url = Some (Ret result) ->
  (exists seen', shopify_inv result seen') /\ within_budget result.
Proof.
  intros Hmax Hrun.
  assert (Hnil : (exists seen', shopify_inv [] seen') /\ within_budget []).
  { split; [exists ∅; apply shopify_inv_empty |].
    unfold Crawl.within_budget. simpl. lia. }
  unfold Crawl._crawl_shopify_catalog_urls in Hrun.
  destruct (negb (contains _ _)); [by injection Hrun as <- |].
  destruct (urlparse start_url) as [parsed|]; [| done].
  destruct (rstrip_slash (path parsed)) as [|c p]; [by injection Hrun as <- |].
  eapply shopify_loop_spec; [done | apply shopify_inv_empty | | done].
  unfold Crawl.within_budget. simpl. lia.
Qed.

(** The result of the fast path is unique under normalization whatever the
    budget is. *)
Lemma shopify_loop_unique (fuel : nat) :
  forall (base : str) (collected : list str) (seen : gset str) (page_index : Z)
         (result : list str),
    shopify_inv collected seen ->
    shopify_loop fuel base collected seen page_index = Some (Ret result) ->
    exists seen', shopify_inv result seen'.
Proof.
  induction fuel as [|fuel IH];
    intros base collected seen page_index result Hinv Hrun; [done |].
  assert (Hnil : exists seen', shopify_inv [] seen')
    by (exists ∅; apply shopify_inv_empty).
  cbn [Crawl.shopify_loop] in Hrun.
  destruct (budget_reached collected) eqn:Hb.
  { injection Hrun as <-. by exists seen. }
  apply budget_reached_false in Hb.
  destruct (request_get world _) as [|status [payload|]];
    [by injection Hrun as <- | | ].
  2:{ destruct (400 <=? status); by injection Hrun as <-. }
  destruct (400 <=? status); [by injection Hrun as <- |].
  destruct (negb (truthy (products_of payload))).
  { injection Hrun as <-. by exists seen. }
  destruct (items_of (products_of payload)) as [items|]; [| done].
  cbn [mbind outcome_bind] in Hrun.
  destruct (absorb_handles items collected seen) as [[c1 s1]|] eqn:Ha; [| done].
  destruct (absorb_handles_spec _ _ _ _ _ Hinv Hb Ha) as [Hinv1 _].
  by eapply IH.
Qed.

Lemma shopify_unique (fuel : nat) (start_url : str) (result : list str) :
  product_urls_have_netloc ->
  _crawl_shopify_catalog_urls fuel start_url = Some (Ret result) ->
  unique_under_normalization result.
Proof.
  intros Hjoin Hrun.
  assert (Hnil : unique_under_normalization []) by (by intros i j u v n [=]).
  unfold Crawl._crawl_shopify_catalog_urls in Hrun.
  destruct (negb (contains _ _)); [by injection Hrun as <- |].
  destruct (urlparse start_url) as [parsed|]; [| done].
  destruct (rstrip_slash (path parsed)) as [|c p]; [by injection Hrun as <- |].
  destruct (shopify_loop_unique _ _ _ _ _ _ shopify_inv_empty Hrun) as [seen' Hinv].
  by eapply shopify_inv_unique.
Qed.

Lemma absorb_handles_dedup (products : list json) :
  forall (collected : list str) (seen : gset str)
         (collected' : list str) (seen' : gset str),
    shopify_inv collected seen ->
    absorb_handles products collected seen = Ret (collected', seen') ->
    shopify_inv collected' seen'.
Proof.
  induction products as [|product rest IH];
    intros collected seen collected' seen' Hinv Hrun.
  - by injection Hrun as <- <-.
  - cbn [Crawl.absorb_handles] in Hrun.
    destruct (negb (truthy (handle_of product))); [by eapply IH |].
    destruct (urljoin _ _) as [url|] eqn:Hurl; [| done].
    cbn [of_option mbind outcome_bind] in Hrun.
    destruct (_normalize_product_url url) as [n|] eqn:Hn; [| done].
    cbn [of_option mbind outcome_bind] in Hrun.
    case_bool_decide as Hseen.
    + destruct (budget_reached collected); [by injection Hrun as <- <- |].
      by eapply IH.
    + pose proof (shopify_inv_add _ _ _ _ _ Hinv Hurl Hn Hseen) as Hinv'.
      destruct (budget_reached (collected ++ [n])); [by injection Hrun as <- <- |].
      by eapply IH.
Qed.

Lemma shopify_head_keeps (n : nat) :
  forall (base : str) (c : list str) (sn : gset str) (idx : Z)
         (c' : list str) (sn' : gset str) (idx' : Z),
    shopify_inv c sn ->
    shopify_head n base c sn idx = Some (c', sn', idx') ->
    shopify_inv c' sn' /\ (within_budget c -> within_budget c').
Proof.
  induction n as [|n IH]; intros base c sn idx c' sn' idx' Hinv Hrun.
  - by injection Hrun as <- <- <-.
  - cbn [Crawl.shopify_head] in Hrun.
    destruct (budget_reached c) eqn:Hb; [done |].
    apply budget_reached_false in Hb.
    destruct (request_get world _) as [|status [payload|]]; try done.
    destruct ((400 <=? status) || _); [done |].
    destruct (items_of (products_of payload)) as [items|]; [| done].
    cbn [mbind outcome_bind] in Hrun.
    destruct (absorb_handles items c sn) as [[c1 s1]|] eqn:Ha; [| done].
    destruct (absorb_handles_spec _ _ _ _ _ Hinv Hb Ha) as [Hinv1 Hbud1].
    destruct (IH _ _ _ _ _ _ _ Hinv1 Hrun) as [Hinv' Hbud'].
    split; [done |]. intros _. by apply Hbud'.
Qed.



(** *** The claims about the two strategies *)

(** C3.  Dedup invariant.  When the generic crawl returns, at the head of
    its loop after any number of turns, and after any number of iterations
    of the [for] loop that follows, no two of the collected URLs have the
    same normalized form.  The same holds for the fast path and for
    [_crawl_catalog_urls], when they return, at the head of the fast-path
    loop and inside its [for] loop, provided the product URLs joined from
    [base_url] have a network location. *)
Theorem collected_unique_under_normalization (fuel : nat) (start_url : str) :
  (forall s,
     crawl_generic fuel start_url = Some (Ret s) ->
     unique_under_normalization (collected s))
  /\ (forall n s,
        after_turns n (initial start_url) = Some s ->
        unique_under_normalization (collected s)
        /\ forall product_urls k c sn cnt,
             absorb (take k product_urls) (collected s) (seen_products s) 0
               = Ret (c, sn, cnt) ->
             unique_under_normalization c)
  /\ (product_urls_have_netloc ->
      (forall l,
         _crawl_shopify_catalog_urls fuel start_url = Some (Ret l) ->
         unique_under_normalization l)
      /\ (forall r,
            _crawl_catalog_urls fuel start_url = Some (Ret r) ->
            unique_under_normalization (urls r))
      /\ (forall n base c sn idx,
            shopify_head n base [] ∅ 1 = Some (c, sn, idx) ->
            unique_under_normalization c
            /\ forall products k c' sn',
                 absorb_handles (take k products) c sn = Ret (c', sn') ->
                 unique_under_normalization c')).
Proof.
  assert (Hgen : forall s,
             crawl_generic fuel start_url = Some (Ret s) ->
             unique_under_normalization (collected s)).
  { intros s Hrun. apply (dedup_inv_unique _ (seen_products s)).
    revert Hrun. unfold Crawl.crawl_generic.
    apply (crawl_loop_keeps
             (fun s => dedup_inv (collected s) (seen_products s))).
    - intros s0 current r Hinv _. by apply crawl_page_dedup.
    - apply dedup_inv_empty. }
  split; [exact Hgen |]. split.
  - intros n s Hrun.
    assert (Hinv : dedup_inv (collected s) (seen_products s)).
    { revert Hrun.
      apply (after_turns_keeps
               (fun s => dedup_inv (collected s) (seen_products s))).
      - intros s0 current r Hinv _. by apply crawl_page_dedup.
      - apply dedup_inv_empty. }
    split; [by eapply dedup_inv_unique |].
    intros product_urls k c sn cnt Hrun'.
    apply (dedup_inv_unique _ sn). by eapply absorb_dedup.
  - intros Hjoin. split; [intros l; by apply shopify_unique |]. split.
    + intros r Hrun. unfold Crawl._crawl_catalog_urls in Hrun.
      destruct (_crawl_shopify_catalog_urls fuel start_url)
        as [[[|u l]|]|] eqn:Hshop; try done.
      * destruct (crawl_generic fuel start_url) as [[s|]|] eqn:Hg; try done.
        injection Hrun as <-. by apply Hgen.
      * injection Hrun as <-. by apply (shopify_unique _ _ _ Hjoin Hshop).
    + intros n base c sn idx Hrun.
      destruct (shopify_head_keeps _ _ _ _ _ _ _ _ shopify_inv_empty Hrun)
        as [Hinv _].
      split; [by eapply shopify_inv_unique |].
      intros products k c' sn' Hrun'.
      apply (shopify_inv_unique _ sn'); [done |].
      by eapply absorb_handles_dedup.
Qed.

(** C4.  Budget invariant.  For a budget that is not negative, the list of
    collected URLs never has more than [max_products] entries: when either
    strategy or [_crawl_catalog_urls] returns, at the head of either loop
    after any number of turns, and after any number of iterations of the
    [for] loop that follows. *)
Theorem collected_within_budget (fuel : nat) (start_url : str) :
  0 <= max_products config ->
  (forall s,
     crawl_generic fuel start_url = Some (Ret s) ->
     within_budget (collected s))
  /\ (forall l,
        _crawl_shopify_catalog_urls fuel start_url = Some (Ret l) ->
        within_budget l)
  /\ (forall r,
        _crawl_catalog_urls fuel start_url = Some (Ret r) ->
        within_budget (urls r))
  /\ (forall n s,
        after_turns n (initial start_url) = Some s ->
        within_budget (collected s)
        /\ forall product_urls k c sn cnt,
             budget_reached (collected s) = false ->
             absorb (take k product_urls) (collected s) (seen_products s) 0
               = Ret (c, sn, cnt) ->
             within_budget c)
  /\ (forall n base c sn idx,
        shopify_head n base [] ∅ 1 = Some (c, sn, idx) ->
        within_budget c
        /\ forall products k c' sn',
             budget_reached c = false ->
             absorb_handles (take k products) c sn = Ret (c', sn') ->
             within_budget c').
Proof.
  intros Hmax.
  assert (H0 : within_budget []) by (unfold Crawl.within_budget; simpl; lia).
  assert (Hgen : forall s,
             crawl_generic fuel start_url = Some (Ret s) ->
             within_budget (collected s)).
  { intros s. unfold Crawl.crawl_generic.
    apply (crawl_loop_keeps (fun s => within_budget (collected s))); [| done].
    intros s0 current r _ Hlt. by apply crawl_page_budget. }
  assert (Hshop : forall l,
             _crawl_shopify_catalog_urls fuel start_url = Some (Ret l) ->
             within_budget l).
  { intros l Hrun. by destruct (shopify_result _ _ _ Hmax Hrun). }
  split; [exact Hgen |]. split; [exact Hshop |]. split; [| split].
  - intros r Hrun. unfold Crawl._crawl_catalog_urls in Hrun.
    destruct (_crawl_shopify_catalog_urls fuel start_url)
      as [[[|u l]|]|] eqn:Hs; try done.
    + destruct (crawl_generic fuel start_url) as [[s|]|] eqn:Hg; try done.
      injection Hrun as <-. by apply Hgen.
    + injection Hrun as <-. by apply Hshop.
  - intros n s Hrun. split.
    + revert Hrun.
      apply (after_turns_keeps (fun s => within_budget (collected s))); [| done].
      intros s0 current r _ Hlt. by apply crawl_page_budget.
    + intros product_urls k c sn cnt Hb Hrun'.
      apply budget_reached_false in Hb. by eapply absorb_budget.
  - intros n base c sn idx Hrun.
    destruct (shopify_head_keeps _ _ _ _ _ _ _ _ shopify_inv_empty Hrun)
      as [Hinv Hbud].
    split; [by apply Hbud |].
    intros products k c' sn' Hb Hrun'. apply budget_reached_false in Hb.
    by destruct (absorb_handles_spec _ _ _ _ _ Hinv Hb Hrun').
Qed.



(** C2, amended.  On a page that yields at least one new product link and
    on which no "next" selector gives an [href], the next URL is the URL of
    the current page with the pagination parameter set to the next page
    number, and no fallback is kept.  When that URL is the current page or
    one already visited the crawl stops.  Otherwise it becomes the current
    URL, and the test at the head of the loop decides: when the budget has
    been reached the crawl ends there and the URL is never opened; when it
    has not, the next turn opens that URL. *)
Theorem next_page_without_structural_link (s : CrawlState) (current : str)
    (r : step_result) (page : Page) :
  crawl_page s current = Ret r ->
  current ∉ visited_pages s ->
  goto world current = Some page ->
  (forall k, structural_href (snapshot page k) (next_selectors config) = None) ->
  (length (collected s) < length (collected (state_of r)))%nat ->
  exists guess,
    _with_pagination_param current (pagination_param_or_default config)
      (page_index s + 1) = Some guess
    /\ nav_log (state_of r) = nav_log s ++ [current]
    /\ (guess = current \/ guess ∈ visited_pages s -> exists s', r = Done s')
    /\ (guess <> current -> guess ∉ visited_pages s ->
        exists s', r = Continue s'
                   /\ current_url s' = Some guess
                   /\ pending_fallback s' = None
                   /\ page_index s' = page_index s + 1
                   /\ (budget_reached (collected s') = true ->
                       forall fuel, crawl_loop (S fuel) s' = Some (Ret s'))
                   /\ (budget_reached (collected s') = false ->
                       (forall fuel,
                          crawl_loop (S fuel) s'
                          = match crawl_page s' guess with
                            | Raise => Some Raise
                            | Ret (Done s'') => Some (Ret s'')
                            | Ret (Continue s'') => crawl_loop fuel s''
                            end)
                       /\ (goto world guess = None ->
                           crawl_page s' guess = Raise)
                       /\ forall r',
                            crawl_page s' guess = Ret r' ->
                            nav_log (state_of r')
                            = (nav_log s ++ [current]) ++ [guess])).
Proof.
  intros Hpage Hnew Hgoto Hnone Hgrew.
  destruct (crawl_page_inv _ _ _ Hpage) as [[Hin _] | [_ Hr]]; [done |].
  destruct Hr as (page' & urls0 & product_urls & scrolls & collected' & seen'
                  & new_count & next_url & fallback_url
                  & Hg & _ & _ & Habsorb & Hnext & Hadv).
  rewrite Hgoto in Hg. injection Hg as <-.
  unfold _find_next_page_url in Hnext. rewrite Hnone in Hnext.
  destruct (_with_pagination_param _ _ _) as [guess|] eqn:Hguess; [| done].
  cbn [of_option mbind outcome_bind] in Hnext. injection Hnext as <- <-.
  exists guess. split; [done |].
  pose proof (with_pagination_param_nonempty _ _ _ _ Hguess) as Hne.
  destruct (absorb_shape _ _ _ _ _ _ _ Habsorb) as (added & -> & Hcount & Hnil).
  assert (Hprod : match product_urls with
                  | [] => false
                  | _ => negb (new_count =? 0)
                  end = true).
  { pose proof (advance_keeps
                  {| collected := collected s ++ added; seen_products := seen';
                     visited_pages := {[current]} ∪ visited_pages s;
                     current_url := current_url s;
                     pending_fallback := pending_fallback s;
                     page_index := page_index s;
                     nav_log := nav_log s ++ [current] |}
                  (match product_urls with [] => false | _ => negb (new_count =? 0) end)
                  (Some guess) None) as (Hc & _).
    rewrite <- Hadv in Hc. rewrite Hc in Hgrew. cbn in Hgrew.
    rewrite length_app in Hgrew.
    destruct product_urls; [rewrite Hnil in Hgrew by done; simpl in Hgrew; lia |].
    apply negb_true_iff, Z.eqb_neq. lia. }
  rewrite Hprod in Hadv. unfold advance in Hadv.
  assert (Htruthy : Text.truthy (Some guess) = true) by (by destruct guess).
  cbn [negb pending_fallback visited_pages] in Hadv.
  rewrite Htruthy in Hadv. cbn [Text.truthy andb negb orb default] in Hadv.
  split; [| split].
  - subst r. by destruct (bool_decide _).
  - intros Hv. rewrite bool_decide_true in Hadv; [by eexists |].
    apply elem_of_union. destruct Hv as [-> | Hv]; [left | by right].
    by apply elem_of_singleton.
  - intros Hne1 Hne2.
    assert (Hfresh : guess ∉ {[current]} ∪ visited_pages s).
    { intros [Hin | Hin]%elem_of_union; [| done].
      by apply elem_of_singleton in Hin. }
    rewrite bool_decide_false in Hadv by done.
    eexists. split; [exact Hadv |]. cbn [current_url pending_fallback
      Crawl.page_index Crawl.collected].
    split; [done |]. split; [done |]. split; [done |].
    destruct guess as [|c0 u0]; [done |]. split.
    + intros Hb fuel. cbn [Crawl.crawl_loop current_url Crawl.collected].
      by rewrite Hb.
    + intros Hb. split; [| split].
      * intros fuel. cbn [Crawl.crawl_loop current_url Crawl.collected].
        by rewrite Hb.
      * intros Hdown. unfold Crawl.crawl_page.
        cbn [Crawl.visited_pages]. rewrite bool_decide_false by done.
        by rewrite Hdown.
      * intros r' Hturn.
        destruct (crawl_page_inv _ _ _ Hturn) as [[Hin _] | [_ Hr']]; [done |].
        destruct Hr' as (page2 & urls2 & product_urls2 & scrolls2 & collected2
                         & seen2 & new_count2 & next_url2 & fallback_url2
                         & _ & _ & _ & _ & _ & ->).
        match goal with
        | |- nav_log (state_of (advance ?st ?b ?n ?f)) = _ =>
            destruct (advance_keeps st b n f) as (_ & _ & _ & ->)
        end.
        done.
Qed.

End crawl.

(** *** The example sites *)

Section examples.
Import Sites.

#[local] Existing Instance permissive.

Abbreviation generic_on world := (crawl_generic join_origin shop world).
Abbreviation catalog_on world := (_crawl_catalog_urls join_origin shop world).
Abbreviation fast_on world := (_crawl_shopify_catalog_urls join_origin shop world).

(** Scenario A: three distinct handles on page 1, none on page 2; the fast
    path returns three URLs and no page is opened. *)
Example fast_path_used :
  result_summary (catalog_on storefront 10 collection_url)
  = Some ([tee_url; cap_url; scarf_url], []).
Proof. by vm_compute. Qed.

(** Scenario B: the "next" link leads back to the listing; one page is
    opened. *)
Example next_link_to_self :
  summary (generic_on (site_with looping_listing) 10 shop_url)
  = Some ([shirt_url], [shop_url]).
Proof. by vm_compute. Qed.

(** The second page of the listing fails: the two URLs of the first page
    are dropped and the generic crawl runs. *)
Example fast_path_abandoned :
  fast_on failing_storefront 10 collection_url = Some (Ret [])
  /\ result_summary (catalog_on failing_storefront 10 collection_url)
     = Some ([shirt_url], [collection_url; collection_page_2]).
Proof. split; by vm_compute. Qed.

(** C2, as stated, fails: the listing yields a new product link and has no
    "next" element at all, and the crawl goes on to the listing URL with
    [page=2]. *)
Lemma crawl_follows_parameter_guess :
  structural_href plain_listing (next_selectors shop) = None
  /\ summary (generic_on (site_with plain_listing) 10 shop_url)
     = Some ([shirt_url], [shop_url; shop_page_2]).
Proof. split; by vm_compute. Qed.

(** The budget decides whether the guess is opened: with room for one
    product only, the listing fills the budget and the crawl ends there. *)
Example budget_filled_guess_not_opened :
  summary (crawl_generic join_origin (with_max_products shop 1)
             (site_with plain_listing) 10 shop_url)
  = Some ([shirt_url], [shop_url]).
Proof. by vm_compute. Qed.


Lemma next_page_without_structural_link_witness :
  exists s',
    crawl_page join_origin shop (site_with plain_listing) (initial shop_url) shop_url
    = Ret (Continue s')
    /\ current_url s' = Some shop_page_2
    /\ pending_fallback s' = None.
Proof.
  destruct (crawl_page join_origin shop (site_with plain_listing)
              (initial shop_url) shop_url) as [r|] eqn:Hpage.
  2:{ vm_compute in Hpage. discriminate Hpage. }
  assert (Hlen : match crawl_page join_origin shop (site_with plain_listing)
                         (initial shop_url) shop_url with
                 | Ret r => length (collected (state_of r))
                 | Raise => 0%nat
                 end = 1%nat) by (by vm_compute).
  rewrite Hpage in Hlen.
  destruct (next_page_without_structural_link join_origin shop
              (site_with plain_listing) (initial shop_url) shop_url r
              (static_page plain_listing) Hpage)
    as (guess & Hguess & _ & _ & Hcont).
  - cbn. apply not_elem_of_empty.
  - reflexivity.
  - intros k. by vm_compute.
  - rewrite Hlen. cbn. lia.
  - assert (Hg : guess = shop_page_2).
    { vm_compute in Hguess. by injection Hguess as <-. }
    subst guess. destruct Hcont as (s' & -> & Hcur & Hpend & _).
    + by vm_compute.
    + cbn. apply not_elem_of_empty.
    + by exists s'.
Defined.

(** The product URLs of the example shop have the network location
    [shop.example]. *)
Lemma shop_urls_have_netloc : Crawl.product_urls_have_netloc join_origin shop.
Proof.
  intros h u p Hu Hp.
  assert (Hueq : u = "https://shop.example/products/" ++ h).
  { vm_compute in Hu. injection Hu as <-. reflexivity. }
  subst u.
  change ("https://shop.example/products/" ++ h)
    with ("https" ++ ":" ++ "//" ++ "shop.example" ++ "/"%char :: "products/" ++ h)
    in Hp.
  apply urlparse_origin in Hp as ->; [done | done | by repeat constructor..].
Qed.

Lemma collected_unique_under_normalization_witness :
  exists l,
    fast_on storefront 10 collection_url = Some (Ret l)
    /\ length l = 3%nat
    /\ unique_under_normalization l.
Proof.
  destruct (fast_on storefront 10 collection_url) as [[l|]|] eqn:Hrun.
  2,3: vm_compute in Hrun; discriminate Hrun.
  exists l. split; [done |]. split.
  - vm_compute in Hrun. by injection Hrun as <-.
  - destruct (collected_unique_under_normalization join_origin shop storefront
                10 collection_url) as (_ & _ & Hfast).
    destruct (Hfast shop_urls_have_netloc) as (Hfast' & _).
    by apply Hfast'.
Defined.

Lemma collected_within_budget_witness :
  0 <= max_products shop
  /\ exists l,
       fast_on storefront 10 collection_url = Some (Ret l)
       /\ within_budget shop l.
Proof.
  assert (Hmax : 0 <= max_products shop) by (by vm_compute).
  split; [exact Hmax |].
  destruct (fast_on storefront 10 collection_url) as [[l|]|] eqn:Hrun.
  2,3: vm_compute in Hrun; discriminate Hrun.
  exists l. split; [done |].
  destruct (collected_within_budget join_origin shop storefront
              10 collection_url Hmax) as (_ & Hfast & _).
  by apply Hfast.
Defined.



End examples.

End CrawlFacts.

(** ** Cursors and paging *)

Module ApiFacts.
Import PyStr PyStrFacts Cursor CursorFacts UrlFacts Extract Cache Api.

(** *** Integers as text *)

Lemma int_of_str_of_any_int (n : Z) : int_of_str (str_of_int n) = Some n.
Proof.
  destruct (Z.ltb_spec n 0) as [Hneg | Hpos]; [| by apply int_of_str_of_int].
  unfold str_of_int. destruct (Z.ltb_spec n 0); [| lia].
  destruct (str_of_nonneg_spec (- n)) as (ds & -> & Hds & Hne & Hval); [lia |].
  assert (Hsp : Forall (fun c => is_space c = false) ("-"%char :: ds)).
  { constructor; [done |]. eapply Forall_impl; [exact Hds |].
    intros c. apply is_digit_not_space. }
  unfold int_of_str. rewrite (strip_no_space _ Hsp).
  change (eqb_char "-" "-") with true. cbn match.
  destruct ds as [|c ds]; [done |]. unfold int_unsigned.
  rewrite (Forall_inv Hds).
  rewrite <- (app_nil_r (c :: ds)), int_digits_app by done.
  cbn [int_digits fmap option_fmap option_map]. rewrite Hval. f_equal. lia.
Qed.

Lemma int_digits_rejects (c : ascii) (s : str) :
  is_digit c = false -> eqb_char c "_" = false -> c ∈ s ->
  forall acc, int_digits acc s = None.
Proof.
  intros Hd Hu. induction s as [|x s IH]; intros Hin acc.
  - by apply elem_of_nil in Hin.
  - cbn [int_digits]. destruct (is_digit x) eqn:Hx.
    + apply elem_of_cons in Hin as [-> | Hin]; [congruence |]. by apply IH.
    + destruct (eqb_char x "_") eqn:Hxu; [| done].
      apply elem_of_cons in Hin as [-> | Hin]; [congruence |].
      destruct s as [|d s']; [done |]. destruct (is_digit d); [| done].
      by apply IH.
Qed.

Lemma drop_while_keeps (p : ascii -> bool) (c : ascii) (s : str) :
  p c = false -> c ∈ s -> c ∈ drop_while p s.
Proof.
  intros Hc. induction s as [|x s IH]; [done |]. cbn [drop_while].
  destruct (p x) eqn:Hx; [| done].
  intros [-> | Hin]%elem_of_cons; [congruence | by apply IH].
Qed.

Lemma strip_keeps (c : ascii) (s : str) :
  is_space c = false -> c ∈ s -> c ∈ strip s.
Proof.
  intros Hc Hin. unfold strip, rstrip, lstrip.
  apply list_elem_of_In. apply -> in_rev. apply list_elem_of_In.
  apply drop_while_keeps; [done |].
  apply list_elem_of_In. apply -> in_rev. apply list_elem_of_In.
  by apply drop_while_keeps.
Qed.

(** [int] rejects a text with a character that is neither a digit, a sign,
    an underscore nor white space. *)
Lemma int_of_str_rejects (c : ascii) (s : str) :
  is_digit c = false -> eqb_char c "_" = false -> is_space c = false ->
  eqb_char c "-" = false -> eqb_char c "+" = false ->
  c ∈ s -> int_of_str s = None.
Proof.
  intros Hd Hu Hs Hm Hp Hin. unfold int_of_str.
  pose proof (strip_keeps _ _ Hs Hin) as Hin'.
  destruct (strip s) as [|x t]; [done |].
  assert (Hun : forall t', c ∈ t' -> int_unsigned t' = None).
  { intros [|y t'] Ht; [done |]. unfold int_unsigned.
    destruct (is_digit y); [| done]. by apply int_digits_rejects with c. }
  destruct (eqb_char x "-") eqn:Hxm.
  { apply eqb_char_true in Hxm. subst x.
    apply elem_of_cons in Hin' as [-> | Hin']; [done |].
    by rewrite Hun. }
  destruct (eqb_char x "+") eqn:Hxp.
  { apply eqb_char_true in Hxp. subst x.
    apply elem_of_cons in Hin' as [-> | Hin']; [done |].
    by rewrite Hun. }
  by apply Hun.
Qed.

Lemma split_once_first (sep : ascii) (s : str) :
  sep ∈ s ->
  exists a b, s = a ++ sep :: b /\ (sep ∉ a) /\ split_once sep s = Some (a, b).
Proof.
  intros Hin. apply list_elem_of_split_l in Hin as (a & b & -> & Hn).
  exists a, b. split; [done |]. split; [done |]. by apply split_once_app.
Qed.

(** *** Cursors *)

Lemma decode_encode (scan_id : str) (offset : Z) :
  ":"%char ∉ scan_id ->
  decode_cursor (encode_cursor scan_id offset) = Some (scan_id, offset).
Proof.
  intros Hcolon. unfold decode_cursor, encode_cursor. rewrite b64_roundtrip.
  cbn [mbind option_bind]. rewrite split_once_app by exact Hcolon.
  cbn [mbind option_bind]. by rewrite int_of_str_of_any_int.
Qed.

Lemma decode_encode_colon (scan_id : str) (offset : Z) :
  ":"%char ∈ scan_id ->
  decode_cursor (encode_cursor scan_id offset) = None.
Proof.
  intros Hcolon. unfold decode_cursor, encode_cursor. rewrite b64_roundtrip.
  cbn [mbind option_bind].
  destruct (split_once_first _ _ Hcolon) as (a & b & Heq & Hn & _).
  rewrite Heq, <- app_assoc. cbn [app].
  rewrite split_once_app by exact Hn. cbn [mbind option_bind].
  rewrite (int_of_str_rejects ":"); try done.
  apply elem_of_app. right. by left.
Qed.

(** X1.  A cursor decodes to the scan id and the offset it was made from,
    for every integer offset, when the scan id has no colon; for a scan id
    with a colon [decode_cursor] raises on the cursor that [encode_cursor]
    made. *)
Theorem cursor_roundtrip_iff_no_colon (scan_id : str) (offset : Z) :
  (":"%char ∉ scan_id ->
   decode_cursor (encode_cursor scan_id offset) = Some (scan_id, offset))
  /\ (":"%char ∈ scan_id ->
      decode_cursor (encode_cursor scan_id offset) = None).
Proof. split; [apply decode_encode | apply decode_encode_colon]. Qed.

Lemma cursor_roundtrip_iff_no_colon_witness :
  decode_cursor (encode_cursor "3f2a9c" (-40)) = Some ("3f2a9c" : str, -40)
  /\ decode_cursor (encode_cursor "3f:2a" 40) = None.
Proof.
  split.
  - apply (cursor_roundtrip_iff_no_colon "3f2a9c" (-40)).
    apply not_char. by repeat constructor.
  - apply (cursor_roundtrip_iff_no_colon "3f:2a" 40).
    apply elem_of_cons. right. apply elem_of_cons. right. apply elem_of_cons. by left.
Defined.

Lemma b2a_url_safe (v : N) : is_url_safe (b2a v) = true.
Proof.
  destruct (N.ltb_spec v 64) as [Hlt | Hge].
  - assert (Hall : all256 (fun v => implb (v <? 64)%N (is_url_safe (b2a v))) = true)
      by (by vm_compute).
    pose proof (all256_spec _ Hall v ltac:(lia)) as Hv. cbv beta in Hv.
    destruct (N.ltb_spec v 64); [done | lia].
  - unfold b2a.
    destruct (N.ltb_spec v 26); [lia |]. destruct (N.ltb_spec v 52); [lia |].
    destruct (N.ltb_spec v 62); [lia |]. destruct (N.eqb_spec v 62); [lia | done].
Qed.

(** X2.  A cursor consists of letters, digits, [-], [_] and [=] only, so
    it can travel in a query string as it is; it is not empty and its
    length is a multiple of four. *)
Theorem cursor_is_url_safe (scan_id : str) (offset : Z) :
  Forall (fun c => is_url_safe c = true) (encode_cursor scan_id offset)
  /\ encode_cursor scan_id offset <> []
  /\ (length (encode_cursor scan_id offset) mod 4 = 0)%nat.
Proof.
  unfold encode_cursor.
  assert (Hne : scan_id ++ ":"%char :: str_of_int offset <> [])
    by (by destruct scan_id).
  revert Hne. generalize (scan_id ++ ":"%char :: str_of_int offset).
  intros bs Hne. split; [| split].
  - clear Hne. induction bs as [| x | x y | x y z r IH] using list_ind3;
      cbn [urlsafe_b64encode];
      repeat (constructor; [apply b2a_url_safe || reflexivity |]);
      done || constructor.
  - destruct bs as [|x [|y [|z r]]]; done.
  - clear Hne. induction bs as [| x | x y | x y z r IH] using list_ind3;
      cbn [urlsafe_b64encode length]; try done.
    change (S (S (S (S (length (urlsafe_b64encode r))))))
      with (4 + length (urlsafe_b64encode r))%nat.
    rewrite <- Nat.Div0.add_mod_idemp_r, IH. reflexivity.
Qed.

(** *** Pages *)

Lemma slice_take_drop {A} (l : list A) (start count : Z) :
  0 <= start -> 0 <= count ->
  slice start (start + count) l = take (Z.to_nat count) (drop (Z.to_nat start) l).
Proof.
  intros Hs Hc. unfold slice, slice_index.
  destruct (Z.ltb_spec start 0); [lia |].
  destruct (Z.ltb_spec (start + count) 0); [lia |].
  destruct (Nat.le_gt_cases (length l) (Z.to_nat start)) as [Hge | Hlt].
  - rewrite !Nat.min_r by lia. rewrite (drop_ge l (Z.to_nat start)) by done.
    rewrite drop_all. by rewrite !take_nil.
  - rewrite (Nat.min_l (Z.to_nat start)) by lia.
    destruct (Nat.le_gt_cases (Z.to_nat (start + count)) (length l)) as [Hin | Hout].
    + rewrite (Nat.min_l (Z.to_nat (start + count))) by done. f_equal. lia.
    + rewrite (Nat.min_r (Z.to_nat (start + count))) by lia.
      rewrite !take_ge; [done | |]; rewrite length_drop; lia.
Qed.

(** X3.  For a page size that is not negative, [_paginate] returns the
    [page_size] results that follow the offset (fewer at the end of the
    list, all from the start for a negative offset), and a cursor exactly
    when results remain after the page; that cursor is made from the scan
    id and the position after the page. *)
Theorem paginate_page {A} (results : list A) (scan_id : str)
    (offset page_size : Z) :
  0 <= page_size ->
  let start := Z.max offset 0 in
  let '(page_items, next_cursor) := _paginate results scan_id offset page_size in
  page_items = take (Z.to_nat page_size) (drop (Z.to_nat start) results)
  /\ Z.of_nat (length page_items) <= page_size
  /\ next_cursor
     = (if start + page_size <? Z.of_nat (length results)
        then Some (encode_cursor scan_id (start + page_size)) else None)
  /\ (next_cursor = None <->
      drop (Z.to_nat start) results = page_items).
Proof.
  intros Hps start. unfold _paginate. fold start.
  rewrite slice_take_drop by lia.
  split; [done |]. split; [rewrite length_take; lia |]. split; [done |].
  destruct (Z.ltb_spec (start + page_size) (Z.of_nat (length results))) as [Hlt | Hge].
  - split; [done |]. intros Heq. apply (f_equal length) in Heq.
    rewrite length_take, length_drop in Heq. lia.
  - split; [| done]. intros _. rewrite take_ge; [done |].
    rewrite length_drop. lia.
Qed.

Lemma paginate_page_witness :
  0 <= 2
  /\ fst (_paginate [1%nat; 2%nat; 3%nat] "ab" (-1) 2) = [1%nat; 2%nat].
Proof.
  assert (Hps : 0 <= 2) by lia. split; [exact Hps |].
  pose proof (paginate_page [1%nat; 2%nat; 3%nat] "ab" (-1) 2 Hps) as Hpage.
  cbv zeta in Hpage.
  destruct (_paginate [1%nat; 2%nat; 3%nat] "ab" (-1) 2) as [page_items next].
  destruct Hpage as (-> & _). reflexivity.
Defined.

(** *** Reading a scan page by page *)

Lemma encode_cursor_cons (scan_id : str) (offset : Z) :
  exists c t, encode_cursor scan_id offset = c :: t.
Proof.
  unfold encode_cursor.
  assert (Hne : scan_id ++ ":"%char :: str_of_int offset <> [])
    by (by destruct scan_id).
  destruct (scan_id ++ ":"%char :: str_of_int offset) as [|x [|y [|z r]]];
    [done | by eexists _, _..].
Qed.

Lemma cursor_offset_encode (scan_id : str) (offset : Z) :
  ":"%char ∉ scan_id ->
  cursor_offset scan_id (Some (encode_cursor scan_id offset)) = Answer offset.
Proof.
  intros Hcolon. destruct (encode_cursor_cons scan_id offset) as (c & t & Heq).
  unfold cursor_offset, _decode_cursor. rewrite Heq, <- Heq.
  by rewrite decode_encode, eqb_refl.
Qed.

Section paging.
Variable Time : Type.
Variable expired : Time -> Time -> Z -> bool.
Variable cache : ScanCache Time.
Variable now : Time.
Variable scan_id : str.
Variable entry : ScanSession Time.

Hypothesis Hentry : _entries cache !! scan_id = Some entry.
Hypothesis Hfresh : expired now (created_at entry) (ttl_seconds cache) = false.
Hypothesis Hcolon : ":"%char ∉ scan_id.

Lemma scan_status_fresh (page_size offset : Z) (cursor : option str) :
  cursor_offset scan_id cursor = Answer offset ->
  exists page,
    scan_status expired cache now scan_id page_size cursor = (Answer page, cache)
    /\ (items page, next_cursor page)
       = _paginate (results entry) scan_id offset page_size.
Proof.
  intros Hoff. unfold scan_status, get. rewrite Hentry, Hfresh, Hoff.
  destruct (_paginate (results entry) scan_id offset page_size) as [its next].
  by eexists.
Qed.

Lemma read_all_from (page_size : Z) (fuel : nat) :
  1 <= page_size ->
  forall (cursor : option str) (offset : Z),
    0 <= offset ->
    cursor_offset scan_id cursor = Answer offset ->
    (Nat.max 1 (length (results entry) - Z.to_nat offset) <= fuel)%nat ->
    read_all expired fuel cache now scan_id page_size cursor
    = Some (Answer (drop (Z.to_nat offset) (results entry))).
Proof.
  intros Hps. induction fuel as [|fuel IH]; intros cursor offset Hoff Hcur Hfuel;
    [lia |].
  cbn [read_all].
  destruct (scan_status_fresh page_size offset cursor Hcur) as (page & -> & Hpage).
  unfold _paginate in Hpage. rewrite Z.max_l in Hpage by lia.
  rewrite slice_take_drop in Hpage by lia.
  injection Hpage as Hitems Hnext. rewrite Hitems, Hnext.
  destruct (Z.ltb_spec (offset + page_size) (Z.of_nat (length (results entry))))
    as [Hlt | Hge].
  - rewrite (IH _ (offset + page_size)); [| lia | by apply cursor_offset_encode | lia].
    do 2 f_equal.
    replace (Z.to_nat (offset + page_size))
      with (Z.to_nat offset + Z.to_nat page_size)%nat by lia.
    rewrite <- drop_drop. apply take_drop.
  - do 2 f_equal. apply take_ge. rewrite length_drop. lia.
Qed.

Lemma read_all_stalls (fuel : nat) :
  results entry <> [] ->
  forall cursor,
    cursor_offset scan_id cursor = Answer 0 ->
    read_all expired fuel cache now scan_id 0 cursor = None.
Proof.
  intros Hne. induction fuel as [|fuel IH]; intros cursor Hcur; [done |].
  cbn [read_all].
  destruct (scan_status_fresh 0 0 cursor Hcur) as (page & -> & Hpage).
  unfold _paginate in Hpage. change (Z.max 0 0 + 0) with 0 in Hpage.
  injection Hpage as _ Hnext. rewrite Hnext.
  destruct (Z.ltb_spec 0 (Z.of_nat (length (results entry)))) as [_ | Hge].
  - by rewrite IH by (by apply cursor_offset_encode).
  - destruct (results entry); [done | simpl in Hge; lia].
Qed.

End paging.

(** X4.  Reading a scan page by page returns every result once and in
    order.  For a scan that is in the cache and has not expired, a scan id
    without a colon and a page size of at least one, the client that starts
    without a cursor and follows each [next_cursor] gets no error, stops
    after at most as many requests as there are results (one for an empty
    scan), and the pages put together are the results of the scan. *)
Theorem read_all_returns_every_result {Time} (expired : Time -> Time -> Z -> bool)
    (cache : ScanCache Time) (now : Time) (scan_id : str)
    (entry : ScanSession Time) (page_size : Z) (fuel : nat) :
  _entries cache !! scan_id = Some entry ->
  expired now (created_at entry) (ttl_seconds cache) = false ->
  ":"%char ∉ scan_id ->
  1 <= page_size ->
  (Nat.max 1 (length (results entry)) <= fuel)%nat ->
  read_all expired fuel cache now scan_id page_size None
  = Some (Answer (results entry)).
Proof.
  intros Hentry Hfresh Hcolon Hps Hfuel.
  apply (read_all_from Time expired cache now scan_id entry Hentry Hfresh Hcolon
           page_size fuel Hps None 0); [lia | done |].
  change (Z.to_nat 0) with 0%nat. lia.
Qed.

(** X5.  A page size of zero never ends: for a scan with at least one
    result that is in the cache and has not expired, and a scan id without
    a colon, every answer is an empty page with a cursor for the same
    position, so the client that follows the cursors makes more than any
    number of requests. *)
Theorem read_all_never_ends_with_empty_pages {Time}
    (expired : Time -> Time -> Z -> bool) (cache : ScanCache Time) (now : Time)
    (scan_id : str) (entry : ScanSession Time) :
  _entries cache !! scan_id = Some entry ->
  expired now (created_at entry) (ttl_seconds cache) = false ->
  ":"%char ∉ scan_id ->
  results entry <> [] ->
  (exists page,
     scan_status expired cache now scan_id 0 None = (Answer page, cache)
     /\ items page = []
     /\ next_cursor page = Some (encode_cursor scan_id 0)
     /\ cursor_offset scan_id (next_cursor page) = Answer 0)
  /\ forall fuel, read_all expired fuel cache now scan_id 0 None = None.
Proof.
  intros Hentry Hfresh Hcolon Hne. split.
  - destruct (scan_status_fresh Time expired cache now scan_id entry Hentry Hfresh
                0 0 None eq_refl) as (page & Hstatus & Hpage).
    exists page. split; [exact Hstatus |].
    unfold _paginate in Hpage. change (Z.max 0 0 + 0) with 0 in Hpage.
    injection Hpage as Hitems Hnext. rewrite Hitems, Hnext.
    destruct (Z.ltb_spec 0 (Z.of_nat (length (results entry)))) as [_ | Hge].
    + split; [| split; [done | by apply cursor_offset_encode]].
      unfold slice, slice_index. cbn [Z.ltb Z.compare]. by rewrite Nat.sub_diag.
    + destruct (results entry); [done | simpl in Hge; lia].
  - intros fuel.
    by apply (read_all_stalls Time expired cache now scan_id entry Hentry Hfresh
                Hcolon fuel Hne).
Qed.

(** X6.  A cursor that [_paginate] returned for one scan is refused for
    any other scan: [scan_status] answers 400, "Cursor does not match
    scan". *)
Theorem cursor_of_another_scan_is_refused {A} (results : list A)
    (scan_id other_id : str) (offset page_size : Z) (cursor : str) :
  ":"%char ∉ scan_id ->
  scan_id <> other_id ->
  snd (_paginate results scan_id offset page_size) = Some cursor ->
  cursor_offset other_id (Some cursor)
  = HttpError 400 "Cursor does not match scan".
Proof.
  intros Hcolon Hother. unfold _paginate. cbn [snd].
  destruct (_ <? _); [| done]. intros [= <-].
  destruct (encode_cursor_cons scan_id (Z.max offset 0 + page_size))
    as (c & t & Heq).
  unfold cursor_offset, _decode_cursor. rewrite Heq, <- Heq.
  rewrite decode_encode by done.
  by apply eqb_false in Hother as ->.
Qed.

Section examples.
Import Demo.

Lemma demo_scan_id_has_no_colon : ":"%char ∉ Demo.scan_id.
Proof. apply not_char. by repeat constructor. Qed.

Lemma read_all_returns_every_result_witness :
  read_all older_than 3 cache_with_results 60 Demo.scan_id 2 None
  = Some (Answer three_results).
Proof.
  destruct (_entries cache_with_results !! Demo.scan_id) as [entry|] eqn:Hentry.
  2:{ vm_compute in Hentry. discriminate Hentry. }
  assert (Hres : results entry = three_results).
  { vm_compute in Hentry. by injection Hentry as <-. }
  assert (Hfresh : older_than 60 (created_at entry) (ttl_seconds cache_with_results)
                   = false).
  { vm_compute in Hentry. by injection Hentry as <-. }
  rewrite <- Hres.
  apply (read_all_returns_every_result older_than cache_with_results 60
           Demo.scan_id entry 2 3 Hentry Hfresh demo_scan_id_has_no_colon).
  - lia.
  - rewrite Hres. simpl. lia.
Defined.

Lemma read_all_never_ends_with_empty_pages_witness :
  read_all older_than 1000 cache_with_results 60 Demo.scan_id 0 None = None.
Proof.
  destruct (_entries cache_with_results !! Demo.scan_id) as [entry|] eqn:Hentry.
  2:{ vm_compute in Hentry. discriminate Hentry. }
  assert (Hres : results entry <> []).
  { vm_compute in Hentry. by injection Hentry as <-. }
  assert (Hfresh : older_than 60 (created_at entry) (ttl_seconds cache_with_results)
                   = false).
  { vm_compute in Hentry. by injection Hentry as <-. }
  apply (read_all_never_ends_with_empty_pages older_than cache_with_results 60
           Demo.scan_id entry Hentry Hfresh demo_scan_id_has_no_colon Hres).
Defined.

Lemma cursor_of_another_scan_is_refused_witness :
  cursor_offset "77aa01" (Some (encode_cursor Demo.scan_id 2))
  = HttpError 400 "Cursor does not match scan".
Proof.
  apply (cursor_of_another_scan_is_refused three_results Demo.scan_id "77aa01" 0 2).
  - exact demo_scan_id_has_no_colon.
  - discriminate.
  - reflexivity.
Defined.

End examples.

End ApiFacts.

(** ** The scan cache *)

Module CacheFacts.
Import PyStr PyStrFacts Extract Cache.

(** *** The log of a session *)

Lemma slice_from_last {A} (n : nat) (l : list A) :
  (0 < n)%nat -> slice_from (- Z.of_nat n) l = drop (length l - n) l.
Proof.
  intros Hn. unfold slice_from, slice_index.
  destruct (Z.ltb_spec (- Z.of_nat n) 0); [| lia]. f_equal. lia.
Qed.

Lemma session_add_log_logs {Time} (e : ScanSession Time) (message : str) :
  logs (session_add_log e message)
  = drop (length (logs e ++ [message]) - 200) (logs e ++ [message]).
Proof.
  unfold session_add_log. cbn [logs with_logs].
  destruct (Nat.ltb_spec 200 (length (logs e ++ [message]))) as [Hlt | Hge].
  - apply (slice_from_last 200). lia.
  - replace (length (logs e ++ [message]) - 200)%nat with 0%nat by lia. done.
Qed.

Lemma drop_last_app {A} (n : nat) (x ms : list A) :
  let d := drop (length x - n) x in
  drop (length (d ++ ms) - n) (d ++ ms) = drop (length (x ++ ms) - n) (x ++ ms).
Proof.
  intros d. destruct (Nat.le_gt_cases (length x) n) as [Hle | Hgt].
  - subst d. by replace (length x - n)%nat with 0%nat by lia.
  - assert (Hd : length d = n) by (subst d; rewrite length_drop; lia).
    rewrite !length_app, Hd.
    replace (length x + length ms - n)%nat
      with ((length x - n) + (n + length ms - n))%nat by lia.
    rewrite <- drop_drop. f_equal. rewrite drop_app_le by lia. done.
Qed.

(** X7.  The log of a session holds the 200 most recent messages: after
    any number of calls of [add_log] on a session whose log has at most 200
    entries, the log is the last 200 entries of the old log followed by the
    messages (all of them when they are fewer), and nothing else of the
    session has changed. *)
Theorem session_log_keeps_the_last_200 {Time} (e : ScanSession Time)
    (messages : list str) :
  (length (logs e) <= 200)%nat ->
  let e' := foldl session_add_log e messages in
  logs e' = drop (length (logs e ++ messages) - 200) (logs e ++ messages)
  /\ (length (logs e') <= 200)%nat
  /\ results e' = results e /\ status e' = status e
  /\ sites_done e' = sites_done e /\ exported_count e' = exported_count e
  /\ export_path e' = export_path e.
Proof.
  revert e. induction messages as [|m ms IH]; intros e Hlen; cbn [foldl].
  - rewrite app_nil_r. replace (length (logs e) - 200)%nat with 0%nat by lia.
    done.
  - assert (Hlen1 : (length (logs (session_add_log e m)) <= 200)%nat).
    { rewrite session_add_log_logs, length_drop. lia. }
    destruct (IH (session_add_log e m) Hlen1) as (Hlogs & Hbound & Hrest).
    split; [| split; [exact Hbound | exact Hrest]].
    rewrite Hlogs, session_add_log_logs.
    rewrite (drop_last_app 200 (logs e ++ [m]) ms).
    by rewrite <- app_assoc.
Qed.

Lemma session_log_keeps_the_last_200_witness :
  logs (foldl session_add_log (new_session 0 "tee" 1)
          (replicate 201 ("scraping" : str) ++ ["done" : str]))
  = replicate 199 ("scraping" : str) ++ ["done" : str].
Proof.
  destruct (session_log_keeps_the_last_200 (new_session 0 "tee" 1)
              (replicate 201 ("scraping" : str) ++ ["done" : str])) as (-> & _).
  - simpl. lia.
  - reflexivity.
Defined.

(** *** Calls on the cache *)

Section calls.
Variable Time : Type.
Variable expired : Time -> Time -> Z -> bool.

Lemma with_entries_same (c : ScanCache Time) : with_entries Time c (_entries c) = c.
Proof. by destruct c. Qed.

Lemma update_absent (c : ScanCache Time) (scan_id : str) f :
  _entries c !! scan_id = None -> update c scan_id f = c.
Proof. intros Hnone. unfold update. by rewrite Hnone. Qed.

Lemma update_lookup (c : ScanCache Time) (scan_id : str) f e :
  _entries c !! scan_id = Some e ->
  _entries (update c scan_id f) !! scan_id = Some (f e).
Proof.
  intros He. unfold update. rewrite He. cbn [_entries with_entries].
  apply lookup_insert_eq.
Qed.

Lemma update_lookup_ne (c : ScanCache Time) (scan_id other : str) f :
  scan_id <> other ->
  _entries (update c scan_id f) !! other = _entries c !! other.
Proof.
  intros Hne. unfold update. destruct (_entries c !! scan_id); [| done].
  cbn [_entries with_entries]. by apply lookup_insert_ne.
Qed.

Lemma get_lookup_ne (c : ScanCache Time) (now : Time) (scan_id other : str) :
  scan_id <> other ->
  _entries (snd (get expired c now scan_id)) !! other = _entries c !! other.
Proof.
  intros Hne. unfold get. destruct (_entries c !! scan_id) as [e|]; [| done].
  destruct (expired _ _ _); [| done]. cbn [snd _entries with_entries].
  by apply lookup_delete_ne.
Qed.

Lemma export_csv_absent (c : ScanCache Time) (files : Files) (scan_id dir : str) :
  _entries c !! scan_id = None ->
  export_csv c files scan_id dir = (None, c, files).
Proof. intros Hnone. unfold export_csv. by rewrite Hnone. Qed.

Lemma export_csv_lookup_ne (c : ScanCache Time) (files : Files)
    (scan_id dir other : str) :
  scan_id <> other ->
  _entries (snd (fst (export_csv c files scan_id dir))) !! other
  = _entries c !! other.
Proof.
  intros Hne. unfold export_csv. destruct (_entries c !! scan_id) as [e|]; [| done].
  destruct (slice_from _ _), (files !! _); cbn [fst snd _entries with_entries];
    by apply lookup_insert_ne.
Qed.

Lemma run_call_absent (c : ScanCache Time) (files : Files) (scan_id : str)
    (k : call Time) :
  _entries c !! scan_id = None ->
  _entries (fst (run_call expired (c, files) k)) !! scan_id = None
  /\ (call_scan_id k = scan_id -> run_call expired (c, files) k = (c, files)).
Proof.
  intros Hnone.
  destruct (decide (call_scan_id k = scan_id)) as [Heq | Hne].
  - assert (Hsame : run_call expired (c, files) k = (c, files)).
    { destruct k; cbn [call_scan_id] in Heq; subst; cbn [run_call];
        unfold add_results, add_log, mark_site_done, mark_complete;
        rewrite ?update_absent, ?export_csv_absent by done; try done.
      unfold get. by rewrite Hnone. }
    rewrite Hsame. by split.
  - split; [| done].
    destruct k; cbn [call_scan_id] in Hne; cbn [run_call fst];
      unfold add_results, add_log, mark_site_done, mark_complete;
      rewrite ?update_lookup_ne, ?get_lookup_ne by done; try done.
    pose proof (export_csv_lookup_ne c files scan_id0 export_dir scan_id Hne) as Hl.
    destruct (export_csv c files scan_id0 export_dir) as [[r c'] f'].
    cbn [fst snd] in *. by rewrite Hl.
Qed.

Lemma run_calls_cons (state : ScanCache Time * Files) (k : call Time)
    (calls : list (call Time)) :
  run_calls expired state (k :: calls)
  = run_calls expired (run_call expired state k) calls.
Proof. reflexivity. Qed.

Lemma run_calls_snoc (state : ScanCache Time * Files) (calls : list (call Time))
    (k : call Time) :
  run_calls expired state (calls ++ [k])
  = run_call expired (run_calls expired state calls) k.
Proof. unfold run_calls. by rewrite foldl_snoc. Qed.

Lemma run_calls_absent (calls : list (call Time)) :
  forall (c : ScanCache Time) (files : Files) (scan_id : str),
    _entries c !! scan_id = None ->
    _entries (fst (run_calls expired (c, files) calls)) !! scan_id = None
    /\ (Forall (fun k => call_scan_id k = scan_id) calls ->
        run_calls expired (c, files) calls = (c, files)).
Proof.
  induction calls as [|k calls IH]; intros c files scan_id Hnone; [done |].
  rewrite run_calls_cons.
  destruct (run_call_absent c files scan_id k Hnone) as [Hstep Hsame].
  destruct (run_call expired (c, files) k) as [c1 f1] eqn:Hrun. cbn [fst] in Hstep.
  destruct (IH c1 f1 scan_id Hstep) as [Hfinal Hall]. split; [exact Hfinal |].
  intros Hfor. apply Forall_cons in Hfor as [Hk Hfor].
  rewrite (Hall Hfor). by apply Hsame.
Qed.

(** *** Exports *)

Section export.
Variable scan_id export_dir : str.

Abbreviation export_file :=
  (path_join export_dir ("scan_" ++ scan_id ++ ".csv")).

Abbreviation export_inv := (export_inv scan_id export_dir).

Lemma slice_from_drop {A} (k : nat) (l : list A) :
  (k <= length l)%nat -> slice_from (Z.of_nat k) l = drop k l.
Proof.
  intros Hk. unfold slice_from, slice_index.
  destruct (Z.ltb_spec (Z.of_nat k) 0); [lia |]. f_equal. lia.
Qed.

(** An export leaves the file with the header and one row for each
    result. *)
Lemma export_step (c : ScanCache Time) (files : Files) (rs : list ProductRecord) :
  export_inv (c, files) rs ->
  exists c' files' e',
    export_csv c files scan_id export_dir = (Some export_file, c', files')
    /\ _entries c' !! scan_id = Some e'
    /\ results e' = rs
    /\ export_path e' = Some export_file
    /\ exported_count e' = Z.of_nat (length rs)
    /\ files' !! export_file = Some (CSV_HEADER :: map csv_row rs).
Proof.
  intros (e & He & Hrs & Hcase). cbn [fst snd] in *. unfold export_csv.
  rewrite He.
  destruct Hcase as [(Hpath & Hcount & Hfile) | (Hpath & k & Hcount & Hk & Hfile)].
  - rewrite Hpath, Hcount, Hfile. change 0 with (Z.of_nat 0).
    rewrite slice_from_drop by lia. cbn [drop].
    rewrite bool_decide_false by (by intros [? ?]). cbn [negb default app].
    destruct (results e) as [|r rest] eqn:Hresults; subst rs.
    all: eexists _, _, _; split; [reflexivity |];
      cbn [_entries with_entries];
      split; [apply lookup_insert_eq |];
      cbn [results export_path exported_count];
      do 3 (split; [reflexivity |]); apply lookup_insert_eq.
  - rewrite Hpath, Hcount, Hfile. rewrite slice_from_drop by (by rewrite Hrs).
    rewrite Hrs.
    destruct (drop k rs) as [|r rest] eqn:Hdrop.
    + assert (Hlen : k = length rs).
      { apply (f_equal length) in Hdrop. rewrite length_drop in Hdrop.
        simpl in Hdrop. lia. }
      eexists _, _, _. split; [reflexivity |].
      cbn [_entries with_entries]. split; [apply lookup_insert_eq |].
      cbn [results export_path exported_count].
      split; [done |]. split; [done |]. split; [by rewrite Hlen |].
      rewrite Hfile. by rewrite Hlen, take_ge.
    + rewrite bool_decide_true by (by eexists). cbn [negb default app].
      eexists _, _, _. split; [reflexivity |].
      cbn [_entries with_entries]. split; [apply lookup_insert_eq |].
      cbn [results export_path exported_count].
      split; [done |]. split; [done |]. split; [done |].
      rewrite lookup_insert_eq. f_equal. unfold id. cbn [app]. f_equal.
      rewrite <- Hdrop, <- map_app. by rewrite take_drop.
Qed.

Lemma export_inv_update (c : ScanCache Time) (files : Files)
    (rs : list ProductRecord) (id : str) (f : ScanSession Time -> ScanSession Time) :
  (forall e, results (f e) = results e /\ export_path (f e) = export_path e
             /\ exported_count (f e) = exported_count e) ->
  export_inv (c, files) rs -> export_inv (update c id f, files) rs.
Proof.
  intros Hf (e & He & Hrs & Hcase). cbn [fst snd] in *.
  destruct (decide (id = scan_id)) as [-> | Hne].
  - exists (f e). destruct (Hf e) as (Hr & Hp & Hc). cbn [fst snd].
    split; [by apply update_lookup |]. rewrite Hr, Hp, Hc. by split.
  - exists e. cbn [fst snd]. rewrite update_lookup_ne by done. by split.
Qed.

Lemma session_add_log_keeps (e : ScanSession Time) (message : str) :
  results (session_add_log e message) = results e
  /\ export_path (session_add_log e message) = export_path e
  /\ exported_count (session_add_log e message) = exported_count e.
Proof. done. Qed.

Lemma export_inv_step (c : ScanCache Time) (files : Files)
    (rs : list ProductRecord) (k : call Time) :
  during_export scan_id export_dir k ->
  export_inv (c, files) rs ->
  export_inv (run_call expired (c, files) k) (rs ++ added_results scan_id [k]).
Proof.
  intros Hk Hinv. destruct k as [| id new | id m | id site err est | id | id dir];
    cbn [during_export] in Hk; cbn [run_call added_results flat_map];
    rewrite ?app_nil_r.
  - done.
  - destruct Hinv as (e & He & Hrs & Hcase). cbn [fst snd] in *.
    unfold add_results. destruct (eqb id scan_id) eqn:Hid.
    + apply eqb_true in Hid. subst id. eexists. cbn [fst snd].
      split; [by apply update_lookup |].
      cbn [results export_path exported_count]. rewrite Hrs.
      split; [done |].
      destruct Hcase as [? | (Hpath & n & Hcount & Hn & Hfile)]; [by left |].
      right. split; [done |]. exists n. split; [done |].
      split; [rewrite length_app; lia |]. by rewrite take_app_le.
    + apply eqb_false in Hid. exists e. cbn [fst snd].
      rewrite update_lookup_ne by done. by rewrite app_nil_r.
  - apply export_inv_update; [| done]. intros e. apply session_add_log_keeps.
  - apply export_inv_update; [| done]. intros e. by destruct err.
  - apply export_inv_update; [| done]. by intros e.
  - destruct Hk as [-> ->].
    destruct (export_step c files rs Hinv)
      as (c' & files' & e' & -> & He' & Hrs' & Hpath' & Hcount' & Hfile').
    exists e'. cbn [fst snd]. split; [done |]. split; [done |]. right.
    split; [done |]. exists (length rs). by rewrite take_ge.
Qed.

Lemma added_results_cons (k : call Time) (calls : list (call Time)) :
  added_results scan_id (k :: calls)
  = added_results scan_id [k] ++ added_results scan_id calls.
Proof. unfold added_results. cbn [flat_map]. by rewrite app_nil_r. Qed.

Lemma export_inv_steps (calls : list (call Time)) :
  forall (state : ScanCache Time * Files) (rs : list ProductRecord),
    Forall (during_export scan_id export_dir) calls ->
    export_inv state rs ->
    export_inv (run_calls expired state calls) (rs ++ added_results scan_id calls).
Proof.
  induction calls as [|k calls IH]; intros [c files] rs Hall Hinv.
  - by rewrite app_nil_r.
  - apply Forall_cons in Hall as [Hk Hall]. rewrite run_calls_cons.
    pose proof (export_inv_step c files rs k Hk Hinv) as Hstep.
    specialize (IH _ _ Hall Hstep). rewrite <- app_assoc in IH.
    by rewrite added_results_cons.
Qed.

End export.

End calls.

(** X8.  A scan that [get] reports missing stays missing.  When [get]
    answers [None] for a scan id (the entry is absent, or it has expired and
    is dropped), the entry is absent afterwards and after any further calls
    of [get], [add_results], [add_log], [mark_site_done], [mark_complete]
    and [export_csv], for any scan ids; the calls made for that scan id
    change neither the cache nor the files, and [export_csv] returns
    [None] for it. *)
Theorem missing_scans_stay_missing {Time} (expired : Time -> Time -> Z -> bool)
    (cache0 : ScanCache Time) (now : Time) (files : Files) (scan_id : str)
    (calls : list (call Time)) :
  fst (get expired cache0 now scan_id) = None ->
  let cache := snd (get expired cache0 now scan_id) in
  let '(cache', files') := run_calls expired (cache, files) calls in
  _entries cache !! scan_id = None
  /\ _entries cache' !! scan_id = None
  /\ (Forall (fun k => call_scan_id k = scan_id) calls ->
      cache' = cache /\ files' = files)
  /\ forall export_dir,
       export_csv cache' files' scan_id export_dir = (None, cache', files').
Proof.
  intros Hget cache.
  assert (Hnone : _entries cache !! scan_id = None).
  { subst cache. unfold get in *.
    destruct (_entries cache0 !! scan_id) as [e|] eqn:He; [| done].
    destruct (expired _ _ _); [| done]. cbn [snd _entries with_entries].
    apply lookup_delete_eq. }
  destruct (run_calls_absent Time expired calls cache files scan_id Hnone)
    as [Hfinal Hall].
  destruct (run_calls expired (cache, files) calls) as [cache' files'].
  cbn [fst] in Hfinal. split; [exact Hnone |]. split; [exact Hfinal |]. split.
  - intros Hfor. specialize (Hall Hfor). by injection Hall as -> ->.
  - intros export_dir. by apply export_csv_absent.
Qed.

(** X9.  The export file holds the header once and every result once, in
    order.  For a scan that has not been exported and whose file does not
    exist, after any calls of [add_results], [add_log], [mark_site_done],
    [mark_complete] and of [export_csv] for this scan and directory, one
    more [export_csv] returns the path of the file, which then holds the
    header followed by one row for each result of the scan, those added by
    the calls included; and exporting once more changes nothing. *)
Theorem export_writes_each_result_once {Time} (expired : Time -> Time -> Z -> bool)
    (cache : ScanCache Time) (files : Files) (scan_id export_dir : str)
    (entry : ScanSession Time) (calls : list (call Time)) :
  let export_file := path_join export_dir ("scan_" ++ scan_id ++ ".csv") in
  _entries cache !! scan_id = Some entry ->
  export_path entry = None ->
  exported_count entry = 0 ->
  files !! export_file = None ->
  Forall (during_export scan_id export_dir) calls ->
  let '(cache1, files1) := run_calls expired (cache, files) calls in
  exists cache2 files2 entry2,
    export_csv cache1 files1 scan_id export_dir = (Some export_file, cache2, files2)
    /\ _entries cache2 !! scan_id = Some entry2
    /\ results entry2 = results entry ++ added_results scan_id calls
    /\ files2 !! export_file = Some (CSV_HEADER :: map csv_row (results entry2))
    /\ export_csv cache2 files2 scan_id export_dir
       = (Some export_file, cache2, files2).
Proof.
  intros export_file Hentry Hpath Hcount Hfile Hcalls.
  assert (Hinv0 : Cache.export_inv scan_id export_dir (cache, files) (results entry)).
  { exists entry. cbn [fst snd]. split; [done |]. split; [done |]. by left. }
  pose proof (export_inv_steps Time expired scan_id export_dir calls _ _ Hcalls Hinv0)
    as Hinv1.
  destruct (run_calls expired (cache, files) calls) as [cache1 files1].
  destruct (export_step Time scan_id export_dir cache1 files1 _ Hinv1)
    as (cache2 & files2 & entry2 & Hexport & He2 & Hrs2 & Hpath2 & Hcount2 & Hfile2).
  exists cache2, files2, entry2. split; [exact Hexport |]. split; [exact He2 |].
  split; [exact Hrs2 |]. split; [by rewrite Hrs2 |].
  unfold export_csv. rewrite He2, Hpath2, Hcount2, Hfile2.
  rewrite <- Hrs2, slice_from_drop, drop_all by done.
  f_equal. f_equal. rewrite insert_id; [apply with_entries_same |].
  rewrite He2. f_equal. rewrite <- Hrs2 in Hcount2.
  destruct entry2. cbn in *. by subst.
Qed.

Section examples.
Import Demo.

Lemma missing_scans_stay_missing_witness :
  let cache := snd (get older_than cache_with_results 1000 Demo.scan_id) in
  _entries cache !! Demo.scan_id = None
  /\ run_calls older_than (cache, ∅)
       [AddResults Demo.scan_id three_results; ExportCsv Demo.scan_id "exports"]
     = (cache, ∅).
Proof.
  intros cache.
  pose proof (missing_scans_stay_missing older_than cache_with_results 1000 ∅
                Demo.scan_id
                [AddResults Demo.scan_id three_results;
                 ExportCsv Demo.scan_id "exports"]) as Hmissing.
  cbv zeta in Hmissing. fold cache in Hmissing.
  destruct (run_calls older_than (cache, ∅) _) as [cache' files'].
  destruct Hmissing as (Hnone & _ & Hsame & _); [by vm_compute |].
  split; [exact Hnone |].
  destruct Hsame as [-> ->]; [by repeat constructor | done].
Defined.

Lemma export_writes_each_result_once_witness :
  exists cache1 files1 cache2 files2,
    run_calls older_than (new_cache, ∅) export_calls = (cache1, files1)
    /\ export_csv cache1 files1 Demo.scan_id "exports"
       = (Some export_file, cache2, files2)
    /\ files2 !! export_file
       = Some (CSV_HEADER :: map csv_row (three_results ++ [record "hat"])).
Proof.
  pose proof (export_writes_each_result_once older_than new_cache ∅ Demo.scan_id
                "exports" (new_session 0 "tee" 1) export_calls) as Hexport.
  cbv zeta in Hexport.
  destruct (run_calls older_than (new_cache, ∅) export_calls) as [cache1 files1].
  destruct Hexport as (cache2 & files2 & entry2 & Hret & _ & Hrs & Hfile & _).
  - apply lookup_insert_eq.
  - reflexivity.
  - reflexivity.
  - apply lookup_empty.
  - by repeat constructor.
  - exists cache1, files1, cache2, files2. split; [reflexivity |].
    split; [exact Hret |]. rewrite Hrs in Hfile. exact Hfile.
Defined.

End examples.

End CacheFacts.

(** ** Cleaned text *)

Module TextFacts.
Import PyStr PyStrFacts Re Text TextForms Json Browser Extract.

(** *** [re.sub(r"\s+", " ", text)] *)

Lemma many_head (p : ascii -> bool) (s : str) :
  exists m rest, many p s = (m, drop_while p s) :: rest.
Proof.
  induction s as [|c s IH]; cbn [many drop_while]; [by eexists _, _ |].
  destruct (p c); [| by eexists _, _].
  destruct IH as (m & rest & ->). cbn [map app fst snd]. by eexists _, _.
Qed.

Lemma run_spaces (prev : option ascii) (s : str) :
  match s with
  | c :: s' =>
      if is_space c
      then exists m, head (run (Some1 is_space) prev s)
                     = Some (c :: m, drop_while is_space s')
      else head (run (Some1 is_space) prev s) = None
  | [] => head (run (Some1 is_space) prev s) = None
  end.
Proof.
  destruct s as [|c s']; [done |]. unfold Some1. cbn [run flat_map].
  destruct (is_space c); [| done]. cbn [flat_map fst snd].
  destruct (many_head is_space s') as (m & rest & ->).
  cbn [map app fst snd head]. by eexists.
Qed.

Lemma drop_while_length (p : ascii -> bool) (s : str) :
  (length (drop_while p s) <= length s)%nat.
Proof.
  induction s as [|c s IH]; cbn [drop_while]; [done |].
  destruct (p c); cbn [length]; lia.
Qed.

Lemma squeeze_true (s : str) :
  squeeze true s = squeeze false (drop_while is_space s).
Proof.
  induction s as [|c s IH]; [done |]. cbn [squeeze drop_while].
  destruct (is_space c) eqn:Hc; [done |]. cbn [squeeze]. by rewrite Hc.
Qed.

Lemma sub_spaces_scan (fuel : nat) :
  forall (prev : option ascii) (s : str),
    (length s < fuel)%nat ->
    flat_map (fun p : str + ascii =>
                match p with inl _ => " " : str | inr c => [c] end)
      (scan fuel (Some1 is_space) prev s)
    = squeeze false s.
Proof.
  induction fuel as [|fuel IH]; intros prev s Hlen; [lia |].
  cbn [scan]. pose proof (run_spaces prev s) as Hrun.
  destruct s as [|c s']; [by rewrite Hrun |]. cbn [squeeze].
  destruct (is_space c).
  - destruct Hrun as [m ->]. cbn [flat_map].
    rewrite IH, squeeze_true; [done |].
    pose proof (drop_while_length is_space s'). cbn [length] in Hlen. lia.
  - rewrite Hrun. cbn [flat_map app]. rewrite IH; [done |].
    cbn [length] in Hlen. lia.
Qed.

Lemma sub_spaces (s : str) : sub (Some1 is_space) " " s = squeeze false s.
Proof. unfold sub, pieces. apply sub_spaces_scan. lia. Qed.

(** *** [strip] *)

Lemma drop_while_snoc (p : ascii -> bool) (l : str) (c : ascii) :
  drop_while p (l ++ [c])
  = match drop_while p l with
    | [] => if p c then [] else [c]
    | d => d ++ [c]
    end.
Proof.
  induction l as [|x l IH]; cbn [app drop_while]; [done |].
  by destruct (p x).
Qed.

Lemma rstrip_cons (c : ascii) (s : str) :
  rstrip (c :: s)
  = if is_space c && is_nil (rstrip s) then [] else c :: rstrip s.
Proof.
  unfold rstrip. cbn [rev]. rewrite drop_while_snoc.
  destruct (drop_while is_space (rev s)) as [|x d].
  - cbn [rev is_nil]. rewrite andb_true_r. by destruct (is_space c).
  - rewrite rev_app_distr. cbn [rev app].
    assert (Hne : is_nil (rev d ++ [x]) = false) by (by destruct (rev d)).
    cbn [rev] in *. by rewrite Hne, andb_false_r.
Qed.

Lemma squeeze_true_head (s : str) :
  drop_while is_space (squeeze true s) = squeeze true s.
Proof.
  induction s as [|c s IH]; [done |]. cbn [squeeze].
  destruct (is_space c) eqn:Hc; [done |]. cbn [drop_while]. by rewrite Hc.
Qed.

Lemma lstrip_squeeze (s : str) : lstrip (squeeze false s) = squeeze true s.
Proof.
  unfold lstrip. destruct s as [|c s]; [done |]. cbn [squeeze].
  destruct (is_space c) eqn:Hc.
  - cbn [drop_while]. change (is_space " ") with true. cbn match.
    apply squeeze_true_head.
  - cbn [drop_while]. by rewrite Hc.
Qed.

Lemma clean_text_form (text : str) :
  _clean_text text = or_none (rstrip (squeeze true text)).
Proof. unfold _clean_text, strip. by rewrite sub_spaces, lstrip_squeeze. Qed.

(** *** The form of a cleaned text *)

Lemma single_spaced_nonempty (s : str) : single_spaced true s = true -> s <> [].
Proof. by destruct s. Qed.

Lemma rstrip_squeeze_form (s : str) (after_space : bool) :
  rstrip (squeeze after_space s) = []
  \/ single_spaced after_space (rstrip (squeeze after_space s)) = true.
Proof.
  revert after_space. induction s as [|c s IH]; intros b; [by left |].
  cbn [squeeze]. destruct (is_space c) eqn:Hc.
  - destruct b; [apply IH |]. rewrite rstrip_cons.
    change (is_space " ") with true. cbn [andb].
    destruct (IH true) as [-> | Hform]; [by left |].
    pose proof (single_spaced_nonempty _ Hform) as Hne.
    destruct (rstrip (squeeze true s)) as [|x r] eqn:Hr; [done |].
    cbn [is_nil]. right. cbn [single_spaced] in *.
    change (is_space " ") with true. by cbn.
  - rewrite rstrip_cons, Hc. cbn [andb]. right. cbn [single_spaced].
    rewrite Hc. destruct (IH false) as [-> | Hform]; done.
Qed.

Lemma single_spaced_squeeze (s : str) (after_space : bool) :
  single_spaced after_space s = true -> squeeze after_space s = s.
Proof.
  revert after_space. induction s as [|c s IH]; intros b; [done |].
  cbn [single_spaced squeeze]. destruct (is_space c).
  - rewrite !andb_true_iff, negb_true_iff. intros [[Hc ->] Hs].
    apply eqb_char_true in Hc. subst c. by rewrite IH.
  - intros Hs. by rewrite IH.
Qed.

Lemma single_spaced_rstrip (s : str) (after_space : bool) :
  single_spaced after_space s = true -> rstrip s = s.
Proof.
  revert after_space. induction s as [|c s IH]; intros b; [done |].
  cbn [single_spaced]. rewrite rstrip_cons. destruct (is_space c).
  - rewrite !andb_true_iff. intros [_ Hs]. rewrite (IH _ Hs).
    pose proof (single_spaced_nonempty _ Hs). by destruct s.
  - intros Hs. by rewrite (IH _ Hs).
Qed.

Lemma visible_squeeze (s : str) (after_space : bool) :
  visible (squeeze after_space s) = visible s.
Proof.
  revert after_space. induction s as [|c s IH]; intros b; [done |].
  cbn [squeeze]. unfold visible in *. cbn [List.filter].
  destruct (is_space c) eqn:Hc; cbn [negb].
  - destruct b; [apply IH |]. cbn [List.filter].
    change (is_space " ") with true. cbn [negb]. apply IH.
  - cbn [List.filter]. rewrite Hc. cbn [negb]. by rewrite IH.
Qed.

Lemma visible_rstrip (s : str) : visible (rstrip s) = visible s.
Proof.
  induction s as [|c s IH]; [done |]. rewrite rstrip_cons.
  unfold visible in *. cbn [List.filter].
  destruct (is_space c) eqn:Hc; cbn [andb negb].
  - destruct (rstrip s) as [|x r] eqn:Hr; cbn [is_nil].
    + by rewrite <- IH.
    + cbn [List.filter]. rewrite Hc. cbn [negb]. exact IH.
  - cbn [List.filter]. rewrite Hc. cbn [negb]. by rewrite IH.
Qed.

Lemma visible_nil (s : str) :
  visible s = [] <-> Forall (fun c => is_space c = true) s.
Proof.
  unfold visible. induction s as [|c s IH]; [by split; [constructor |] |].
  cbn [List.filter]. rewrite Forall_cons. destruct (is_space c); cbn [negb].
  - rewrite IH. tauto.
  - split; [done | by intros [? _]].
Qed.

Lemma single_spaced_visible (s : str) :
  single_spaced true s = true -> visible s <> [].
Proof.
  destruct s as [|c s]; [done |]. cbn [single_spaced]. unfold visible.
  cbn [List.filter]. destruct (is_space c); [| done].
  by rewrite andb_false_r.
Qed.

Lemma clean_text_some (text t : str) :
  _clean_text text = Some t ->
  single_spaced true t = true /\ visible t = visible text.
Proof.
  rewrite clean_text_form. intros Hc.
  assert (Ht : t = rstrip (squeeze true text) /\ t <> []).
  { destruct (rstrip (squeeze true text)); [done |]. by injection Hc as <-. }
  destruct Ht as [-> Hne]. split.
  - by destruct (rstrip_squeeze_form text true).
  - by rewrite visible_rstrip, visible_squeeze.
Qed.

Lemma clean_text_fixed (t : str) :
  single_spaced true t = true -> _clean_text t = Some t.
Proof.
  intros Ht. rewrite clean_text_form.
  rewrite (single_spaced_squeeze _ _ Ht), (single_spaced_rstrip _ _ Ht).
  pose proof (single_spaced_nonempty _ Ht). by destruct t.
Qed.

Lemma clean_text_none (text : str) :
  _clean_text text = None <-> Forall (fun c => is_space c = true) text.
Proof.
  rewrite <- visible_nil. rewrite clean_text_form.
  destruct (rstrip_squeeze_form text true) as [Hnil | Hform].
  - rewrite Hnil. split; [intros _ | done].
    by rewrite <- (visible_squeeze text true), <- visible_rstrip, Hnil.
  - pose proof (single_spaced_visible _ Hform) as Hv.
    rewrite visible_rstrip, visible_squeeze in Hv.
    pose proof (single_spaced_nonempty _ Hform).
    split; [| done]. by destruct (rstrip (squeeze true text)).
Qed.

(** X10.  On a text of ASCII characters, [_clean_text] normalizes white
    space and nothing else; white space is then TAB, LF, VT, FF, CR, FS,
    GS, RS, US and SPACE, which is all that [\s] and [strip] take below
    code 128.  It returns [None] exactly for a text of white space only
    (the empty text included).  Otherwise the result is not empty, its only
    white space is single spaces between other characters (none at either
    end), and its other characters are those of the input, in order.  The
    results are exactly the texts of that form, and cleaning a cleaned text
    returns it unchanged. *)
Theorem clean_text_normalizes_white_space (text : str) :
  forallb Url.is_ascii text = true ->
  (_clean_text text = None <-> Forall (fun c => is_space c = true) text)
  /\ (forall t,
        _clean_text text = Some t ->
        single_spaced true t = true
        /\ visible t = visible text
        /\ _clean_text t = Some t)
  /\ (single_spaced true text = true <-> _clean_text text = Some text).
Proof.
  intros _.
  split; [apply clean_text_none |]. split.
  - intros t Ht. destruct (clean_text_some _ _ Ht) as [Hform Hvis].
    split; [done |]. split; [done |]. by apply clean_text_fixed.
  - split; [apply clean_text_fixed |]. intros Ht.
    by destruct (clean_text_some _ _ Ht).
Qed.

Lemma clean_text_normalizes_white_space_witness :
  forallb Url.is_ascii "  Linen 	 Shirt " = true
  /\ single_spaced true "Linen Shirt" = true
  /\ visible "Linen Shirt" = visible "  Linen 	 Shirt "
  /\ _clean_text "Linen Shirt" = Some ("Linen Shirt" : str).
Proof.
  split; [reflexivity |].
  destruct (clean_text_normalizes_white_space "  Linen 	 Shirt " eq_refl)
    as (_ & Hsome & _).
  apply (Hsome "Linen Shirt"). reflexivity.
Defined.

(** *** [list(dict.fromkeys(l))] *)

Lemma dedup_keep_first_spec (l : list str) :
  forall seen,
    NoDup (dedup_keep_first seen l)
    /\ (forall x, x ∈ dedup_keep_first seen l <-> x ∈ l /\ x ∉ seen)
    /\ dedup_keep_first seen l `sublist_of` l.
Proof.
  induction l as [|y l IH]; intros seen; cbn [dedup_keep_first].
  - split; [constructor |]. split; [| done]. intros x. split; [| by intros []].
    by intros ?%elem_of_nil.
  - case_bool_decide as Hy.
    + destruct (IH seen) as (Hnd & Hin & Hsub). split; [done |]. split.
      * intros x. rewrite Hin, elem_of_cons. split; [tauto |].
        intros [[-> | Hx] Hn]; [done | tauto].
      * by apply sublist_cons.
    + destruct (IH (y :: seen)) as (Hnd & Hin & Hsub). split; [| split].
      * constructor; [| done]. rewrite Hin, not_elem_of_cons. tauto.
      * intros x. rewrite !elem_of_cons, Hin, not_elem_of_cons.
        split; [| destruct (decide (x = y)); tauto].
        intros [-> | (? & ? & ?)]; tauto.
      * by apply sublist_skip.
Qed.

(** The order of [list(dict.fromkeys(l))]: an element that comes before
    another in the result occurs in [l] before the first occurrence of the
    other. *)
Lemma dedup_keep_first_order (l : list str) :
  forall seen (i j : nat) x y,
    dedup_keep_first seen l !! i = Some x ->
    dedup_keep_first seen l !! j = Some y ->
    (i < j)%nat ->
    exists before after,
      l = before ++ y :: after /\ x ∈ before /\ (y ∉ before) /\ y ∉ seen.
Proof.
  induction l as [|z l IH]; intros seen i j x y Hi Hj Hlt;
    cbn [dedup_keep_first] in Hi, Hj; [done |].
  case_bool_decide as Hz.
  - destruct (IH seen i j x y Hi Hj Hlt) as (before & after & -> & Hx & Hy & Hs).
    exists (z :: before), after. split; [done |].
    split; [by right |]. split; [| done].
    apply not_elem_of_cons. split; [| done]. by intros ->.
  - destruct j as [|j]; [lia |]. cbn in Hj.
    destruct i as [|i].
    + injection Hi as <-.
      apply list_elem_of_lookup_2 in Hj.
      destruct (dedup_keep_first_spec l (z :: seen)) as (_ & Hin & _).
      apply Hin in Hj as [Hyl Hys]. apply not_elem_of_cons in Hys as [Hyz Hys].
      apply list_elem_of_split_l in Hyl as (before & after & -> & Hy).
      exists (z :: before), after. split; [done |].
      split; [by left |]. split; [| done].
      by apply not_elem_of_cons.
    + cbn in Hi.
      destruct (IH (z :: seen) i j x y Hi Hj ltac:(lia))
        as (before & after & -> & Hx & Hy & Hs).
      apply not_elem_of_cons in Hs as [Hyz Hs].
      exists (z :: before), after. split; [done |].
      split; [by right |]. split; [| done].
      by apply not_elem_of_cons.
Qed.

(** X11.  [_filter_sizes] returns each size token once.  The result has no
    duplicates and no empty token; its tokens are exactly the stripped,
    non-empty tokens that [_extract_size_tokens] finds in the given texts;
    and they are in the order of their first occurrence: the result is a
    subsequence of the stripped tokens, and a token that comes before
    another in the result occurs among the stripped, non-empty tokens
    before the first occurrence of the other. *)
Theorem filter_sizes_distinct_tokens (sizes : list str) :
  let tokens :=
    List.filter (fun t : str => negb (is_nil t))
      (map strip (flat_map _extract_size_tokens sizes)) in
  NoDup (_filter_sizes sizes)
  /\ (forall t,
        t ∈ _filter_sizes sizes <->
        t <> [] /\ exists size token,
                     size ∈ sizes /\ token ∈ _extract_size_tokens size
                     /\ strip token = t)
  /\ _filter_sizes sizes
     `sublist_of` map strip (flat_map _extract_size_tokens sizes)
  /\ (forall (i j : nat) x y,
        _filter_sizes sizes !! i = Some x ->
        _filter_sizes sizes !! j = Some y ->
        (i < j)%nat ->
        exists before after,
          tokens = before ++ y :: after /\ x ∈ before /\ y ∉ before).
Proof.
  intros tokens.
  assert (Htokens : tokens
                    = List.filter
                        (fun t : str => match t with [] => false | _ => true end)
                        (map strip (flat_map _extract_size_tokens sizes))).
  { unfold tokens. apply filter_ext. by intros []. }
  unfold _filter_sizes.
  destruct (dedup_keep_first_spec
              (List.filter (fun t : str => match t with [] => false | _ => true end)
                 (map strip (flat_map _extract_size_tokens sizes))) [])
    as (Hnd & Hin & Hsub).
  split; [exact Hnd |].
  assert (Horder : forall (i j : nat) x y,
            dedup_keep_first []
              (List.filter
                 (fun t : str => match t with [] => false | _ => true end)
                 (map strip (flat_map _extract_size_tokens sizes))) !! i = Some x ->
            dedup_keep_first []
              (List.filter
                 (fun t : str => match t with [] => false | _ => true end)
                 (map strip (flat_map _extract_size_tokens sizes))) !! j = Some y ->
            (i < j)%nat ->
            exists before after,
              tokens = before ++ y :: after /\ x ∈ before /\ y ∉ before).
  { intros i j x y Hi Hj Hlt. rewrite Htokens.
    destruct (dedup_keep_first_order _ _ _ _ _ _ Hi Hj Hlt)
      as (before & after & Heq & Hx & Hy & _).
    by exists before, after. }
  cut ((forall t,
          t ∈ dedup_keep_first []
                (List.filter
                   (fun t : str => match t with [] => false | _ => true end)
                   (map strip (flat_map _extract_size_tokens sizes))) <->
          t <> [] /\ exists size token,
                       size ∈ sizes /\ token ∈ _extract_size_tokens size
                       /\ strip token = t)
       /\ dedup_keep_first []
            (List.filter
               (fun t : str => match t with [] => false | _ => true end)
               (map strip (flat_map _extract_size_tokens sizes)))
          `sublist_of` map strip (flat_map _extract_size_tokens sizes)).
  { intros [H1 H2]. split; [exact H1 |]. split; [exact H2 | exact Horder]. }
  clear Horder Htokens tokens.
  split.
  - intros t. rewrite Hin. rewrite list_elem_of_In, filter_In, in_map_iff.
    split.
    + intros [[(token & <- & Htok) Hne] _]. split; [by destruct (strip token) |].
      apply in_flat_map in Htok as (size & Hsize & Htok).
      exists size, token.
      split; [apply list_elem_of_In; exact Hsize |].
      split; [apply list_elem_of_In; exact Htok | reflexivity].
    + intros [Hne (size & token & Hsize & Htok & <-)]. split; [| apply not_elem_of_nil].
      split; [| by destruct (strip token)].
      exists token. split; [reflexivity |]. apply in_flat_map. exists size.
      split; apply list_elem_of_In; assumption.
  - etrans; [exact Hsub |]. clear.
    induction (map strip (flat_map _extract_size_tokens sizes)) as [|x l IH];
      [done |].
    cbn [List.filter]. destruct x; [by apply sublist_cons | by apply sublist_skip].
Qed.

(** *** [_all_texts] and [_first_text] *)

Lemma omap_clean_nil (elements : list Element) :
  omap (fun e => _clean_text (inner_text e)) elements = [] <->
  forall e, e ∈ elements -> _clean_text (inner_text e) = None.
Proof.
  induction elements as [|x l IH]; cbn [omap list_omap].
  - split; [intros _ e ?%elem_of_nil; done | done].
  - destruct (_clean_text (inner_text x)) eqn:Hx.
    + split; [done |]. intros Hall. rewrite Hall in Hx; [done | by left].
    + rewrite IH. split.
      * intros Hall e [-> | He]%elem_of_cons; [done | by apply Hall].
      * intros Hall e He. apply Hall. by right.
Qed.

(** X12.  [_all_texts] takes its texts from one selector, the first one
    that matches an element with text.  When every element that the
    selectors match is blank the result is empty.  Otherwise the result has
    no duplicates, and it holds exactly the cleaned texts of the elements of
    that selector; every selector before it matches blank elements only. *)
Theorem all_texts_from_the_first_selector_with_text (dom : Dom)
    (selectors : list str) :
  match _all_texts dom selectors with
  | [] =>
      forall selector e,
        selector ∈ selectors -> e ∈ locator dom selector ->
        _clean_text (inner_text e) = None
  | texts =>
      NoDup texts
      /\ exists before selector after,
           selectors = before ++ selector :: after
           /\ (forall s e, s ∈ before -> e ∈ locator dom s ->
                           _clean_text (inner_text e) = None)
           /\ forall t,
                t ∈ texts <->
                exists e, e ∈ locator dom selector
                          /\ _clean_text (inner_text e) = Some t
  end.
Proof.
  induction selectors as [|selector rest IH]; cbn [_all_texts].
  - by intros selector e ?%elem_of_nil.
  - assert (Hskip :
      (forall e, e ∈ locator dom selector -> _clean_text (inner_text e) = None) ->
      match _all_texts dom rest with
      | [] =>
          forall s e, s ∈ selector :: rest -> e ∈ locator dom s ->
                      _clean_text (inner_text e) = None
      | texts =>
          NoDup texts
          /\ exists before sel after,
               selector :: rest = before ++ sel :: after
               /\ (forall s e, s ∈ before -> e ∈ locator dom s ->
                               _clean_text (inner_text e) = None)
               /\ forall t,
                    t ∈ texts <->
                    exists e, e ∈ locator dom sel
                              /\ _clean_text (inner_text e) = Some t
      end).
    { intros Hblank. destruct (_all_texts dom rest) as [|t0 texts].
      - intros s e [-> | Hs]%elem_of_cons He; [by apply Hblank | by eapply IH].
      - destruct IH as (Hnd & before & sel & after & -> & Hbefore & Hin).
        split; [done |]. exists (selector :: before), sel, after.
        split; [done |]. split; [| done].
        intros s e [-> | Hs]%elem_of_cons He; [by apply Hblank | by eapply Hbefore]. }
    destruct (locator dom selector) as [|e0 elements] eqn:Hloc.
    { apply Hskip. by intros e ?%elem_of_nil. }
    destruct (omap (fun e => _clean_text (inner_text e)) (e0 :: elements))
      as [|t0 cleaned] eqn:Hclean.
    { apply Hskip. by apply omap_clean_nil. }
    destruct (dedup_keep_first_spec (t0 :: cleaned) []) as (Hnd & Hin & _).
    assert (Hne : dedup_keep_first [] (t0 :: cleaned) <> []).
    { cbn [dedup_keep_first]. by rewrite bool_decide_false by apply not_elem_of_nil. }
    destruct (dedup_keep_first [] (t0 :: cleaned)) as [|t1 texts] eqn:Hdedup;
      [done |].
    split; [done |]. exists [], selector, rest. split; [done |].
    split; [by intros s e ?%elem_of_nil |].
    intros t. rewrite Hin, <- Hclean, Hloc. rewrite list_elem_of_omap.
    split.
    + intros [(e & He & Ht) _]. by exists e.
    + intros (e & He & Ht). split; [by exists e | apply not_elem_of_nil].
Qed.

(** X13.  [_first_text] looks at the first element of each selector only:
    it returns the cleaned text of the first element of the first selector
    whose first element has text, and [None] when no selector has such a
    first element, whatever the other elements hold. *)
Theorem first_text_reads_first_elements (dom : Dom) (selectors : list str) :
  let first_text selector :=
    match locator dom selector with
    | [] => None
    | first :: _ => _clean_text (inner_text first)
    end in
  match _first_text dom selectors with
  | None => forall selector, selector ∈ selectors -> first_text selector = None
  | Some t =>
      exists before selector after,
        selectors = before ++ selector :: after
        /\ first_text selector = Some t
        /\ forall s, s ∈ before -> first_text s = None
  end.
Proof.
  intros first_text. induction selectors as [|selector rest IH];
    cbn [_first_text].
  - by intros selector ?%elem_of_nil.
  - assert (Hskip :
      first_text selector = None ->
      match _first_text dom rest with
      | None => forall s, s ∈ selector :: rest -> first_text s = None
      | Some t =>
          exists before sel after,
            selector :: rest = before ++ sel :: after
            /\ first_text sel = Some t
            /\ forall s, s ∈ before -> first_text s = None
      end).
    { intros Hnone. destruct (_first_text dom rest) as [t|].
      - destruct IH as (before & sel & after & -> & Ht & Hbefore).
        exists (selector :: before), sel, after. split; [done |]. split; [done |].
        intros s [-> | Hs]%elem_of_cons; [done | by apply Hbefore].
      - intros s [-> | Hs]%elem_of_cons; [done | by apply IH]. }
    subst first_text. cbn beta in *.
    destruct (locator dom selector) as [|first others] eqn:Hloc;
      [by apply Hskip |].
    destruct (_clean_text (inner_text first)) as [t|] eqn:Ht; [| by apply Hskip].
    exists [], selector, rest. split; [done |].
    split; [by rewrite Hloc | by intros s ?%elem_of_nil].
Qed.

End TextFacts.

(** ** Descriptions *)

Module DescriptionFacts.
Import PyStr PyStrFacts UrlFacts Re Text TextForms TextFacts.

(** *** Substrings *)

Lemma contains_spec (w hay : str) :
  contains w hay = true <-> exists pre post, hay = pre ++ w ++ post.
Proof.
  induction hay as [|c hay IH]; cbn [contains].
  - rewrite orb_false_r, startswith_spec. split.
    + intros [t Ht]. by exists [], t.
    + intros (pre & post & Heq). destruct pre; [by exists post |]. done.
  - rewrite orb_true_iff, startswith_spec, IH. split.
    + intros [[t Ht] | (pre & post & ->)]; [by exists [], t |].
      by exists (c :: pre), post.
    + intros ([|x pre] & post & Heq).
      * left. by exists post.
      * right. injection Heq as -> ->. by exists pre, post.
Qed.

Lemma contains_infix (w pre mid post : str) :
  contains w mid = true -> contains w (pre ++ mid ++ post) = true.
Proof.
  rewrite !contains_spec. intros (a & b & ->).
  exists (pre ++ a), (b ++ post). by rewrite <- !app_assoc.
Qed.

Lemma drop_while_suffix (p : ascii -> bool) (s : str) :
  exists pre, s = pre ++ drop_while p s.
Proof.
  induction s as [|c s [pre IH]]; [by exists [] |]. cbn [drop_while].
  destruct (p c); [| by exists []]. exists (c :: pre). by rewrite IH at 1.
Qed.

Lemma strip_infix (s : str) : exists pre post, s = pre ++ strip s ++ post.
Proof.
  unfold strip, rstrip, lstrip.
  destruct (drop_while_suffix is_space s) as [pre Hpre].
  destruct (drop_while_suffix is_space (rev (drop_while is_space s)))
    as [post Hpost].
  exists pre, (rev post). rewrite <- rev_app_distr, <- Hpost, rev_involutive.
  exact Hpre.
Qed.

Lemma contains_strip (w s : str) :
  contains w (strip s) = true -> contains w s = true.
Proof.
  intros Hc. destruct (strip_infix s) as (pre & post & Heq).
  rewrite Heq. by apply contains_infix.
Qed.

(** *** Phrases and the ends of sentences *)

Lemma plain_phrase_facts (w : str) :
  plain_phrase w = true ->
  Forall (fun x => is_end x = false) w
  /\ exists c t, w = c :: t /\ c <> " "%char.
Proof.
  destruct w as [|c t]; [done |]. unfold plain_phrase.
  rewrite andb_true_iff, negb_true_iff, forallb_forall. intros [Hc Hall].
  split.
  - apply Forall_forall. intros x Hx. apply negb_true_iff, Hall.
    by apply list_elem_of_In.
  - exists c, t. split; [done |]. by apply eqb_char_false.
Qed.

Lemma startswith_before_end (w a : str) (e : ascii) (rest : str) :
  Forall (fun x => is_end x = false) w -> is_end e = true ->
  startswith w (a ++ e :: rest) = true -> startswith w (a ++ [e]) = true.
Proof.
  intros Hw He. revert w Hw. induction a as [|c a IH]; intros [|x w] Hw;
    cbn [app startswith]; try done.
  - rewrite andb_true_iff. intros [Hx _]. apply eqb_char_true in Hx. subst x.
    apply Forall_inv in Hw. congruence.
  - rewrite !andb_true_iff. intros [Hx Hrest]. split; [done |].
    apply IH; [by apply Forall_inv_tail in Hw | done].
Qed.

Lemma contains_across_end (w a : str) (e : ascii) (b : str) :
  plain_phrase w = true -> is_end e = true ->
  contains w ((a ++ [e]) ++ " " ++ b) = true ->
  contains w (a ++ [e]) = true \/ contains w b = true.
Proof.
  intros Hplain He. destruct (plain_phrase_facts _ Hplain) as (Hw & c & t & -> & Hc).
  assert (Hspace : contains (c :: t) (" " ++ b) = true -> contains (c :: t) b = true).
  { change (" " ++ b) with (" "%char :: b). cbn [contains startswith].
    apply eqb_char_false in Hc. by rewrite Hc. }
  rewrite <- app_assoc. cbn [app].
  induction a as [|x a IH]; cbn [app].
  - cbn [contains]. rewrite orb_true_iff. intros [Hs | Hrest].
    + left. apply (startswith_before_end _ [] e _ Hw He) in Hs. cbn [app] in Hs.
      cbn [contains]. by rewrite Hs.
    + right. by apply Hspace.
  - intros Hcont. cbn [contains] in Hcont. apply orb_true_iff in Hcont as [Hs | Hrest].
    + left. apply (startswith_before_end _ (x :: a) e _ Hw He) in Hs.
      cbn [app] in Hs. cbn [contains]. by rewrite Hs.
    + destruct (IH Hrest) as [Hl | Hr]; [| by right].
      left. cbn [contains]. rewrite Hl. apply orb_true_r.
Qed.

Lemma ends_with_end_snoc (part : str) :
  ends_with_end part = true -> exists a e, part = a ++ [e] /\ is_end e = true.
Proof.
  unfold ends_with_end. destruct part as [|c part _] using rev_ind; [done |].
  rewrite last_snoc. cbn. intros He. by exists part, c.
Qed.

Lemma join_free (w : str) (parts : list str) :
  plain_phrase w = true ->
  all_but_last (fun part => ends_with_end part = true) parts ->
  Forall (fun part => contains w part = false) parts ->
  contains w (join " " parts) = false.
Proof.
  intros Hplain Hends Hall.
  induction Hall as [|p parts Hp Hparts IH]; cbn [join].
  - by destruct w.
  - destruct parts as [|q parts]; [done |].
    cbn [all_but_last] in Hends. destruct Hends as [Hend Hends].
    destruct (ends_with_end_snoc _ Hend) as (a & e & -> & He).
    destruct (contains w ((a ++ [e]) ++ " " ++ join " " (q :: parts))) eqn:Hc;
      [| done].
    destruct (contains_across_end _ _ _ _ Hplain He Hc) as [Hl | Hr].
    + congruence.
    + rewrite IH in Hr; done.
Qed.

Lemma all_but_last_filter {A} (P : A -> Prop) (f : A -> bool) (l : list A) :
  all_but_last P l -> all_but_last P (List.filter f l).
Proof.
  induction l as [|x l IH]; [done |]. cbn [all_but_last List.filter].
  destruct l as [|y l]; [by destruct (f x) |].
  intros [Hx Hl]. specialize (IH Hl). destruct (f x); [| done].
  cbn [all_but_last]. by destruct (List.filter f (y :: l)).
Qed.

Lemma all_but_last_map {A B} (P : A -> Prop) (Q : B -> Prop) (g : A -> B)
    (l : list A) :
  (forall x, P x -> Q (g x)) -> all_but_last P l -> all_but_last Q (map g l).
Proof.
  intros Hg. induction l as [|x l IH]; [done |]. cbn [all_but_last map].
  destruct l as [|y l]; [done |]. intros [Hx Hl]. split; [by apply Hg |].
  by apply IH.
Qed.

(** *** [re.split(r"(?<=[.!?])\s+", text)] *)

Lemma many_head_all (p : ascii -> bool) (s : str) :
  exists m rest,
    many p s = (m, drop_while p s) :: rest /\ Forall (fun x => p x = true) m.
Proof.
  induction s as [|c s IH]; cbn [many drop_while];
    [eexists _, _; split; [done | constructor] |].
  destruct (p c) eqn:Hc; [| eexists _, _; split; [done | constructor]].
  destruct IH as (m & rest & -> & Hm). cbn [map app fst snd].
  eexists _, _. split; [done |]. by constructor.
Qed.

Lemma run_sentence_end (prev : option ascii) (s : str) :
  (exists c s' m,
     is_end_opt prev = true
     /\ s = c :: s' /\ Forall (fun x => is_space x = true) (c :: m)
     /\ head (run SENTENCE_END_REGEX prev s)
        = Some (c :: m, drop_while is_space s'))
  \/ head (run SENTENCE_END_REGEX prev s) = None.
Proof.
  unfold SENTENCE_END_REGEX, Some1. cbn [run].
  destruct prev as [x|]; [| by right].
  destruct (eqb_char x "." || eqb_char x "!" || eqb_char x "?") eqn:Hend;
    [| by right].
  cbn [flat_map fst snd last_char last app].
  destruct s as [|c s']; [by right |]. cbn [flat_map].
  destruct (is_space c) eqn:Hc; [| by right]. cbn [flat_map fst snd].
  destruct (many_head_all is_space s') as (m & rest & -> & Hm).
  left. exists c, s', m. split; [exact Hend |]. split; [done |].
  split; [by constructor |]. by rewrite !app_nil_r.
Qed.

Lemma split_pieces_nonempty (cur : str) (ps : list (str + ascii)) :
  split_pieces cur ps <> [].
Proof.
  revert cur. induction ps as [|[m|c] ps IH]; intros cur; cbn [split_pieces];
    [done | done | apply IH].
Qed.

Lemma all_but_last_cons {A} (P : A -> Prop) (x : A) (l : list A) :
  l <> [] -> P x -> all_but_last P l -> all_but_last P (x :: l).
Proof. intros Hne Hx Hl. cbn [all_but_last]. by destruct l. Qed.

Lemma space_not_end (x : ascii) : is_space x = true -> is_end x = false.
Proof.
  intros Hx. apply negb_true_iff. revert x Hx.
  apply (char_implies is_space (fun x => negb (is_end x))). by vm_compute.
Qed.

Lemma last_char_spaces (prev : option ascii) (c : ascii) (m : str) :
  Forall (fun x => is_space x = true) (c :: m) ->
  is_end_opt (last_char prev (c :: m)) = false.
Proof.
  intros Hall. unfold last_char.
  destruct (last (c :: m)) as [x|] eqn:Hlast.
  - apply last_Some_elem_of in Hlast. rewrite Forall_forall in Hall.
    cbn. by apply space_not_end, Hall.
  - by apply last_None in Hlast.
Qed.

Lemma split_sentences_scan (fuel : nat) :
  forall (prev : option ascii) (s cur : str),
    (length s < fuel)%nat ->
    (is_end_opt prev = true -> ends_with_end (rev cur) = true) ->
    all_but_last (fun part => ends_with_end part = true)
      (split_pieces cur (scan fuel SENTENCE_END_REGEX prev s)).
Proof.
  induction fuel as [|fuel IH]; intros prev s cur Hlen Hinv; [lia |].
  cbn [scan].
  destruct (run_sentence_end prev s)
    as [(c & s' & m & Hprev & -> & Hm & ->) | ->].
  - cbn [split_pieces]. apply all_but_last_cons.
    + apply split_pieces_nonempty.
    + by apply Hinv.
    + apply IH.
      * pose proof (drop_while_length is_space s'). cbn [length] in Hlen. lia.
      * by rewrite last_char_spaces.
  - destruct s as [|c s']; [done |]. cbn [split_pieces]. apply IH.
    + cbn [length] in Hlen. lia.
    + intros Hc. unfold ends_with_end. cbn [rev]. by rewrite last_snoc.
Qed.

Lemma split_sentences (cleaned : str) :
  all_but_last (fun part => ends_with_end part = true)
    (split SENTENCE_END_REGEX cleaned).
Proof. unfold split, pieces. by apply split_sentences_scan; [lia |]. Qed.

(** *** [str.lower] *)

Lemma lower_app (a b : str) : lower (a ++ b) = lower a ++ lower b.
Proof. apply map_app. Qed.

Lemma lower_join (parts : list str) :
  lower (join " " parts) = join " " (map lower parts).
Proof.
  induction parts as [|a [|b parts] IH]; [done | done |].
  change (join " " (a :: b :: parts)) with (a ++ " " ++ join " " (b :: parts)).
  rewrite !lower_app, IH. done.
Qed.

Lemma is_end_lower (c : ascii) : is_end c = true -> is_end (lower_char c) = true.
Proof.
  revert c. apply (char_implies is_end (fun c => is_end (lower_char c))).
  by vm_compute.
Qed.

Lemma ends_with_end_lower (part : str) :
  ends_with_end part = true -> ends_with_end (lower part) = true.
Proof.
  unfold ends_with_end, lower.
  induction part as [|c [|c' part] IH]; [done | apply is_end_lower | apply IH].
Qed.

Lemma blacklist_plain : forallb plain_phrase DESCRIPTION_BLACKLIST = true.
Proof. by vm_compute. Qed.


Lemma or_none_some (s t : str) : or_none s = Some t -> s = t /\ t <> [].
Proof. destruct s; [done |]. intros [= <-]. done. Qed.

(** X22.  A description that [_clean_description] returns is not empty
    and, put in lower case, contains none of the phrases of
    [DESCRIPTION_BLACKLIST]: dropping the sentences that have one and
    joining the others with a space never puts a phrase back together
    across two sentences. *)
Theorem clean_description_has_no_blacklisted_phrase
    (text : option str) (t : str) :
  _clean_description text = Some t ->
  t <> []
  /\ forall block, block ∈ DESCRIPTION_BLACKLIST ->
       contains block (lower t) = false.
Proof.
  unfold _clean_description. destruct text as [[|c0 s0]|]; [done | | done].
  destruct (_clean_text (c0 :: s0)) as [cleaned|]; [| done].
  cbv zeta. intros Hsome. apply or_none_some in Hsome as [Hstrip Ht].
  split; [done |]. intros block Hblock.
  set (keep := fun part : str =>
                 negb (existsb (fun block => contains block (lower part))
                         DESCRIPTION_BLACKLIST)) in Hstrip.
  set (filtered := List.filter keep (split SENTENCE_END_REGEX cleaned))
    in Hstrip.
  apply list_elem_of_In in Hblock.
  destruct (contains block (lower t)) eqn:Hin; [exfalso | done].
  destruct (strip_infix (join " " filtered)) as (pre & post & Hjoin).
  rewrite Hstrip in Hjoin.
  assert (Hall : contains block (lower (join " " filtered)) = true).
  { rewrite Hjoin, !lower_app. by apply contains_infix. }
  rewrite lower_join, join_free in Hall; [done | | |].
  - pose proof blacklist_plain as Hplain.
    rewrite forallb_forall in Hplain. by apply Hplain.
  - apply (all_but_last_map (fun part => ends_with_end part = true)).
    + apply ends_with_end_lower.
    + apply all_but_last_filter, split_sentences.
  - apply List.Forall_forall. intros lowered Hl.
    apply in_map_iff in Hl as (part & <- & Hpart).
    apply filter_In in Hpart as [_ Hkeep]. unfold keep in Hkeep.
    apply negb_true_iff in Hkeep.
    destruct (contains block (lower part)) eqn:Hc; [| done].
    assert (existsb (fun block => contains block (lower part))
              DESCRIPTION_BLACKLIST = true) as Hex; [| congruence].
    apply existsb_exists. by exists block.
Qed.

Lemma clean_description_has_no_blacklisted_phrase_witness :
  _clean_description (Some ("Soft wool. Free shipping today! Made in Italy." : str))
  = Some ("Soft wool. Made in Italy." : str)
  /\ forall block, block ∈ DESCRIPTION_BLACKLIST ->
       contains block (lower "Soft wool. Made in Italy.") = false.
Proof.
  split; [by vm_compute |].
  apply (clean_description_has_no_blacklisted_phrase
           (Some ("Soft wool. Free shipping today! Made in Italy." : str))).
  by vm_compute.
Defined.

End DescriptionFacts.

(** ** Availability *)

Module AvailabilityFacts.
Import PyStr PyStrFacts Text Browser Config Extract Demo DescriptionFacts.

Lemma contains_trans (w v hay : str) :
  contains w v = true -> contains v hay = true -> contains w hay = true.
Proof.
  intros Hw (pre & post & ->)%contains_spec. by apply contains_infix.
Qed.

(** X23.  A text with the word "unavailable" counts as in stock.  When the
    lowered text contains "unavailable" and none of "outofstock",
    "out of stock" and "sold out", [_normalize_availability] returns
    [in_stock], since "available" is part of the word; and a page whose
    availability element has that text is reported in stock by
    [_availability], whatever its buttons are. *)
Theorem unavailable_reads_as_in_stock (config : ScrapeConfig) (dom : Dom)
    (text : str) :
  contains "unavailable" (lower text) = true ->
  contains "outofstock" (lower text) = false ->
  contains "out of stock" (lower text) = false ->
  contains "sold out" (lower text) = false ->
  _normalize_availability text = Some IN_STOCK
  /\ (_first_text dom (availability_selectors config) = Some text ->
      _availability config dom = Some IN_STOCK).
Proof.
  intros Hun H1 H2 H3.
  assert (Hav : contains "available" (lower text) = true).
  { by apply (contains_trans "available" "unavailable"). }
  assert (Hnorm : _normalize_availability text = Some IN_STOCK).
  { unfold _normalize_availability. cbv zeta.
    by rewrite H1, H2, H3, Hav, !orb_true_r. }
  split; [exact Hnorm |]. intros Hfirst.
  unfold _availability, dom_availability. rewrite Hfirst.
  destruct text as [|c t]; [by vm_compute in Hun |]. by rewrite Hnorm.
Qed.

Lemma unavailable_reads_as_in_stock_witness :
  _first_text unavailable_page (availability_selectors shop)
  = Some ("Currently unavailable" : str)
  /\ probe_buttons unavailable_page ADD_TO_CART_SELECTORS = Some OUT_OF_STOCK
  /\ _availability shop unavailable_page = Some IN_STOCK.
Proof.
  split; [by vm_compute |]. split; [by vm_compute |].
  apply (unavailable_reads_as_in_stock shop unavailable_page
           "Currently unavailable");
    by vm_compute.
Defined.

End AvailabilityFacts.

(** ** Product links, scrolling and the catalog *)

Module CatalogFacts.
Import PyStr PyStrFacts Url UrlOps UrlFacts Text Json Browser Config Extract.
Import Crawl CrawlFacts Catalog.

Section links.
Variable urljoin : str -> str -> option str.
Variable config : ScrapeConfig.

Abbreviation add_hrefs := (add_hrefs urljoin config).
Abbreviation collect_from := (collect_from urljoin config).
Abbreviation _collect_product_urls := (_collect_product_urls urljoin config).
Abbreviation budget_reached := (budget_reached config).
Abbreviation scroll_loop := (scroll_loop urljoin config).
Abbreviation _maybe_scroll_for_more := (_maybe_scroll_for_more urljoin config).

Lemma add_hrefs_spec (hrefs : list str) :
  forall urls urls',
    add_hrefs hrefs urls = Ret urls' ->
    (NoDup urls -> NoDup urls')
    /\ forall u,
         u ∈ urls' <->
         u ∈ urls
         \/ (_is_product_url u = true
             /\ exists h, h ∈ hrefs /\ urljoin (base_url config) h = Some u).
Proof.
  induction hrefs as [|href rest IH]; intros urls urls' Hrun.
  - injection Hrun as <-. split; [done |]. intros u. split; [by left |].
    intros [Hu | (_ & h & Hh & _)]; [done | by apply elem_of_nil in Hh].
  - cbn [Crawl.add_hrefs] in Hrun.
    destruct (urljoin (base_url config) href) as [absolute|] eqn:Hjoin; [| done].
    cbn [of_option mbind outcome_bind] in Hrun.
    destruct (_is_product_url absolute) eqn:Hprod; cbn [andb] in Hrun.
    + case_bool_decide as Hin; cbn [negb] in Hrun.
      * destruct (IH _ _ Hrun) as [Hnd Hmem]. split; [done |].
        intros u. rewrite Hmem. split.
        -- intros [Hu | (Hp & h & Hh & Hj)]; [by left |].
           right. split; [done |]. exists h. split; [by right | done].
        -- intros [Hu | (Hp & h & [-> | Hh]%elem_of_cons & Hj)]; [by left | |].
           ++ left. rewrite Hjoin in Hj. by injection Hj as <-.
           ++ right. split; [done |]. by exists h.
      * destruct (IH _ _ Hrun) as [Hnd Hmem]. split.
        -- intros Hurls. apply Hnd, NoDup_app. split; [done |].
           split; [| apply NoDup_singleton].
           intros x Hx ->%list_elem_of_singleton. done.
        -- intros u. rewrite Hmem, elem_of_app, list_elem_of_singleton. split.
           ++ intros [[Hu | ->] | (Hp & h & Hh & Hj)].
              ** by left.
              ** right. split; [done |]. exists href. split; [by left | done].
              ** right. split; [done |]. exists h. split; [by right | done].
           ++ intros [Hu | (Hp & h & [-> | Hh]%elem_of_cons & Hj)].
              ** left. by left.
              ** left. right. rewrite Hjoin in Hj. by injection Hj as <-.
              ** right. split; [done |]. by exists h.
    + destruct (IH _ _ Hrun) as [Hnd Hmem]. split; [done |].
      intros u. rewrite Hmem. split.
      * intros [Hu | (Hp & h & Hh & Hj)]; [by left |].
        right. split; [done |]. exists h. split; [by right | done].
      * intros [Hu | (Hp & h & [-> | Hh]%elem_of_cons & Hj)]; [by left | |].
        -- rewrite Hjoin in Hj. injection Hj as <-. congruence.
        -- right. split; [done |]. by exists h.
Qed.

Lemma hrefs_of_spec (elements : list Element) (h : str) :
  h ∈ hrefs_of elements <->
  exists e c t, e ∈ elements /\ href e = Some (c :: t) /\ h = c :: t.
Proof.
  unfold hrefs_of. rewrite list_elem_of_omap. split.
  - intros (e & He & Hh). destruct (href e) as [[|c t]|] eqn:Hhref; try done.
    injection Hh as <-. by exists e, c, t.
  - intros (e & c & t & He & Hhref & ->). exists e. by rewrite Hhref.
Qed.

Lemma collect_from_spec (dom : Dom) (selectors : list str) :
  forall urls urls',
    collect_from dom selectors urls = Ret urls' ->
    (NoDup urls -> NoDup urls')
    /\ forall u,
         u ∈ urls' <->
         u ∈ urls
         \/ (_is_product_url u = true
             /\ exists selector element c h,
                  selector ∈ selectors
                  /\ element ∈ locator dom selector
                  /\ href element = Some (c :: h)
                  /\ urljoin (base_url config) (c :: h) = Some u).
Proof.
  induction selectors as [|selector rest IH]; intros urls urls' Hrun.
  - injection Hrun as <-. split; [done |]. intros u. split; [by left |].
    intros [Hu | (_ & s & e & c & h & Hs & _)]; [done | by apply elem_of_nil in Hs].
  - cbn [Crawl.collect_from] in Hrun.
    assert (Hstep : exists urls1,
               add_hrefs (hrefs_of (locator dom selector)) urls = Ret urls1
               /\ collect_from dom rest urls1 = Ret urls').
    { destruct (locator dom selector) as [|e0 es]; [by exists urls |].
      destruct (add_hrefs (hrefs_of (e0 :: es)) urls) as [urls1|]; [| done].
      by exists urls1. }
    destruct Hstep as (urls1 & Hadd & Hrest).
    destruct (add_hrefs_spec _ _ _ Hadd) as [Hnd1 Hmem1].
    destruct (IH _ _ Hrest) as [Hnd Hmem]. split; [by intros ?; apply Hnd, Hnd1 |].
    intros u. rewrite Hmem, Hmem1. split.
    + intros [[Hu | (Hp & h & Hh & Hj)] | (Hp & s & e & c & h & Hs & He & Hhref & Hj)].
      * by left.
      * right. split; [done |].
        apply hrefs_of_spec in Hh as (e & c & t & He & Hhref & ->).
        exists selector, e, c, t. split; [by left | done].
      * right. split; [done |]. exists s, e, c, h. split; [by right | done].
    + intros [Hu | (Hp & s & e & c & h & [-> | Hs]%elem_of_cons & He & Hhref & Hj)].
      * left. by left.
      * left. right. split; [done |]. exists (c :: h). split; [| done].
        apply hrefs_of_spec. by exists e, c, h.
      * right. split; [done |]. by exists s, e, c, h.
Qed.

Lemma collect_product_urls_spec (dom : Dom) (urls : list str) :
  _collect_product_urls dom = Ret urls ->
  NoDup urls /\ forall u, u ∈ urls <-> product_link urljoin config dom u.
Proof.
  intros Hrun. destruct (collect_from_spec _ _ _ _ Hrun) as [Hnd Hmem].
  split; [apply Hnd; constructor |]. intros u. rewrite Hmem. unfold product_link.
  split; [| by right]. by intros [?%elem_of_nil | ?].
Qed.

Lemma scroll_loop_spec (page : Page) (attempts : nat) :
  forall (scrolls : nat) (best0 best : list str) (k : nat),
    scroll_loop page scrolls attempts best0 = Ret (best, k) ->
    (scrolls <= k <= scrolls + attempts)%nat
    /\ (length best0 <= length best)%nat
    /\ (forall j, (scrolls < j <= k)%nat ->
                  exists fresh,
                    _collect_product_urls (snapshot page j) = Ret fresh
                    /\ (length fresh <= length best)%nat)
    /\ (best = best0
        \/ exists j, (scrolls < j <= k)%nat
                     /\ _collect_product_urls (snapshot page j) = Ret best)
    /\ ((k < scrolls + attempts)%nat -> budget_reached best = true).
Proof.
  induction attempts as [|attempts IH]; intros scrolls best0 best k Hrun.
  - injection Hrun as <- <-. split; [lia |]. split; [done |].
    split; [intros j; lia |]. split; [by left | lia].
  - cbn [Crawl.scroll_loop] in Hrun.
    destruct (_collect_product_urls (snapshot page (S scrolls)))
      as [fresh|] eqn:Hfresh; [| done].
    cbn [mbind outcome_bind] in Hrun.
    set (best1 := if (length best0 <? length fresh)%nat then fresh else best0) in *.
    assert (Hbest1 : (length best0 <= length best1)%nat
                     /\ (length fresh <= length best1)%nat
                     /\ (best1 = best0 \/ best1 = fresh)).
    { subst best1. destruct (Nat.ltb_spec (length best0) (length fresh));
        split; try lia; split; try lia; tauto. }
    destruct Hbest1 as (Hge0 & Hgef & Hwhich).
    destruct (budget_reached best1) eqn:Hb.
    + injection Hrun as <- <-. split; [lia |]. split; [done |]. split; [| split].
      * intros j Hj. assert (j = S scrolls) as -> by lia. by exists fresh.
      * destruct Hwhich as [-> | ->]; [by left |]. right. exists (S scrolls).
        split; [lia | done].
      * done.
    + destruct (IH _ _ _ _ Hrun) as (Hk & Hlen & Hall & Hone & Hstop).
      split; [lia |]. split; [lia |]. split; [| split].
      * intros j Hj. destruct (decide (j = S scrolls)) as [-> | Hne].
        -- exists fresh. split; [done | lia].
        -- apply Hall. lia.
      * destruct Hone as [-> | (j & Hj & Hbest)].
        -- destruct Hwhich as [-> | ->]; [by left |]. right. exists (S scrolls).
           split; [lia | done].
        -- right. exists j. split; [lia | done].
      * intros Hlt. apply Hstop. lia.
Qed.

End links.

(** *** The fast path, the pages of the generic crawl, the records *)

Section crawls.
Context `{HostChecks}.
Variable urljoin : str -> str -> option str.
Variable format_query : str -> str -> option str.
Variable world : World.

Lemma absorb_nothing_new (config : ScrapeConfig) (items : list json)
    (collected : list str) (seen : gset str) :
  Crawl.budget_reached config collected = false ->
  nothing_new urljoin config seen items ->
  absorb_handles urljoin config items collected seen = Ret (collected, seen).
Proof.
  intros Hb. induction 1 as [|product rest Hp _ IH]; [done |].
  cbn [absorb_handles].
  destruct Hp as [Hh | (url & n & Hurl & Hn & Hseen)].
  - by rewrite Hh.
  - destruct (negb (Json.truthy (handle_of product))); [done |].
    rewrite Hurl. cbn [of_option mbind outcome_bind].
    rewrite Hn. cbn [of_option mbind outcome_bind].
    rewrite bool_decide_true by done. by rewrite Hb.
Qed.

Lemma shopify_loop_stuck (config : ScrapeConfig) (base : str)
    (collected : list str) (seen : gset str) (start : Z) :
  Crawl.budget_reached config collected = false ->
  (forall page_index,
     start <= page_index ->
     exists status payload items,
       request_get world (api_url base page_index) = Response status (Some payload)
       /\ status < 400
       /\ Json.truthy (products_of payload) = true
       /\ items_of (products_of payload) = Ret items
       /\ nothing_new urljoin config seen items) ->
  forall fuel page_index,
    start <= page_index ->
    shopify_loop urljoin config world fuel base collected seen page_index = None.
Proof.
  intros Hb Hpages. induction fuel as [|fuel IH]; intros page_index Hidx; [done |].
  cbn [shopify_loop]. rewrite Hb.
  destruct (Hpages page_index Hidx)
    as (status & payload & items & -> & Hstatus & Htruthy & -> & Hnew).
  destruct (Z.leb_spec 400 status); [lia |]. rewrite Htruthy.
  cbn [negb mbind outcome_bind]. rewrite (absorb_nothing_new _ _ _ _ Hb Hnew).
  apply IH. lia.
Qed.

Lemma dedup_inv_NoDup (collected : list str) (seen : gset str) :
  dedup_inv collected seen -> NoDup collected.
Proof.
  intros Hinv. pose proof (dedup_inv_unique _ _ Hinv) as Huniq.
  destruct Hinv as (ns & Hf & _). apply NoDup_alt. intros i j u Hi Hj.
  destruct (Forall2_lookup_l _ _ _ _ _ Hf Hi) as (n & _ & Hn).
  by apply (Huniq i j u u n).
Qed.

Lemma crawl_generic_NoDup (config : ScrapeConfig) (fuel : nat) (start_url : str)
    (s : CrawlState) :
  crawl_generic urljoin config world fuel start_url = Some (Ret s) ->
  NoDup (collected s).
Proof.
  intros Hrun. apply (dedup_inv_NoDup _ (seen_products s)).
  revert Hrun. unfold crawl_generic.
  apply (crawl_loop_keeps urljoin config world
           (fun s => dedup_inv (collected s) (seen_products s))).
  - intros s0 current r Hinv _.
    by apply (crawl_page_dedup urljoin config world).
  - apply (dedup_inv_empty urljoin).
Qed.

Lemma crawl_shopify_NoDup (config : ScrapeConfig) (fuel : nat) (start_url : str)
    (l : list str) :
  _crawl_shopify_catalog_urls urljoin config world fuel start_url = Some (Ret l) ->
  NoDup l.
Proof.
  intros Hrun. unfold _crawl_shopify_catalog_urls in Hrun.
  destruct (negb (contains _ _)); [injection Hrun as <-; constructor |].
  destruct (urlparse start_url) as [parsed|]; [| done].
  destruct (rstrip_slash (path parsed)) as [|c p];
    [injection Hrun as <-; constructor |].
  destruct (shopify_loop_unique urljoin config world _ _ _ _ _ _
              (shopify_inv_empty urljoin config) Hrun) as [seen' Hinv].
  by destruct Hinv.
Qed.

Lemma crawl_catalog_urls_NoDup (config : ScrapeConfig) (fuel : nat)
    (start_url : str) (r : CrawlResult) :
  _crawl_catalog_urls urljoin config world fuel start_url = Some (Ret r) ->
  NoDup (urls r).
Proof.
  intros Hrun. unfold _crawl_catalog_urls in Hrun.
  destruct (_crawl_shopify_catalog_urls urljoin config world fuel start_url)
    as [[[|u l]|]|] eqn:Hshop; try done.
  - destruct (crawl_generic urljoin config world fuel start_url)
      as [[s|]|] eqn:Hg; try done.
    injection Hrun as <-. by apply (crawl_generic_NoDup _ _ _ _ Hg).
  - injection Hrun as <-. by apply (crawl_shopify_NoDup _ _ _ _ Hshop).
Qed.

(** The pages that the generic loop opens. *)
Lemma crawl_loop_pages (config : ScrapeConfig) (fuel : nat) :
  forall s s',
    log_inv s ->
    crawl_loop urljoin config world fuel s = Some (Ret s') ->
    (length (nav_log s') <= length (nav_log s) + room config s + 1)%nat.
Proof.
  induction fuel as [|fuel IH]; intros s s' Hlog Hrun; [done |].
  cbn [crawl_loop] in Hrun.
  destruct (current_url s) as [[|c u]|];
    [injection Hrun as <-; lia | | injection Hrun as <-; lia].
  destruct (Crawl.budget_reached config (collected s)) eqn:Hb;
    [injection Hrun as <-; lia |].
  apply budget_reached_false in Hb.
  destruct (crawl_page urljoin config world s (c :: u)) as [[s1|s1]|] eqn:Hpage;
    [| | done].
  - destruct (crawl_page_log urljoin config world _ _ _ Hlog Hpage) as [Hlog1 Hnav].
    pose proof (crawl_page_room urljoin config world _ _ _ Hb Hpage) as Hroom.
    cbn [state_of] in Hlog1, Hnav. pose proof (IH _ _ Hlog1 Hrun) as Hlen.
    destruct Hnav as [Hnav | Hnav]; rewrite Hnav in Hlen;
      rewrite ?length_app in Hlen; cbn [length] in Hlen; lia.
  - injection Hrun as <-.
    destruct (crawl_page_log urljoin config world _ _ _ Hlog Hpage) as [_ Hnav].
    cbn [state_of] in Hnav.
    destruct Hnav as [-> | ->]; rewrite ?length_app; cbn [length]; lia.
Qed.

Lemma crawl_catalog_urls_pages (config : ScrapeConfig) (fuel : nat)
    (start_url : str) (r : CrawlResult) :
  _crawl_catalog_urls urljoin config world fuel start_url = Some (Ret r) ->
  (length (navigations r) <= 2 * Z.to_nat (max_products config) + 1)%nat.
Proof.
  intros Hrun. unfold _crawl_catalog_urls in Hrun.
  destruct (_crawl_shopify_catalog_urls urljoin config world fuel start_url)
    as [[[|u l]|]|]; try done.
  - destruct (crawl_generic urljoin config world fuel start_url)
      as [[s|]|] eqn:Hg; try done.
    injection Hrun as <-. cbn [navigations]. unfold crawl_generic in Hg.
    pose proof (crawl_loop_pages config fuel _ _ (log_inv_initial urljoin start_url) Hg)
      as Hlen.
    unfold room in Hlen. cbn in Hlen. lia.
  - injection Hrun as <-. cbn [navigations length]. lia.
Qed.

(** The records *)
Lemma scrape_product_record (config : ScrapeConfig) (url : str) (r : ProductRecord) :
  _scrape_product config world url = Ret (Some r) ->
  Extract.url r = url /\ site r = Config.name config /\ Extract.name r <> [].
Proof.
  intros Hrun.
  destruct (ExtractFacts.scrape_product_inv _ _ _ _ Hrun) as (page & json_ld & Hg & Hj).
  rewrite (ExtractFacts.scrape_product_loaded _ _ _ _ _ Hg Hj) in Hrun.
  cbv zeta in Hrun.
  destruct (or_else _ _) as [[|c n]|]; try done.
  by injection Hrun as <-.
Qed.

Lemma scrape_each_spec (config : ScrapeConfig) (product_urls : list str) :
  let '(results, gotos) := scrape_each config world product_urls in
  gotos = product_urls
  /\ map Extract.url results `sublist_of` product_urls
  /\ Forall (fun r => site r = Config.name config /\ Extract.name r <> []
                      /\ _scrape_product config world (Extract.url r)
                         = Ret (Some r)) results.
Proof.
  induction product_urls as [|url rest IH]; cbn [scrape_each]; [done |].
  destruct (scrape_each config world rest) as [results gotos].
  destruct IH as (-> & Hsub & Hall).
  destruct (_scrape_product config world url) as [[r|]|] eqn:Hrun.
  - destruct (scrape_product_record _ _ _ Hrun) as (Hurl & Hsite & Hname).
    split; [done |]. split.
    + cbn [map]. rewrite Hurl. by apply sublist_skip.
    + constructor; [| done]. by rewrite Hurl.
  - split; [done |]. split; [by apply sublist_cons | done].
  - split; [done |]. split; [by apply sublist_cons | done].
Qed.

Lemma slice_to_sublist {A} (n : Z) (l : list A) : slice_to n l `sublist_of` l.
Proof. unfold slice_to. destruct (n <? 0); apply sublist_take. Qed.

Lemma slice_to_length {A} (n : Z) (l : list A) :
  0 <= n -> Z.of_nat (length (slice_to n l)) <= n.
Proof.
  intros Hn. unfold slice_to. destruct (Z.ltb_spec n 0); [lia |].
  rewrite length_take. lia.
Qed.

Lemma scrape_products_spec (config : ScrapeConfig) (product_urls : list str)
    (results : list ProductRecord) (gotos : list str) :
  scrape_products config world product_urls = (results, gotos) ->
  gotos = slice_to (max_products config) product_urls
  /\ map Extract.url results `sublist_of` product_urls
  /\ (NoDup product_urls -> NoDup (map Extract.url results))
  /\ (length results <= length gotos)%nat
  /\ Forall (fun r => site r = Config.name config /\ Extract.name r <> []
                      /\ _scrape_product config world (Extract.url r)
                         = Ret (Some r)) results.
Proof.
  unfold scrape_products. intros Hrun.
  pose proof (scrape_each_spec config (slice_to (max_products config) product_urls))
    as Hspec.
  rewrite Hrun in Hspec. destruct Hspec as (-> & Hsub & Hall).
  assert (Hsub' : map Extract.url results `sublist_of` product_urls).
  { etrans; [exact Hsub | apply slice_to_sublist]. }
  split; [done |]. split; [done |]. split; [| split; [| done]].
  - intros Hnd. by eapply sublist_NoDup.
  - apply sublist_length in Hsub. by rewrite length_map in Hsub.
Qed.

(** Discovery *)
Lemma join_all_spec (base : str) (paths candidates : list str) :
  join_all urljoin base paths = Ret candidates ->
  Forall2 (fun path candidate => urljoin base path = Some candidate)
    paths candidates.
Proof.
  revert candidates. induction paths as [|path rest IH]; intros candidates.
  - intros [= <-]. constructor.
  - cbn [join_all]. destruct (urljoin base path) as [c|] eqn:Hc; [| done].
    cbn [of_option mbind outcome_bind].
    destruct (join_all urljoin base rest) as [cs|]; [| done].
    cbn [mbind outcome_bind]. intros [= <-]. constructor; [done | by apply IH].
Qed.

Lemma try_candidates_spec (config : ScrapeConfig) (candidates : list str) :
  forall found gotos,
    try_candidates urljoin world config candidates = Ret (found, gotos) ->
    match found with
    | Some candidate =>
        exists before after,
          candidates = before ++ candidate :: after
          /\ gotos = before ++ [candidate]
          /\ Forall (passed_over urljoin world config) before
          /\ has_product_links urljoin world config candidate
    | None =>
        gotos = candidates /\ Forall (passed_over urljoin world config) candidates
    end.
Proof.
  induction candidates as [|candidate rest IH]; intros found gotos Hrun.
  - injection Hrun as <- <-. split; [done | constructor].
  - cbn [try_candidates] in Hrun.
    assert (Hskip :
      passed_over urljoin world config candidate ->
      ('(found, gotos) ← try_candidates urljoin world config rest;
       Ret (found, candidate :: gotos)) = Ret (found, gotos) ->
      match found with
      | Some c =>
          exists before after,
            candidate :: rest = before ++ c :: after
            /\ gotos = before ++ [c]
            /\ Forall (passed_over urljoin world config) before
            /\ has_product_links urljoin world config c
      | None =>
          gotos = candidate :: rest
          /\ Forall (passed_over urljoin world config) (candidate :: rest)
      end).
    { intros Hpassed Hrest.
      destruct (try_candidates urljoin world config rest) as [[f g]|] eqn:Htry;
        [| done].
      cbn [mbind outcome_bind] in Hrest. injection Hrest as <- <-.
      specialize (IH _ _ eq_refl). destruct f as [c|].
      - destruct IH as (before & after & -> & -> & Hbefore & Hlinks).
        exists (candidate :: before), after. split; [done |]. split; [done |].
        split; [by constructor | done].
      - destruct IH as [-> Hall]. split; [done | by constructor]. }
    destruct (goto world candidate) as [page|] eqn:Hgoto;
      [| apply Hskip; [by left | done]].
    destruct (_collect_product_urls urljoin config (snapshot page 0))
      as [[|first others]|] eqn:Hcollect; [| | done].
    + apply Hskip; [| done]. right. by exists page.
    + cbn [mbind outcome_bind] in Hrun. injection Hrun as <- <-.
      exists [], rest. split; [done |]. split; [done |].
      split; [constructor |]. by exists page, first, others.
Qed.

Lemma discover_config (config : ScrapeConfig) (found : option str)
    (config' : ScrapeConfig) (gotos : list str) :
  _discover_catalog_url urljoin world config = Ret (found, config', gotos) ->
  Config.name config' = Config.name config
  /\ max_products config' = max_products config
  /\ (length gotos <= 5)%nat.
Proof.
  unfold _discover_catalog_url. intros Hrun.
  assert (Hsearch :
    (candidates ← join_all urljoin (base_url config) CATALOG_PATHS;
     '(found, gotos) ← try_candidates urljoin world config candidates;
     match found with
     | Some candidate => Ret (found, with_catalog_url config candidate, gotos)
     | None => Ret (None, config, gotos)
     end) = Ret (found, config', gotos) ->
    Config.name config' = Config.name config
    /\ max_products config' = max_products config
    /\ (length gotos <= 5)%nat).
  { clear Hrun. intros Hrun.
    destruct (join_all urljoin (base_url config) CATALOG_PATHS)
      as [candidates|] eqn:Hjoin; [| done].
    cbn [mbind outcome_bind] in Hrun.
    apply join_all_spec, Forall2_length in Hjoin. cbn in Hjoin.
    destruct (try_candidates urljoin world config candidates)
      as [[f g]|] eqn:Htry; [| done].
    cbn [mbind outcome_bind] in Hrun.
    pose proof (try_candidates_spec config candidates _ _ Htry) as Hspec.
    destruct f as [candidate|]; injection Hrun as <- <- <-.
    - destruct Hspec as (before & after & -> & -> & _).
      rewrite !length_app in *. cbn [length] in *. split; [done |].
      split; [done | lia].
    - destruct Hspec as [-> _]. split; [done |]. split; [done | lia]. }
  destruct (catalog_url config) as [[|c u]|]; [by apply Hsearch | | by apply Hsearch].
  injection Hrun as <- <- <-. cbn [length]. split; [done |]. split; [done | lia].
Qed.

End crawls.

(** X14.  [_collect_product_urls] returns each product link of the page
    once: when it returns, the list has no duplicates, and a URL is in it
    exactly when it contains [/product/], [/products/] or [/p/] and is the
    [href] (not empty) of an element matched by a product-link selector,
    joined to the base URL. *)
Theorem collect_product_urls_distinct_links (urljoin : str -> str -> option str)
    (config : ScrapeConfig) (dom : Dom) (urls : list str) :
  Crawl._collect_product_urls urljoin config dom = Ret urls ->
  NoDup urls
  /\ forall u, u ∈ urls <-> product_link urljoin config dom u.
Proof. apply collect_product_urls_spec. Qed.

(** X15.  Scrolling never loses links.  When [_maybe_scroll_for_more]
    returns after [k] scrolls, [k] is at most the number of attempts; the
    list returned is the list it was given or the list collected after one
    of the scrolls; it is at least as long as the list given and as every
    list collected after a scroll; and the scrolling stopped before the last
    attempt only because the list had reached [max_products]. *)
Theorem scrolling_keeps_the_longest_list (urljoin : str -> str -> option str)
    (config : ScrapeConfig) (page : Page) (attempts : nat)
    (product_urls best : list str) (k : nat) :
  Crawl._maybe_scroll_for_more urljoin config page attempts product_urls
  = Ret (best, k) ->
  (k <= attempts)%nat
  /\ (length product_urls <= length best)%nat
  /\ (forall j, (1 <= j <= k)%nat ->
                exists fresh,
                  Crawl._collect_product_urls urljoin config (snapshot page j)
                  = Ret fresh
                  /\ (length fresh <= length best)%nat)
  /\ (best = product_urls
      \/ exists j, (1 <= j <= k)%nat
                   /\ Crawl._collect_product_urls urljoin config (snapshot page j)
                      = Ret best)
  /\ ((k < attempts)%nat -> Crawl.budget_reached config best = true).
Proof.
  intros Hrun. unfold Crawl._maybe_scroll_for_more in Hrun.
  destruct (scroll_loop_spec urljoin config page attempts 0 product_urls best k Hrun)
    as (Hk & Hlen & Hall & Hone & Hstop).
  split; [lia |]. split; [done |]. split; [| split].
  - intros j Hj. apply Hall. lia.
  - destruct Hone as [-> | (j & Hj & Hbest)]; [by left |].
    right. exists j. split; [lia | done].
  - intros Hlt. apply Hstop. lia.
Qed.

(** X16.  The fast path has no page limit of its own.  From a head of its
    loop with room left in the budget, if every further page of the listing
    answers with a status below 400 and a list of products that is not
    empty but brings nothing new (each product has no handle or a product
    URL already seen), the loop never returns: no amount of fuel is
    enough. *)
Theorem fast_path_never_ends_on_a_repeating_listing `{HostChecks}
    (urljoin : str -> str -> option str) (config : ScrapeConfig) (world : World)
    (base : str) (collected : list str) (seen : gset str) (page_index : Z) :
  Crawl.budget_reached config collected = false ->
  (forall i,
     page_index <= i ->
     exists status payload items,
       request_get world (api_url base i) = Response status (Some payload)
       /\ status < 400
       /\ Json.truthy (products_of payload) = true
       /\ items_of (products_of payload) = Ret items
       /\ nothing_new urljoin config seen items) ->
  forall fuel,
    shopify_loop urljoin config world fuel base collected seen page_index = None.
Proof.
  intros Hb Hpages fuel.
  by apply (shopify_loop_stuck urljoin world config base collected seen page_index).
Qed.

(** X17.  [_discover_catalog_url] returns the configured catalog URL
    without opening a page.  Without one it joins the five catalog paths to
    the base URL and opens them in order: it returns the first candidate
    whose page loads and shows a product link, having opened exactly the
    candidates up to that one, and remembers it in the configuration, so
    that the next call opens no page; it returns [None], the configuration
    unchanged, when every candidate fails to load or shows no product
    link. *)
Theorem discover_catalog_url_first_candidate_with_links `{HostChecks}
    (urljoin : str -> str -> option str) (world : World) (config : ScrapeConfig)
    (found : option str) (config' : ScrapeConfig) (gotos : list str) :
  _discover_catalog_url urljoin world config = Ret (found, config', gotos) ->
  match catalog_url config with
  | Some (c :: u) => found = Some (c :: u) /\ config' = config /\ gotos = []
  | _ =>
      exists candidates,
        Forall2 (fun path candidate =>
                   urljoin (base_url config) path = Some candidate)
          CATALOG_PATHS candidates
        /\ match found with
           | Some candidate =>
               exists before after,
                 candidates = before ++ candidate :: after
                 /\ gotos = before ++ [candidate]
                 /\ Forall (passed_over urljoin world config) before
                 /\ has_product_links urljoin world config candidate
                 /\ config' = with_catalog_url config candidate
                 /\ (candidate <> [] ->
                     _discover_catalog_url urljoin world config'
                     = Ret (found, config', []))
           | None =>
               gotos = candidates
               /\ Forall (passed_over urljoin world config) candidates
               /\ config' = config
           end
  end.
Proof.
  unfold _discover_catalog_url. intros Hrun.
  assert (Hsearch :
    (candidates ← join_all urljoin (base_url config) CATALOG_PATHS;
     '(found, gotos) ← try_candidates urljoin world config candidates;
     match found with
     | Some candidate => Ret (found, with_catalog_url config candidate, gotos)
     | None => Ret (None, config, gotos)
     end) = Ret (found, config', gotos) ->
    exists candidates,
      Forall2 (fun path candidate =>
                 urljoin (base_url config) path = Some candidate)
        CATALOG_PATHS candidates
      /\ match found with
         | Some candidate =>
             exists before after,
               candidates = before ++ candidate :: after
               /\ gotos = before ++ [candidate]
               /\ Forall (passed_over urljoin world config) before
               /\ has_product_links urljoin world config candidate
               /\ config' = with_catalog_url config candidate
               /\ (candidate <> [] ->
                   _discover_catalog_url urljoin world config'
                   = Ret (found, config', []))
         | None =>
             gotos = candidates
             /\ Forall (passed_over urljoin world config) candidates
             /\ config' = config
         end).
  { clear Hrun. intros Hrun.
    destruct (join_all urljoin (base_url config) CATALOG_PATHS)
      as [candidates|] eqn:Hjoin; [| done].
    cbn [mbind outcome_bind] in Hrun.
    destruct (try_candidates urljoin world config candidates)
      as [[f g]|] eqn:Htry; [| done].
    cbn [mbind outcome_bind] in Hrun.
    exists candidates. split; [by apply join_all_spec |].
    pose proof (try_candidates_spec urljoin world config candidates _ _ Htry)
      as Hspec.
    destruct f as [candidate|]; injection Hrun as <- <- <-.
    - destruct Hspec as (before & after & -> & -> & Hbefore & Hlinks).
      exists before, after. repeat (split; [done |]).
      intros Hne. unfold _discover_catalog_url. cbn [catalog_url with_catalog_url].
      by destruct candidate.
    - by destruct Hspec. }
  destruct (catalog_url config) as [[|c u]|]; [by apply Hsearch | | by apply Hsearch].
  by injection Hrun as <- <- <-.
Qed.

(** X18.  [crawl_catalog] scrapes no product twice and stays within the
    budget.  The records it returns have pairwise distinct URLs, the name
    of the site and a name that is not empty; for a budget that is not
    negative there are at most [max_products] of them, and at most
    [3 * max_products + 6] pages were opened for the discovery of the
    catalog, the listing and the products together. *)
Theorem crawl_catalog_distinct_records_within_budget `{HostChecks}
    (urljoin : str -> str -> option str) (world : World) (fuel : nat)
    (config : ScrapeConfig) (records : list ProductRecord) (gotos : list str) :
  crawl_catalog urljoin world fuel config = Some (Ret (records, gotos)) ->
  NoDup (map Extract.url records)
  /\ Forall (fun r => site r = Config.name config /\ Extract.name r <> []) records
  /\ (0 <= max_products config ->
      Z.of_nat (length records) <= max_products config
      /\ Z.of_nat (length gotos) <= 3 * max_products config + 6).
Proof.
  unfold crawl_catalog. intros Hrun.
  destruct (_discover_catalog_url urljoin world config)
    as [[[found config'] discovery]|] eqn:Hdisc; [| done].
  pose proof (discover_config urljoin world config _ _ _ Hdisc)
    as (Hname & Hmax & Hlen).
  destruct found as [[|c u]|].
  1,3: injection Hrun as <- <-; split; [constructor |]; split; [constructor |];
    intros Hpos; cbn [length]; lia.
  destruct (_crawl_catalog_urls urljoin config' world fuel (c :: u))
    as [[crawl|]|] eqn:Hcrawl; try done.
  destruct (scrape_products config' world (urls crawl)) as [rs gs] eqn:Hscrape.
  injection Hrun as <- <-.
  destruct (scrape_products_spec world config' _ _ _ Hscrape)
    as (Hgotos & _ & Hnd & Hlen' & Hall).
  split; [apply Hnd; by eapply crawl_catalog_urls_NoDup |]. split.
  - eapply Forall_impl; [exact Hall |]. intros r (Hs & Hn & _). by rewrite <- Hname.
  - intros Hpos. rewrite <- Hmax in *.
    pose proof (slice_to_length (max_products config') (urls crawl) Hpos) as Hslice.
    rewrite <- Hgotos in Hslice.
    pose proof (crawl_catalog_urls_pages urljoin world config' _ _ _ Hcrawl) as Hnav.
    rewrite !length_app. lia.
Qed.

(** X19.  [search] opens the search page and then each of the first
    [max_products] product links of that page once; a product whose page
    raises or has no name is skipped.  The records have pairwise distinct
    URLs taken from those links, in their order, the name of the site and
    a name that is not empty; for a budget that is not negative there are
    at most [max_products] records and [max_products + 1] pages opened. *)
Theorem search_distinct_records_within_budget `{HostChecks}
    (urljoin format_query : str -> str -> option str) (world : World)
    (config : ScrapeConfig) (query : str)
    (records : list ProductRecord) (gotos : list str) :
  search urljoin format_query world config query = Ret (records, gotos) ->
  exists search_url page product_urls,
    format_query (Config.search_url config) (quote_plus query) = Some search_url
    /\ goto world search_url = Some page
    /\ Crawl._collect_product_urls urljoin config (snapshot page 0)
       = Ret product_urls
    /\ gotos = search_url :: slice_to (max_products config) product_urls
    /\ map Extract.url records `sublist_of` product_urls
    /\ NoDup (map Extract.url records)
    /\ Forall (fun r => site r = Config.name config /\ Extract.name r <> []) records
    /\ (0 <= max_products config ->
        Z.of_nat (length records) <= max_products config
        /\ Z.of_nat (length gotos) <= max_products config + 1).
Proof.
  unfold search. intros Hrun.
  destruct (format_query _ _) as [search_url|] eqn:Hformat; [| done].
  cbn [of_option mbind outcome_bind] in Hrun.
  destruct (goto world search_url) as [page|] eqn:Hgoto; [| done].
  cbn [of_option mbind outcome_bind] in Hrun.
  destruct (Crawl._collect_product_urls urljoin config (snapshot page 0))
    as [product_urls|] eqn:Hcollect; [| done].
  cbn [mbind outcome_bind] in Hrun.
  destruct (scrape_products config world product_urls) as [rs gs] eqn:Hscrape.
  injection Hrun as <- <-.
  destruct (scrape_products_spec world config _ _ _ Hscrape)
    as (Hgotos & Hsub & Hnd & Hlen & Hall).
  exists search_url, page, product_urls. repeat (split; [done |]).
  split; [by rewrite Hgotos |]. split; [done |].
  split; [apply Hnd; by destruct (collect_product_urls_spec _ _ _ _ Hcollect) |].
  split.
  - eapply Forall_impl; [exact Hall |]. by intros r (Hs & Hn & _).
  - intros Hpos.
    pose proof (slice_to_length (max_products config) product_urls Hpos) as Hslice.
    rewrite <- Hgotos in Hslice. cbn [length]. lia.
Qed.

(** X20.  The listing crawl opens few pages: when [_crawl_catalog_urls]
    returns, it has opened at most [2 * max_products + 1] pages (none when
    the fast path answered), and the URLs it returns are pairwise
    distinct. *)
Theorem catalog_crawl_opens_few_pages `{HostChecks}
    (urljoin : str -> str -> option str) (config : ScrapeConfig) (world : World)
    (fuel : nat) (start_url : str) (r : CrawlResult) :
  _crawl_catalog_urls urljoin config world fuel start_url = Some (Ret r) ->
  (length (navigations r) <= 2 * Z.to_nat (max_products config) + 1)%nat
  /\ NoDup (urls r)
  /\ (forall l,
        _crawl_shopify_catalog_urls urljoin config world fuel start_url
        = Some (Ret l) ->
        l <> [] -> navigations r = []).
Proof.
  intros Hrun. split; [by eapply crawl_catalog_urls_pages |].
  split; [by eapply crawl_catalog_urls_NoDup |].
  intros l Hshop Hne. unfold _crawl_catalog_urls in Hrun. rewrite Hshop in Hrun.
  destruct l; [done |]. by injection Hrun as <-.
Qed.

(** *** Examples *)

Section examples.
Import Sites Demo.

#[local] Existing Instance permissive.

Lemma collect_product_urls_distinct_links_witness :
  Crawl._collect_product_urls join_origin shop plain_listing = Ret [shirt_url]
  /\ NoDup [shirt_url]
  /\ product_link join_origin shop plain_listing shirt_url.
Proof.
  assert (Hrun : Crawl._collect_product_urls join_origin shop plain_listing
                 = Ret [shirt_url]) by (by vm_compute).
  destruct (collect_product_urls_distinct_links join_origin shop plain_listing
              [shirt_url] Hrun) as [Hnd Hmem].
  split; [exact Hrun |]. split; [exact Hnd |]. apply Hmem. by left.
Defined.

Lemma scrolling_keeps_the_longest_list_witness :
  Crawl._maybe_scroll_for_more join_origin shop (static_page plain_listing) 2 []
  = Ret ([shirt_url], 2%nat)
  /\ (length ([] : list str) <= length [shirt_url])%nat.
Proof.
  assert (Hrun : Crawl._maybe_scroll_for_more join_origin shop
                   (static_page plain_listing) 2 [] = Ret ([shirt_url], 2%nat))
    by (by vm_compute).
  destruct (scrolling_keeps_the_longest_list join_origin shop
              (static_page plain_listing) 2 [] [shirt_url] 2 Hrun)
    as (_ & Hlen & _).
  by split.
Defined.

Lemma fast_path_never_ends_on_a_repeating_listing_witness :
  Crawl.budget_reached shop [tee_url] = false
  /\ forall fuel,
       shopify_loop join_origin shop repeating_storefront fuel collection_base
         [tee_url] {[tee_url]} 2 = None.
Proof.
  split; [by vm_compute |].
  apply (fast_path_never_ends_on_a_repeating_listing join_origin shop
           repeating_storefront collection_base [tee_url] {[tee_url]} 2).
  - by vm_compute.
  - intros i _. eexists 200, _, _. split; [reflexivity |]. split; [lia |].
    split; [reflexivity |]. split; [reflexivity |].
    constructor; [| constructor]. right. exists tee_url, tee_url.
    split; [by vm_compute |]. split; [by vm_compute |].
    by apply elem_of_singleton.
Defined.

Lemma discover_catalog_url_first_candidate_with_links_witness :
  _discover_catalog_url join_origin (site_with plain_listing) shop
  = Ret (Some shop_url, with_catalog_url shop shop_url,
         [collection_url; "https://shop.example/collections" : str; shop_url])
  /\ _discover_catalog_url join_origin (site_with plain_listing)
       (with_catalog_url shop shop_url)
     = Ret (Some shop_url, with_catalog_url shop shop_url, []).
Proof.
  assert (Hrun : _discover_catalog_url join_origin (site_with plain_listing) shop
                 = Ret (Some shop_url, with_catalog_url shop shop_url,
                        [collection_url; "https://shop.example/collections" : str;
                         shop_url])) by (by vm_compute).
  pose proof (discover_catalog_url_first_candidate_with_links join_origin
                (site_with plain_listing) shop _ _ _ Hrun) as Hspec.
  change (catalog_url shop) with (@None str) in Hspec.
  destruct Hspec as (candidates & _ & before & after & _ & _ & _ & _ & _ & Hmemo).
  split; [exact Hrun |]. by apply Hmemo.
Defined.

Lemma crawl_catalog_distinct_records_within_budget_witness :
  exists records gotos,
    crawl_catalog join_origin listing_site 10 shop = Some (Ret (records, gotos))
    /\ map Extract.name records = ["Linen Shirt" : str]
    /\ NoDup (map Extract.url records)
    /\ Z.of_nat (length gotos) <= 3 * max_products shop + 6.
Proof.
  destruct (crawl_catalog join_origin listing_site 10 shop)
    as [[[records gotos]|]|] eqn:Hrun.
  2,3: vm_compute in Hrun; discriminate Hrun.
  destruct (crawl_catalog_distinct_records_within_budget join_origin listing_site
              10 shop records gotos Hrun) as (Hnd & _ & Hbudget).
  exists records, gotos. split; [done |]. split.
  - vm_compute in Hrun. by injection Hrun as <- <-.
  - split; [exact Hnd |]. apply Hbudget. by vm_compute.
Defined.

Lemma search_distinct_records_within_budget_witness :
  exists records gotos,
    search join_origin format_suffix listing_site shop "linen shirt"
    = Ret (records, gotos)
    /\ gotos = ["https://shop.example/search?q=linen+shirt" : str; shirt_url]
    /\ NoDup (map Extract.url records).
Proof.
  destruct (search join_origin format_suffix listing_site shop "linen shirt")
    as [[records gotos]|] eqn:Hrun.
  2: vm_compute in Hrun; discriminate Hrun.
  destruct (search_distinct_records_within_budget join_origin format_suffix
              listing_site shop "linen shirt" records gotos Hrun)
    as (search_url & page & product_urls & _ & _ & _ & _ & _ & Hnd & _).
  exists records, gotos. split; [done |]. split; [| exact Hnd].
  vm_compute in Hrun. by injection Hrun as <- <-.
Defined.

Lemma catalog_crawl_opens_few_pages_witness :
  exists r,
    Crawl._crawl_catalog_urls join_origin shop listing_site 10 collection_url
    = Some (Ret r)
    /\ urls r = [shirt_url]
    /\ (length (navigations r) <= 2 * Z.to_nat (max_products shop) + 1)%nat.
Proof.
  destruct (Crawl._crawl_catalog_urls join_origin shop listing_site 10 collection_url)
    as [[r|]|] eqn:Hrun.
  2,3: vm_compute in Hrun; discriminate Hrun.
  destruct (catalog_crawl_opens_few_pages join_origin shop listing_site 10
              collection_url r Hrun) as (Hpages & _).
  exists r. split; [done |]. split; [| exact Hpages].
  vm_compute in Hrun. by injection Hrun as <-.
Defined.

End examples.

End CatalogFacts.

(** ** The pagination parameter *)

Module PaginationFacts.
Import PyStr PyStrFacts Url UrlOps UrlFacts Json.

Lemma str_of_int_nonempty (n : Z) : str_of_int n <> [].
Proof.
  unfold str_of_int. destruct (Z.ltb_spec n 0); [done |].
  by destruct (str_of_nonneg_spec n) as (ds & -> & _ & Hne & _).
Qed.

Lemma qdict_set_keys (name : str) (values : list str) (d : qdict) :
  forall k, k ∈ map fst (qdict_set name values d) <-> k ∈ map fst d \/ k = name.
Proof.
  induction d as [|[k0 vs] d IH]; intros k; cbn [qdict_set map fst].
  - rewrite list_elem_of_singleton. split; [by right | by intros [?%elem_of_nil | ?]].
  - destruct (eqb name k0) eqn:Hk; cbn [map fst].
    + apply eqb_true in Hk. subst k0. rewrite elem_of_cons. tauto.
    + rewrite !elem_of_cons, IH. tauto.
Qed.

Lemma qdict_set_wf (name value : str) (d : qdict) :
  value <> [] -> qdict_wf d -> qdict_wf (qdict_set name [value] d).
Proof.
  intros Hv [Hnd Hall]. split.
  - induction d as [|[k0 vs] d IH]; cbn [qdict_set map fst].
    + apply NoDup_singleton.
    + cbn [map fst] in Hnd. apply NoDup_cons in Hnd as [Hk0 Hnd].
      apply Forall_cons in Hall as [_ Hall].
      destruct (eqb name k0) eqn:Hk; cbn [map fst].
      * by constructor.
      * apply eqb_false in Hk. constructor; [| by apply IH].
        rewrite qdict_set_keys. intros [? | ->]; done.
  - clear Hnd. induction Hall as [|[k0 vs] d Hkv Hd IH]; cbn [qdict_set].
    + constructor; [| constructor]. cbn. split; [done |]. by constructor.
    + destruct (eqb name k0); constructor; try done.
      cbn. split; [done |]. by constructor.
Qed.

Lemma assoc_qdict_set (name : str) (values : list str) (d : qdict) :
  assoc name (qdict_set name values d) = Some values
  /\ forall k, k <> name -> assoc k (qdict_set name values d) = assoc k d.
Proof.
  induction d as [|[k0 vs] d [IH1 IH2]]; cbn [qdict_set assoc].
  - rewrite eqb_refl. split; [done |]. intros k Hk.
    by apply eqb_false in Hk as ->.
  - destruct (eqb name k0) eqn:Hk; cbn [assoc].
    + apply eqb_true in Hk. subst k0. rewrite eqb_refl. split; [done |].
      intros k Hne. by apply eqb_false in Hne as ->.
    + rewrite Hk. split; [done |]. intros k Hne.
      destruct (eqb k k0); [done | by apply IH2].
Qed.

Lemma qdict_set_twice (name : str) (v1 v2 : list str) (d : qdict) :
  qdict_set name v2 (qdict_set name v1 d) = qdict_set name v2 d.
Proof.
  induction d as [|[k0 vs] d IH]; cbn [qdict_set].
  - by rewrite eqb_refl.
  - destruct (eqb name k0) eqn:Hk; cbn [qdict_set]; rewrite Hk; [done |].
    by rewrite IH.
Qed.

(** X21.  The page number that [_with_pagination_param] writes can be
    read back, and the last one written wins.  For a URL with a network
    location the result has the same scheme, network location, path, path
    parameters and fragment; in its query the parameter has the single
    value [str(page)] and the other parameters have the values they had
    (blank ones apart, which [parse_qs] does not report); and setting
    another page on the result gives what setting it on the URL gives. *)
Theorem pagination_param_reads_back `{HostChecks} (url param : str) (page : Z)
    (p : ParseResult) :
  urlparse url = Some p ->
  netloc p <> [] ->
  exists a p',
    _with_pagination_param url param page = Some a
    /\ urlparse a = Some p'
    /\ scheme p' = scheme p /\ netloc p' = netloc p /\ path p' = path p
    /\ params p' = params p /\ fragment p' = fragment p
    /\ assoc param (parse_qs (query p')) = Some [str_of_int page]
    /\ (forall k, k <> param ->
                  assoc k (parse_qs (query p')) = assoc k (parse_qs (query p)))
    /\ forall page2,
         _with_pagination_param a param page2
         = _with_pagination_param url param page2.
Proof.
  intros Hp Hne.
  set (d := qdict_set param [str_of_int page] (parse_qs (query p))).
  assert (Hwf : qdict_wf d)
    by (apply qdict_set_wf; [apply str_of_int_nonempty | apply parse_qs_wf]).
  destruct (urlencode_clean d) as [Hclean Hhash].
  pose proof (urlparse_urlunparse url (urlencode d) p Hp Hne Hclean Hhash) as Hpa.
  pose proof (parse_qs_urlencode d Hwf) as Hround.
  exists (urlunparse (with_query p (urlencode d))), (with_query p (urlencode d)).
  split; [unfold _with_pagination_param; by rewrite Hp |].
  split; [exact Hpa |].
  cbn [scheme netloc path params query fragment with_query].
  do 5 (split; [reflexivity |]). rewrite Hround.
  destruct (assoc_qdict_set param [str_of_int page] (parse_qs (query p)))
    as [Hget Hothers].
  split; [exact Hget |]. split; [exact Hothers |].
  intros page2. unfold _with_pagination_param. rewrite Hpa, Hp.
  cbn [mbind option_bind query with_query]. rewrite Hround. unfold d.
  by rewrite qdict_set_twice.
Qed.

Section examples.

#[local] Existing Instance Sites.permissive.

Lemma pagination_param_reads_back_witness :
  _with_pagination_param "https://shop.example/shop?page=1&color=red" "page" 2
  = Some ("https://shop.example/shop?page=2&color=red" : str)
  /\ _with_pagination_param "https://shop.example/shop?page=2&color=red" "page" 3
     = _with_pagination_param "https://shop.example/shop?page=1&color=red" "page" 3.
Proof.
  destruct (urlparse "https://shop.example/shop?page=1&color=red") as [p|] eqn:Hp.
  2:{ vm_compute in Hp. discriminate Hp. }
  assert (Hne : netloc p <> []).
  { vm_compute in Hp. injection Hp as <-. discriminate. }
  destruct (pagination_param_reads_back
              "https://shop.example/shop?page=1&color=red" "page" 2 p Hp Hne)
    as (a & p' & Ha & _ & _ & _ & _ & _ & _ & _ & _ & Hlast).
  assert (Heq : a = ("https://shop.example/shop?page=2&color=red" : str)).
  { vm_compute in Ha. by injection Ha as <-. }
  rewrite Heq in Ha, Hlast. split; [exact Ha | apply Hlast].
Defined.

End examples.

End PaginationFacts.
